(** * Verification of the pronunciation-analysis engine of speech_to_text.py

    The development embeds the alignment, classification and scoring code of
    [speech_to_text.py] together with the part of Python's
    [difflib.SequenceMatcher] that the program calls, and proves the
    properties of the specification about them.  It then embeds the audio
    and recognition layer of the program and proves further properties of
    the whole. *)

From Stdlib Require Import QArith Qminmax Lqa.
From stdpp Require Import base option list sorting gmap strings pretty.

Open Scope nat_scope.

(** ** The similarity engine: difflib.SequenceMatcher

    The program builds its matchers as [SequenceMatcher(None, a, b)]: no junk
    predicate, and the popularity heuristic [autojunk] left at its default.
    The class comes from Python's standard library, not from the source
    file; each definition of this module says which part of it is
    modelled. *)

Module SequenceMatcher.

(** Modelled from the spec: the triple [Match(a, b, size)] of the missing
    [difflib], a matching block [(i, j, k)] with [a[i:i+k] == b[j:j+k]]. *)
Abbreviation Match := (nat * nat * nat)%type (only parsing).

(** Modelled from the spec: an entry [(alo, ahi, blo, bhi)] of the work
    list of the missing [get_matching_blocks]. *)
Abbreviation region := (nat * nat * nat * nat)%type (only parsing).

(** Modelled from the spec: the tags of the opcodes of the missing
    [get_opcodes] (section 3, Opcode). *)
Inductive tag : Type := replace | delete | insert | equal.

(** Modelled from the spec: an opcode [(tag, i1, i2, j1, j2)] of the missing
    [get_opcodes] (section 3, Opcode). *)
Record opcode : Type := Opcode {
  op_tag : tag;
  op_i1 : nat;
  op_i2 : nat;
  op_j1 : nat;
  op_j2 : nat
}.

#[global] Instance tag_eq_dec : EqDecision tag.
Proof. solve_decision. Defined.

#[global] Instance opcode_eq_dec : EqDecision opcode.
Proof. solve_decision. Defined.

(** Modelled from the spec: the order in which [matching_blocks.sort()] of
    the missing [get_matching_blocks] puts the blocks, tuples of integers
    being compared lexicographically. *)
Definition Match_le (x y : Match) : Prop :=
  x.1.1 < y.1.1 ∨
  (x.1.1 = y.1.1 ∧ (x.1.2 < y.1.2 ∨ (x.1.2 = y.1.2 ∧ x.2 ≤ y.2))).

#[global] Instance Match_le_dec : RelDecision Match_le.
Proof. intros x y. unfold Match_le. apply _. Defined.

(** Modelled from the spec: [_calculate_ratio(matches, length)] of the
    missing [difflib] module, [2.0 * matches / length] when [length] is
    non-zero and [1.0] otherwise (section 4.1: [2*M / (len(a)+len(b))], 1.0
    when both sequences are empty).  The quotient is kept as an exact
    rational; the float the library returns is this quotient correctly
    rounded. *)
Definition calculate_ratio (matches length : nat) : Q :=
  if decide (length = 0) then 1%Q
  else (Z.of_nat (2 * matches) # Pos.of_nat length)%Q.

Section matcher.
Context {T : Type} `{Countable T}.

(** Modelled from the spec: the constructor argument [autojunk] of the
    missing [SequenceMatcher].  With [autojunk = False] every element of [b]
    stays in the index the search of section 4.1 runs on; the program leaves
    the argument at its default, [True], which prunes the index of long
    sequences. *)
Variable autojunk : bool.

(** *** [__chain_b] *)

(** Modelled from the spec: one iteration of the loop of the missing
    [SequenceMatcher.__chain_b],
    [indices = b2j.setdefault(elt, []); indices.append(i)]. *)
Definition setdefault_append (b2j : gmap T (list nat)) (ie : nat * T)
    : gmap T (list nat) :=
  <[ie.2 := default [] (b2j !! ie.2) ++ [ie.1]]> b2j.

(** Modelled from the spec: the missing [SequenceMatcher.__chain_b], the
    index the matching-block search of section 4.1 runs on.  [b2j] maps every
    element of [b] to the increasing list of its positions; with
    [isjunk = None] nothing is junk; with [autojunk] set and [b] of at least
    200 elements, the entries of the elements that occur more than
    [len(b) // 100 + 1] times are deleted. *)
Definition chain_b (b : list T) : gmap T (list nat) :=
  let b2j := foldl setdefault_append ∅ (imap pair b) in
  let n := length b in
  if autojunk && bool_decide (200 ≤ n) then
    let ntest := n / 100 + 1 in
    filter (λ kv : T * list nat, ¬ ntest < length kv.2) b2j
  else b2j.

(** Modelled from the spec: [b2j.get(a[i], nothing)] in the missing
    [find_longest_match]. *)
Definition b2j_get (b2j : gmap T (list nat)) (a : list T) (i : nat)
    : list nat :=
  match a !! i with
  | Some x => default [] (b2j !! x)
  | None => []
  end.

(** Modelled from the spec: the test [a[i] == b[j]] of the two extension
    loops of the missing [find_longest_match]. *)
Definition eq_at (a b : list T) (i j : nat) : bool :=
  match a !! i, b !! j with
  | Some x, Some y => bool_decide (x = y)
  | _, _ => false
  end.

(** *** [find_longest_match] *)

(** Modelled from the spec: the inner loop
    [for j in b2j.get(a[i], nothing)] of the missing [find_longest_match],
    for row [i]: [continue] below [blo], [break] from [bhi] on, otherwise
    [k = newj2len[j] = j2lenget(j-1, 0) + 1] and the best block is replaced
    when [k > bestsize].  [j2lenget(j-1, 0)] is [0] at [j = 0], where the key
    [-1] is never present; [i-k+1] is written [i+1-k] on natural numbers. *)
Fixpoint scan_row (i blo bhi : nat) (j2len : gmap nat nat) (js : list nat)
    (newj2len : gmap nat nat) (best : Match) : gmap nat nat * Match :=
  match js with
  | [] => (newj2len, best)
  | j :: js' =>
      if decide (j < blo) then scan_row i blo bhi j2len js' newj2len best
      else if decide (bhi ≤ j) then (newj2len, best)
      else
        let k := match j with
                 | 0 => 0
                 | S j' => default 0 (j2len !! j')
                 end + 1 in
        scan_row i blo bhi j2len js' (<[j := k]> newj2len)
          (if decide (best.2 < k) then (i + 1 - k, j + 1 - k, k) else best)
  end.

(** Modelled from the spec: the outer loop [for i in range(alo, ahi)] of the
    missing [find_longest_match], starting from the empty [j2len] and the
    empty block [(alo, blo, 0)]. *)
Definition scan_rows (a : list T) (b2j : gmap T (list nat))
    (alo ahi blo bhi : nat) : gmap nat nat * Match :=
  foldl (λ st i, scan_row i blo bhi st.1 (b2j_get b2j a i) ∅ st.2)
    (∅, (alo, blo, 0)) (seq alo (ahi - alo)).

(** Modelled from the spec: the first [while] loop of the missing
    [find_longest_match], which extends the block to the left while
    [besti > alo and bestj > blo and a[besti-1] == b[bestj-1]]. *)
Fixpoint extend_left (a b : list T) (alo blo besti bestj bestsize : nat)
    : Match :=
  match besti, bestj with
  | S i', S j' =>
      if bool_decide (alo < besti ∧ blo < bestj) && eq_at a b i' j'
      then extend_left a b alo blo i' j' (bestsize + 1)
      else (besti, bestj, bestsize)
  | _, _ => (besti, bestj, bestsize)
  end.

(** Modelled from the spec: the second [while] loop of the missing
    [find_longest_match], which extends the block to the right.  [n] bounds
    the number of iterations; [find_longest_match] passes
    [ahi - (besti + bestsize)], which the first conjunct of the loop
    condition never lets the loop exceed. *)
Fixpoint extend_right (a b : list T) (ahi bhi besti bestj bestsize n : nat)
    : nat :=
  match n with
  | 0 => bestsize
  | S n' =>
      if bool_decide (besti + bestsize < ahi ∧ bestj + bestsize < bhi)
         && eq_at a b (besti + bestsize) (bestj + bestsize)
      then extend_right a b ahi bhi besti bestj (bestsize + 1) n'
      else bestsize
  end.

(** Modelled from the spec: the missing
    [SequenceMatcher.find_longest_match(alo, ahi, blo, bhi)], the longest
    common run of section 4.1 within [a[alo:ahi]] and [b[blo:bhi]], earliest
    in [a] and then in [b] among the longest.  With [isjunk = None] the set
    [bjunk] is empty, so [isbjunk] is constantly false: the two loops above
    are the first two [while] loops, and the last two never iterate. *)
Definition find_longest_match (a b : list T) (b2j : gmap T (list nat))
    (alo ahi blo bhi : nat) : Match :=
  let '(besti, bestj, bestsize) := (scan_rows a b2j alo ahi blo bhi).2 in
  let '(besti, bestj, bestsize) :=
    extend_left a b alo blo besti bestj bestsize in
  (besti, bestj,
   extend_right a b ahi bhi besti bestj bestsize
     (ahi - (besti + bestsize))).

(** *** [get_matching_blocks] *)

(** Modelled from the spec: the [while queue:] loop of the missing
    [SequenceMatcher.get_matching_blocks], the recursion of section 4.1 on
    the left and right remainders of a block, run on a work list.
    [queue.pop()] takes the last element and [queue.append] adds at the end,
    so the head of the list is the top of the stack.  Each iteration consumes
    one unit of [fuel]. *)
Fixpoint mb_loop (a b : list T) (b2j : gmap T (list nat)) (fuel : nat)
    (queue : list region) (matching_blocks : list Match)
    : option (list Match) :=
  match queue with
  | [] => Some matching_blocks
  | (alo, ahi, blo, bhi) :: queue' =>
      match fuel with
      | 0 => None
      | S fuel' =>
          let x := find_longest_match a b b2j alo ahi blo bhi in
          let '(i, j, k) := x in
          if decide (k = 0) then mb_loop a b b2j fuel' queue' matching_blocks
          else
            let q1 := if decide (alo < i ∧ blo < j)
                      then (alo, i, blo, j) :: queue' else queue' in
            let q2 := if decide (i + k < ahi ∧ j + k < bhi)
                      then (i + k, ahi, j + k, bhi) :: q1 else q1 in
            mb_loop a b b2j fuel' q2 (matching_blocks ++ [x])
      end
  end.

(** Modelled from the spec: one iteration of the loop of the missing
    [get_matching_blocks] that collapses adjacent blocks. *)
Definition collapse_step (st : Match * list Match) (x : Match)
    : Match * list Match :=
  let '((i1, j1, k1), non_adjacent) := st in
  let '(i2, j2, k2) := x in
  if decide (i1 + k1 = i2 ∧ j1 + k1 = j2)
  then ((i1, j1, k1 + k2), non_adjacent)
  else ((i2, j2, k2),
        if decide (k1 = 0) then non_adjacent
        else non_adjacent ++ [(i1, j1, k1)]).

(** Modelled from the spec: the collapsing loop of the missing
    [get_matching_blocks] with the final [if k1: non_adjacent.append(...)]. *)
Definition collapse (matching_blocks : list Match) : list Match :=
  let '((i1, j1, k1), non_adjacent) :=
    foldl collapse_step ((0, 0, 0), []) matching_blocks in
  if decide (k1 = 0) then non_adjacent else non_adjacent ++ [(i1, j1, k1)].

(** Modelled from the spec: the blocks the work-list loop of the missing
    [get_matching_blocks] finds from [queue = [(0, la, 0, lb)]], before
    sorting.  The loop runs at most [2 * len(a) + 1] times
    ([mb_loop_terminates] below), so the second branch is never taken. *)
Definition found_blocks (a b : list T) : list Match :=
  match mb_loop a b (chain_b b) (2 * length a + 1)
          [(0, length a, 0, length b)] [] with
  | Some matching_blocks => matching_blocks
  | None => []
  end.

(** Modelled from the spec: the missing
    [SequenceMatcher.get_matching_blocks]: the blocks found, sorted,
    collapsed, and followed by the sentinel [(la, lb, 0)]. *)
Definition get_matching_blocks (a b : list T) : list Match :=
  collapse (merge_sort Match_le (found_blocks a b))
    ++ [(length a, length b, 0)].

(** *** [get_opcodes] *)

(** Modelled from the spec: one iteration of the loop of the missing
    [SequenceMatcher.get_opcodes]: the gap before the block becomes a
    [replace], [delete] or [insert] opcode, the block an [equal] opcode. *)
Definition opcode_step (st : nat * nat * list opcode) (x : Match)
    : nat * nat * list opcode :=
  let '(i, j, answer) := st in
  let '(ai, bj, size) := x in
  let answer :=
    if decide (i < ai ∧ j < bj) then answer ++ [Opcode replace i ai j bj]
    else if decide (i < ai) then answer ++ [Opcode delete i ai j bj]
    else if decide (j < bj) then answer ++ [Opcode insert i ai j bj]
    else answer in
  let '(i, j) := (ai + size, bj + size) in
  (i, j,
   if decide (size = 0) then answer
   else answer ++ [Opcode equal ai i bj j]).

(** Modelled from the spec: the missing [SequenceMatcher.get_opcodes], the
    operation [align] of section 4.1. *)
Definition get_opcodes (a b : list T) : list opcode :=
  (foldl opcode_step (0, 0, []) (get_matching_blocks a b)).2.

(** *** [ratio] *)

(** Modelled from the spec: [sum(triple[-1] for triple in
    self.get_matching_blocks())] of the missing [SequenceMatcher.ratio], the
    total [M] of section 4.1. *)
Definition matches (a b : list T) : nat :=
  sum_list (map (λ triple : Match, triple.2) (get_matching_blocks a b)).

(** Modelled from the spec: the missing [SequenceMatcher.ratio], the
    operation [ratio] of section 4.1. *)
Definition ratio (a b : list T) : Q :=
  calculate_ratio (matches a b) (length a + length b).

End matcher.
End SequenceMatcher.

Import SequenceMatcher.

(** ** The program: speech_to_text.py *)

Module Speech.
Import SequenceMatcher.

(** [SequenceMatcher(None, a, b)]: the program passes no [autojunk]
    argument, so its matchers run with the default [autojunk = True]. *)
Abbreviation ratio := (SequenceMatcher.ratio true).
Abbreviation get_opcodes := (SequenceMatcher.get_opcodes true).

(** A Python [str]: the sequence of its code points. *)
Abbreviation pystr := (list N).

(** The code points of an ASCII literal. *)
Definition py (s : string) : pystr :=
  map Ascii.N_of_ascii (String.list_ascii_of_string s).

(** [str.isspace] for one character: the code points Python treats as
    whitespace, on which [str.split()] separates words. *)
Definition isspace (c : N) : bool :=
  ((9 <=? c) && (c <=? 13) || (28 <=? c) && (c <=? 32) ||
   (c =? 133) || (c =? 160) || (c =? 5760) ||
   (8192 <=? c) && (c <=? 8202) ||
   (c =? 8232) || (c =? 8233) || (c =? 8239) || (c =? 8287) ||
   (c =? 12288))%N.

(** The scan behind [s.split()], which returns the maximal runs of
    non-whitespace characters; [cur] is the word being read. *)
Fixpoint split_from (cur : pystr) (s : pystr) : list pystr :=
  match s with
  | [] => if decide (cur = []) then [] else [cur]
  | c :: s' =>
      if isspace c
      then (if decide (cur = []) then split_from [] s'
            else cur :: split_from [] s')
      else split_from (cur ++ [c]) s'
  end.

(** [s.split()] *)
Definition split (s : pystr) : list pystr := split_from [] s.

(** [sep.join(words)] *)
Fixpoint join (sep : pystr) (words : list pystr) : pystr :=
  match words with
  | [] => []
  | [w] => w
  | w :: ws => w ++ sep ++ join sep ws
  end.

(** [str.lower] on ASCII text, an instance of the parameter [lower] below. *)
Definition ascii_lower (s : pystr) : pystr :=
  map (λ c, if ((65 <=? c) && (c <=? 90))%N then (c + 32)%N else c) s.

(** [d.get(k, dflt)] on a dictionary literal. *)
Fixpoint dict_get {V : Type} (d : list (pystr * V)) (k : pystr) (dflt : V) : V :=
  match d with
  | [] => dflt
  | (k', v) :: d' => if decide (k' = k) then v else dict_get d' k dflt
  end.

Definition LANGUAGE_TIPS : list (pystr * list pystr) := [
  (py "fr", [py "Nasal vowels..."; py "Final consonants...";
             py "French 'r'..."]);
  (py "de", [py "Consonants clearly..."; py "Vowel length...";
             py "'ch' sounds..."]);
  (py "nl", [py "Guttural 'g'..."; py "Vowel length...";
             py "'ui' diphthong..."]);
  (py "ko", [py "Tense consonants..."; py "Vowel combinations...";
             py "Even syllables..."]);
  (py "en", [py "Stress syllables..."; py "Vowel sounds...";
             py "Final consonants..."])
]%N.

Definition COMMON_PHRASES : list (pystr * list pystr) := [
  (py "fr", [py "bonjour"; py "comment " ++ [231] ++ py "a va";
             py "je m'appelle"]);
  (py "de", [py "hallo"; py "wie geht's"; py "mein name ist"]);
  (py "nl", [py "hallo"; py "hoe gaat het"; py "mijn naam is"]);
  (py "ko", [[50504; 45397; 54616; 49464; 50836];
             [51060; 47492; 51060; 32; 47952; 50696; 50836];
             [44048; 49324; 54633; 45768; 45796]]);
  (py "en", [py "hello"; py "how are you"; py "my name is"])
]%N.

Inductive mistake_type : Type := incorrect_word | extra_word | pronunciation.

#[global] Instance mistake_type_eq_dec : EqDecision mistake_type.
Proof. solve_decision. Defined.

(** The dictionary built for each mistake. *)
Record mistake : Type := Mistake {
  word : pystr;
  correct : pystr;
  position : nat;
  type : mistake_type
}.

#[global] Instance mistake_eq_dec : EqDecision mistake.
Proof. solve_decision. Defined.

(** Comparisons of a similarity ratio with a literal threshold, [x > y] and
    [x < y].  They are taken on the exact quotient [2*M / L].  Rounding to a
    float is monotone and two quotients with denominators [L] and 10 or 20
    differ by at least [1 / (20 * L)] when they differ, so the program's
    float comparisons with [0.7] and [0.85] give the same answers for
    sequences of fewer than [2^48] elements in total. *)
Definition Qgtb (x y : Q) : bool := negb (Qle_bool x y).
Definition Qltb (x y : Q) : bool := negb (Qle_bool y x).

(** An exception: [type(e).__name__] and [str(e)]. *)
Record exn : Type := Exn { exn_type : pystr; exn_message : pystr }.

Definition DEBUG : bool := true.

Section program.
(** [str.lower] is a built-in of the language and is taken as a
    parameter. *)
Variable lower : pystr → pystr.

(** [phonemize(text, language=..., backend='espeak', ...)] of the external
    [phonemizer] package: the phoneme string, or the exception the call
    raises. *)
Variable phonemize : pystr → pystr → exn + pystr.

(** *** [get_reference_text] *)

(** The loop [for phrase in ...] with its [return phrase]: the first phrase
    whose word ratio is above [0.7], if there is one. *)
Fixpoint first_phrase (words : list pystr) (phrases : list pystr)
    : option pystr :=
  match phrases with
  | [] => None
  | phrase :: phrases' =>
      let phrase_words := split phrase in
      if Qgtb (ratio words phrase_words) (7 # 10)
      then Some phrase
      else first_phrase words phrases'
  end.

(** [get_reference_text(recognized_text, lang_code)] *)
Definition get_reference_text (recognized_text lang_code : pystr) : pystr :=
  let words := split (lower recognized_text) in
  match first_phrase words
          (dict_get COMMON_PHRASES lang_code
             (dict_get COMMON_PHRASES (py "en") [])) with
  | Some phrase => phrase
  | None => recognized_text
  end.

(** *** [detect_mistakes] *)

(** One iteration of the loop [for i in range(i1, i2)] of the [replace] and
    [delete] branch; the guard [if i < len(recognized_words)] is the lookup
    of [recognized_words[i]].  The state is [(mistakes, corrected_words)]. *)
Definition flag_incorrect (recognized_words reference_words : list pystr)
    (j1 : nat) (st : list mistake * list pystr) (i : nat)
    : list mistake * list pystr :=
  match recognized_words !! i with
  | Some w =>
      let m := Mistake w (default [] (reference_words !! j1)) i
                 incorrect_word in
      (st.1 ++ [m],
       st.2 ++ [if decide (correct m = []) then py "[silence]"
                else correct m])
  | None => st
  end.

(** One iteration of the loop of the [insert] branch; [recognized_words[i]]
    raises [IndexError] outside the list, which is the result [None]. *)
Definition flag_extra (recognized_words : list pystr)
    (st : option (list mistake * list pystr)) (i : nat)
    : option (list mistake * list pystr) :=
  st ← st;
  w ← recognized_words !! i;
  Some (st.1 ++ [Mistake w [] i extra_word], st.2).

(** The body of [for tag, i1, i2, j1, j2 in matcher.get_opcodes()]. *)
Definition classify_opcode (recognized_words reference_words : list pystr)
    (st : option (list mistake * list pystr)) (o : opcode)
    : option (list mistake * list pystr) :=
  st ← st;
  match op_tag o with
  | replace | delete =>
      Some (foldl (flag_incorrect recognized_words reference_words (op_j1 o))
              st (seq (op_i1 o) (op_i2 o - op_i1 o)))
  | insert =>
      foldl (flag_extra recognized_words) (Some st)
        (seq (op_i1 o) (op_i2 o - op_i1 o))
  | equal =>
      Some (st.1,
            st.2 ++ take (op_i2 o - op_i1 o) (drop (op_i1 o) recognized_words))
  end.

(** The loop over the opcodes, from empty [mistakes] and
    [corrected_words]. *)
Definition word_mistakes (recognized_words reference_words : list pystr)
    : option (list mistake * list pystr) :=
  foldl (classify_opcode recognized_words reference_words) (Some ([], []))
    (get_opcodes recognized_words reference_words).

(** [mistake["type"] = "pronunciation"] for every [incorrect_word]. *)
Definition escalate (m : mistake) : mistake :=
  if decide (type m = incorrect_word)
  then Mistake (word m) (correct m) (position m) pronunciation
  else m.

(** [lang_code in ['en', 'fr', 'de', 'nl', 'ko']] *)
Definition supported (lang_code : pystr) : bool :=
  bool_decide (lang_code ∈ [py "en"; py "fr"; py "de"; py "nl"; py "ko"]).

(** [debug_log(f"Phonemization failed: {str(e)}")]: the message handed to
    [debug_log], which prints it behind a clock prefix when [DEBUG] is
    set. *)
Definition phonemization_failed (e : exn) : list pystr :=
  if DEBUG then [py "Phonemization failed: " ++ exn_message e] else [].

(** The [if lang_code in [...]] block with its [try]: a failure of either
    [phonemize] call is caught, logged, and leaves the mistakes as they are.
    The result is the mistake list and the messages logged. *)
Definition pronunciation_pass (recognized_text reference_text lang_code : pystr)
    (mistakes : list mistake) : list mistake * list pystr :=
  if supported lang_code then
    match phonemize recognized_text lang_code with
    | inr recognized_phonemes =>
        match phonemize reference_text lang_code with
        | inr reference_phonemes =>
            if Qltb (ratio (split recognized_phonemes)
                       (split reference_phonemes)) (85 # 100)
            then (map escalate mistakes, [])
            else (mistakes, [])
        | inl e => (mistakes, phonemization_failed e)
        end
    | inl e => (mistakes, phonemization_failed e)
    end
  else (mistakes, []).

(** [detect_mistakes(recognized_text, reference_text, lang_code)]; [None]
    stands for an exception raised out of the function.  The messages
    logged are console output and are not part of the value returned. *)
Definition detect_mistakes (recognized_text reference_text lang_code : pystr)
    : option (list mistake * pystr) :=
  let recognized_words := split (lower recognized_text) in
  let reference_words := split (lower reference_text) in
  st ← word_mistakes recognized_words reference_words;
  Some ((pronunciation_pass recognized_text reference_text lang_code st.1).1,
        join (py " ") st.2).

(** *** [generate_feedback] *)

(** [LANGUAGE_TIPS.get(lang_code, LANGUAGE_TIPS['en'])] *)
Definition tips_for (lang_code : pystr) : list pystr :=
  dict_get LANGUAGE_TIPS lang_code (dict_get LANGUAGE_TIPS (py "en") []).

(** [f"{len(errors)}"] *)
Definition count_str (errors : list mistake) : pystr :=
  py (pretty (length errors)).

(** [generate_feedback(mistakes, lang_code)] *)
Definition generate_feedback (mistakes : list mistake) (lang_code : pystr)
    : list pystr :=
  if decide (mistakes = []) then
    [py "Excellent pronunciation! No mistakes detected."]
      ++ take 2 (tips_for lang_code)
  else
    let pronunciation_errors :=
      filter (λ m, type m = pronunciation) mistakes in
    let word_errors := filter (λ m, type m = incorrect_word) mistakes in
    let extra_words := filter (λ m, type m = extra_word) mistakes in
    (if decide (pronunciation_errors = []) then []
     else (py "Pronunciation issues (" ++ count_str pronunciation_errors
             ++ py "):")
          :: map (λ err, [8226%N] ++ py " '" ++ word err
                           ++ py "' sounded like " ++ word err
                           ++ py " instead of " ++ correct err)
               (take 3 pronunciation_errors))
    ++ (if decide (word_errors = []) then []
        else (py "Incorrect words (" ++ count_str word_errors ++ py "):")
             :: map (λ err,
                       if decide (correct err = [])
                       then [8226%N] ++ py " Unrecognized word: '"
                              ++ word err ++ py "'"
                       else [8226%N] ++ py " Used '" ++ word err
                              ++ py "' instead of '" ++ correct err
                              ++ py "'")
                  (take 3 word_errors))
    ++ (if decide (extra_words = []) then []
        else [py "Extra words detected (" ++ count_str extra_words
                ++ py ")"])
    ++ [[10%N] ++ py "Tips for improvement:"]
    ++ tips_for lang_code.

(** *** [calculate_score] *)

(** The weight of one mistake in the penalty sum. *)
Definition weight (m : mistake) : nat :=
  match type m with
  | pronunciation => 3
  | incorrect_word => 2
  | _ => 1
  end.

(** [penalty = sum(... for m in mistakes)] *)
Definition penalty (mistakes : list mistake) : nat :=
  sum_list (map weight mistakes).

(** [calculate_score(recognized_text, reference_text, mistakes)]; the score
    is kept as an exact rational. *)
Definition calculate_score (recognized_text reference_text : pystr)
    (mistakes : list mistake) : Q :=
  if decide (reference_text = []) then 0%Q
  else
    let similarity :=
      ratio (lower recognized_text) (lower reference_text) in
    let base_score := (similarity * 100)%Q in
    Qmax 0 (Qmin 100
              (base_score - inject_Z (Z.of_nat (min (penalty mistakes) 40)))).

End program.

(** *** [analyze_pronunciation] *)

(** JSON-serialisable values of the result dictionary. *)
#[local] Unset Elimination Schemes.
Inductive value : Type :=
  | VStr (s : pystr)
  | VInt (n : Z)
  | VNum (q : Q)
  | VList (l : list value)
  | VDict (d : list (pystr * value)).
#[local] Set Elimination Schemes.

(** What the debug entry reads from the converted audio. *)
Record audio : Type := Audio {
  duration_ms : Z;
  frame_rate : Z;
  channels : Z
}.

Definition type_name (t : mistake_type) : pystr :=
  match t with
  | incorrect_word => py "incorrect_word"
  | extra_word => py "extra_word"
  | pronunciation => py "pronunciation"
  end.

(** The mistake dictionary as a value of the result. *)
Definition mistake_value (m : mistake) : value :=
  VDict [(py "word", VStr (word m)); (py "correct", VStr (correct m));
         (py "position", VInt (Z.of_nat (position m)));
         (py "type", VStr (type_name (type m)))].

Section orchestrator.
Variable lower : pystr → pystr.
Variable phonemize : pystr → pystr → exn + pystr.

(** The [except Exception as e] handler; [timestamp] is
    [datetime.now().isoformat()] and [traceback] is
    [traceback.format_exc()]. *)
Definition error_info (e : exn) (timestamp traceback : pystr)
    : list (pystr * value) :=
  [(py "error", VStr (py "Analysis failed"));
   (py "message", VStr (exn_message e));
   (py "type", VStr (exn_type e));
   (py "timestamp", VStr timestamp)]
  ++ (if DEBUG then [(py "traceback", VStr traceback)] else []).

(** [analyze_pronunciation(audio_path, language)].  [upstream] is the
    outcome of [validate_audio], [convert_audio], [load_model] and
    [recognize_speech]: the exception one of them raised, or the converted
    audio and the recognized text. *)
Definition analyze_pronunciation (upstream : exn + audio * pystr)
    (timestamp traceback language : pystr) : list (pystr * value) :=
  match upstream with
  | inl e => error_info e timestamp traceback
  | inr (processed_audio, recognized_text) =>
      if decide (recognized_text = []) then
        [(py "error", VStr (py "No speech detected"));
         (py "debug",
          VDict [(py "duration_ms", VInt (duration_ms processed_audio));
                 (py "sample_rate", VInt (frame_rate processed_audio));
                 (py "channels", VInt (channels processed_audio))])]
      else
        let reference_text :=
          get_reference_text lower recognized_text language in
        match detect_mistakes lower phonemize recognized_text
                reference_text language with
        | None =>
            error_info (Exn (py "IndexError") (py "list index out of range"))
              timestamp traceback
        | Some (mistakes, corrected_text) =>
            let feedback := generate_feedback mistakes language in
            let score :=
              calculate_score lower recognized_text reference_text mistakes in
            [(py "original_text", VStr recognized_text);
             (py "reference_text", VStr reference_text);
             (py "corrected_text", VStr corrected_text);
             (py "mistakes", VList (map mistake_value mistakes));
             (py "feedback", VList (map VStr feedback));
             (py "score", VNum score);
             (py "language", VStr language)]
        end
  end.

End orchestrator.
End Speech.

(** ** Invariants and auxiliary notions used in the proofs *)

Module Invariants.
Import SequenceMatcher Speech.

(** *** Matcher *)

(** Every entry of a row dictionary lies in the column window and records a
    run no longer than the number [c] of rows scanned so far. *)
Definition row_ok (blo bhi c : nat) (m : gmap nat nat) : Prop :=
  ∀ j k, m !! j = Some k → blo ≤ j < bhi ∧ 1 ≤ k ≤ c ∧ k ≤ j + 1 - blo.

Definition best_ok (alo ahi blo bhi : nat) (best : Match) : Prop :=
  alo ≤ best.1.1 ∧ blo ≤ best.1.2 ∧
  best.1.1 + best.2 ≤ ahi ∧ best.1.2 + best.2 ≤ bhi.

(** The rectangle [a[i:i+k]] x [b[j:j+k]] covered by a block. *)
Definition rect_of (x : Match) : region :=
  (x.1.1, x.1.1 + x.2, x.1.2, x.1.2 + x.2).

(** [r] ends, in both sequences, before [s] starts. *)
Definition before (r s : region) : Prop :=
  r.1.1.2 ≤ s.1.1.1 ∧ r.2 ≤ s.1.2.

Definition apart (r s : region) : Prop := before r s ∨ before s r.

Definition inside (la lb : nat) (r : region) : Prop :=
  r.1.1.1 ≤ r.1.1.2 ≤ la ∧ r.1.2 ≤ r.2 ≤ lb.

(** [r] lies within [s]. *)
Definition within (r s : region) : Prop :=
  s.1.1.1 ≤ r.1.1.1 ∧ r.1.1.2 ≤ s.1.1.2 ∧ s.1.2 ≤ r.1.2 ∧ r.2 ≤ s.2.

(** The blocks of [bl], in order, start no earlier than [(i, j)] and each
    starts no earlier than its predecessor ends. *)
Fixpoint chain (i j : nat) (bl : list Match) : Prop :=
  match bl with
  | [] => True
  | x :: bl' => i ≤ x.1.1 ∧ j ≤ x.1.2 ∧ chain (x.1.1 + x.2) (x.1.2 + x.2) bl'
  end.

(** The position reached after the last block of [bl]. *)
Fixpoint end_pos (i j : nat) (bl : list Match) : nat * nat :=
  match bl with
  | [] => (i, j)
  | x :: bl' => end_pos (x.1.1 + x.2) (x.1.2 + x.2) bl'
  end.

Definition queue_measure (queue : list region) : nat :=
  sum_list (map (λ r : region, 2 * (r.1.1.2 - r.1.1.1) + 1) queue).

(** Invariant of the [while queue:] loop: the regions still to search and
    the blocks already found lie inside the two sequences and are pairwise
    apart. *)
Definition loop_inv (la lb : nat) queue acc : Prop :=
  Forall (inside la lb) (queue ++ map rect_of acc) ∧
  StronglySorted apart (queue ++ map rect_of acc).

Definition collapse_state_ok (la lb : nat) (st : Match * list Match)
    (rest : list Match) : Prop :=
  chain 0 0 (st.2 ++ [st.1]) ∧
  chain (st.1.1.1 + st.1.2) (st.1.1.2 + st.1.2) (rest ++ [(la, lb, 0)]).

(** The shape that [get_opcodes] gives to each tag. *)
Definition opcode_wf (o : opcode) : Prop :=
  match op_tag o with
  | replace => op_i1 o < op_i2 o ∧ op_j1 o < op_j2 o
  | delete => op_i1 o < op_i2 o ∧ op_j1 o = op_j2 o
  | insert => op_i1 o = op_i2 o ∧ op_j1 o < op_j2 o
  | equal => op_i1 o < op_i2 o ∧ op_j1 o < op_j2 o ∧
             op_i2 o - op_i1 o = op_j2 o - op_j1 o
  end.

(** Consecutive opcodes: the first starts at [(i, j)] and each one starts
    where its predecessor ends. *)
Fixpoint ops_chain (i j : nat) (ops : list opcode) : Prop :=
  match ops with
  | [] => True
  | o :: ops' =>
      op_i1 o = i ∧ op_j1 o = j ∧ opcode_wf o ∧
      ops_chain (op_i2 o) (op_j2 o) ops'
  end.

Fixpoint ops_end (i j : nat) (ops : list opcode) : nat * nat :=
  match ops with
  | [] => (i, j)
  | o :: ops' => ops_end (op_i2 o) (op_j2 o) ops'
  end.

(** The positions of [a] and of [b] spanned by an opcode. *)
Definition span_a (o : opcode) : list nat := seq (op_i1 o) (op_i2 o - op_i1 o).

Definition span_b (o : opcode) : list nat := seq (op_j1 o) (op_j2 o - op_j1 o).

(** The opcodes appended by one iteration of the loop of [get_opcodes]. *)
Definition step_ops (i j : nat) (x : Match) : list opcode :=
  (if decide (i < x.1.1 ∧ j < x.1.2) then [Opcode replace i x.1.1 j x.1.2]
   else if decide (i < x.1.1) then [Opcode delete i x.1.1 j x.1.2]
   else if decide (j < x.1.2) then [Opcode insert i x.1.1 j x.1.2]
   else []) ++
  (if decide (x.2 = 0) then []
   else [Opcode equal x.1.1 (x.1.1 + x.2) x.1.2 (x.1.2 + x.2)]).

(** Later opcodes start no earlier in either sequence, and strictly later in
    at least one of them. *)
Definition starts_increase (o o' : opcode) : Prop :=
  op_i1 o ≤ op_i1 o' ∧ op_j1 o ≤ op_j1 o' ∧
  op_i1 o + op_j1 o < op_i1 o' + op_j1 o'.

(** [j2lenget(j-1, 0)] *)
Definition prev_len (j2len : gmap nat nat) (j : nat) : nat :=
  match j with 0 => 0 | S j' => default 0 (j2len !! j') end.

(** One iteration of the inner loop of [find_longest_match] when [j] lies in
    the column window. *)
Definition row_step (i : nat) (j2len : gmap nat nat)
    (st : gmap nat nat * Match) (j : nat) : gmap nat nat * Match :=
  (<[j := prev_len j2len j + 1]> st.1,
   if decide (st.2.2 < prev_len j2len j + 1)
   then (i + 1 - (prev_len j2len j + 1), j + 1 - (prev_len j2len j + 1),
         prev_len j2len j + 1)
   else st.2).

Section index_defs.
Context {T : Type} `{Countable T}.

(** The increasing list of the positions of [x] in [b]. *)
Definition positions (x : T) (b : list T) : list nat :=
  filter (λ j, b !! j = Some x) (seq 0 (length b)).

Variables (autojunk : bool) (s : list T).

(** Length of the longest run of equal, indexed elements that ends just
    before positions [i] and [j] of [s]: the value the inner loop stores in
    [j2len] for row [i - 1] and column [j - 1]. *)
Fixpoint run (i j : nat) : nat :=
  match i, j with
  | S i', S j' =>
      if decide (j' ∈ b2j_get (chain_b autojunk s) s i')
      then run i' j' + 1 else 0
  | _, _ => 0
  end.

(** State of the outer loop before row [i]. *)
Definition diag_inv (i : nat) (st : gmap nat nat * Match) : Prop :=
  (∀ j, prev_len st.1 j = run i j) ∧
  st.2.1.1 = st.2.1.2 ∧
  (∀ i' j, i' ≤ i → run i' j ≤ st.2.2).

End index_defs.

(** *** Program *)

Definition nospace (w : pystr) : Prop := Forall (λ c, isspace c = false) w.

(** A word as [str.split()] produces them: non-empty and free of
    whitespace. *)
Definition wordlike (w : pystr) : Prop := w ≠ [] ∧ nospace w.

(** The phrase exceeds the selection threshold for the recognized words. *)
Definition exceeds (words : list pystr) (phrase : pystr) : Prop :=
  (7 # 10 < ratio words (split phrase))%Q.

Section word_pass_defs.
Variables recognized_words reference_words : list pystr.

(** After the opcodes up to position [n] of the recognized words: one
    corrected word per recognized word, and only [incorrect_word]
    mistakes. *)
Definition pass_ok (n : nat) (st : list mistake * list pystr) : Prop :=
  length st.2 = n ∧ Forall wordlike st.2 ∧
  Forall (λ m, type m = incorrect_word) st.1 ∧
  (∀ k w, st.2 !! k = Some w →
     w = py "[silence]" ∨ w ∈ reference_words ∨
     recognized_words !! k = Some w).

End word_pass_defs.

(** *** Statements of the specification *)

(** The reading of C7 as it is stated: the starts [i1] and the starts [j1]
    both increase strictly along the opcode list. *)
Definition starts_strictly_increase (ops : list opcode) : Prop :=
  StronglySorted (λ o o', op_i1 o < op_i1 o' ∧ op_j1 o < op_j1 o') ops.

(** The score as the specification words it: the weights of the three
    mistake types, the penalty capped at 40, and the clamp to [[0, 100]]. *)
Definition spec_weight (t : mistake_type) : nat :=
  match t with
  | pronunciation => 3
  | incorrect_word => 2
  | extra_word => 1
  end.

Definition clamp (x lo hi : Q) : Q := Qmax lo (Qmin hi x).

(** The formula of the score over a similarity [ratio] of character
    sequences. *)
Definition score_formula (ratio : pystr → pystr → Q) (lower : pystr → pystr)
    (recognized_text reference_text : pystr) (mistakes : list mistake) : Q :=
  let base := (100 * ratio (lower recognized_text) (lower reference_text))%Q in
  let penalty := sum_list (map (λ m, spec_weight (type m)) mistakes) in
  clamp (base - inject_Z (Z.of_nat (min penalty 40))) 0 100.

(** The score of the specification: the formula over the ratio of section
    4.1, whose search for common runs looks at every element of the two
    sequences, that is the matcher without the popularity heuristic. *)
Definition spec_score (lower : pystr → pystr)
    (recognized_text reference_text : pystr) (mistakes : list mistake) : Q :=
  score_formula (SequenceMatcher.ratio false) lower recognized_text
    reference_text mistakes.

(** A reference of 200 characters, one ["y"] before 199 times ["x"]. *)
Definition long_reference : pystr := [121%N] ++ replicate 199 120%N.

(** The token [detect_mistakes] writes for a recognized word of a [replace]
    or [delete] span that starts at [j1] in the reference: the reference
    word at [j1], or the placeholder when there is none. *)
Definition replacement (reference_words : list pystr) (j1 : nat) : pystr :=
  match reference_words !! j1 with
  | Some r => r
  | None => py "[silence]"
  end.

(** What an opcode contributes to the corrected words: under [equal] each
    recognized word of the span itself, under [replace] and [delete] the
    replacement for each recognized word of the span, under [insert]
    nothing, its span of recognized words being empty. *)
Definition token_ok (recognized_words reference_words corrected_words
    : list pystr) (o : opcode) : Prop :=
  match op_tag o with
  | equal =>
      ∀ k, op_i1 o ≤ k < op_i2 o →
           ∃ w, recognized_words !! k = Some w ∧
                corrected_words !! k = Some w
  | insert => op_i1 o = op_i2 o
  | replace | delete =>
      ∀ k, op_i1 o ≤ k < op_i2 o →
           corrected_words !! k
           = Some (replacement reference_words (op_j1 o))
  end.

(** Two texts of 230 words each.  They share ten runs of twenty distinct
    two-letter words, separated by single words that differ; the recognized
    text starts, and the reference text ends, with 21 times the word
    ["x"]. *)
Definition two_letters (n : nat) : pystr :=
  [N.of_nat (97 + n / 26); N.of_nat (97 + n mod 26)].

Definition run_of_words (i : nat) : list pystr :=
  map two_letters (seq (20 * i) 20).

Definition runs_between (separator : nat → pystr) : list pystr :=
  run_of_words 0
    ++ concat (map (λ i, separator i :: run_of_words i) (seq 1 9)).

Definition shifted_recognized_text : pystr :=
  join (py " ")
    (replicate 21 (py "x") ++ runs_between (λ i, two_letters (200 + i))).

Definition shifted_reference_text : pystr :=
  join (py " ")
    (runs_between (λ i, two_letters (209 + i)) ++ replicate 21 (py "x")).

(** A phonemizer whose every call raises, and one that returns the text it
    is given as its phoneme string. *)
Definition failing_phonemizer (text language : pystr) : exn + pystr :=
  inl (Exn (py "RuntimeError") (py "espeak missing")).

Definition echo_phonemizer (text language : pystr) : exn + pystr := inr text.

Definition praise_line : pystr :=
  py "Excellent pronunciation! No mistakes detected.".

(** Decides a closed decidable proposition by evaluation. *)
Ltac decide_closed := apply (bool_decide_unpack _); vm_compute; exact I.

(** The field names of a result dictionary, in order. *)
Definition keys (result : list (pystr * value)) : list pystr := map fst result.

Definition success_keys : list pystr :=
  [py "original_text"; py "reference_text"; py "corrected_text";
   py "mistakes"; py "feedback"; py "score"; py "language"].

End Invariants.

(** ** The audio and recognition layer of speech_to_text.py *)

Module Frontend.
Import Speech.

Definition MIN_AUDIO_LENGTH_MS : Z := 500.
Definition SAMPLE_RATE : Z := 16000.

Definition SUPPORTED_LANGUAGES : list (pystr * pystr) := [
  (py "en", py "en-us");
  (py "fr", py "fr");
  (py "de", py "de");
  (py "nl", py "nl");
  (py "ko", py "ko")
].

(** [k in d] on a dictionary literal. *)
Definition dict_in {V : Type} (d : list (pystr * V)) (k : pystr) : bool :=
  bool_decide (k ∈ map fst d).

(** [d[k]] on a dictionary literal; [None] stands for [KeyError]. *)
Fixpoint dict_item {V : Type} (d : list (pystr * V)) (k : pystr) : option V :=
  match d with
  | [] => None
  | (k', v) :: d' => if decide (k' = k) then Some v else dict_item d' k
  end.

(** [s.lstrip()], [s.rstrip()] and [s.strip()]: the whitespace of
    [str.isspace] is removed from the ends. *)
Fixpoint lstrip (s : pystr) : pystr :=
  match s with
  | [] => []
  | c :: s' => if isspace c then lstrip s' else s
  end.

Definition rstrip (s : pystr) : pystr := reverse (lstrip (reverse s)).

Definition strip (s : pystr) : pystr := rstrip (lstrip s).

(** Sequencing of calls that may raise: the first exception ends the
    sequence. *)
#[global] Instance raise_bind : MBind (sum exn) := λ A B k r,
  match r with
  | inl e => inl e
  | inr x => k x
  end.

(** [try: ... except Exception as e: raise ValueError(f"{prefix}{str(e)}")] *)
Definition reraise {A : Type} (prefix : pystr) (r : exn + A) : exn + A :=
  match r with
  | inl e => inl (Exn (py "ValueError") (prefix ++ exn_message e))
  | inr x => inr x
  end.

(** *** [recognize_speech]: the text returned *)

(** The list [results] after the recognition loop.  [partials] holds, for
    each chunk the recognizer accepted, the entry ['text'] of the result it
    reported, if there is one ([result.get('text', '')]); [final] is the
    entry ['text'] of the final result, which is appended when it is
    non-empty. *)
Definition collected (partials : list (option pystr)) (final : option pystr)
    : list pystr :=
  map (default []) partials
    ++ (if decide (default [] final = []) then [] else [default [] final]).

(** [recognized_text = " ".join(results).strip()] *)
Definition recognized_text_of (partials : list (option pystr))
    (final : option pystr) : pystr :=
  strip (join (py " ") (collected partials final)).

Section frontend.
(** The file system and the external packages are taken as parameters:
    [os.path.exists] and [os.path.join], [AudioSegment.from_file],
    [set_channels] and [set_frame_rate] of [pydub], the constructor [Model]
    of [vosk], each with the exception it may raise. *)
Variable path_exists : pystr → bool.
Variable path_join : pystr → list pystr → pystr.
Variable from_file : pystr → exn + audio.
Variable set_channels : audio → Z → exn + audio.
Variable set_frame_rate : audio → Z → exn + audio.
Context {model : Type}.
Variable Model : pystr → exn + model.

(** [validate_audio(audio_path)]: the [ValueError] raised for a short
    recording is raised inside the [try] block, so the handler wraps it like
    any other exception. *)
Definition validate_audio (audio_path : pystr) : exn + audio :=
  if negb (path_exists audio_path) then
    inl (Exn (py "FileNotFoundError")
           (py "Audio file not found: " ++ audio_path))
  else
    reraise (py "Audio validation failed: ")
      (audio ← from_file audio_path;
       if (duration_ms audio <? MIN_AUDIO_LENGTH_MS)%Z then
         inl (Exn (py "ValueError")
                (py "Audio too short (minimum "
                   ++ py (pretty MIN_AUDIO_LENGTH_MS) ++ py "ms required)"))
       else inr audio).

(** [convert_audio(audio)] *)
Definition convert_audio (audio : Speech.audio) : exn + Speech.audio :=
  reraise (py "Audio conversion failed: ")
    (mono ← set_channels audio 1;
     set_frame_rate mono SAMPLE_RATE).

(** [load_model(language)]; the lookup [SUPPORTED_LANGUAGES[lang_code]]
    raises [KeyError] on a missing key. *)
Definition load_model (language : pystr) : exn + model :=
  let lang_code :=
    if dict_in SUPPORTED_LANGUAGES language then language else py "en" in
  match dict_item SUPPORTED_LANGUAGES lang_code with
  | None => inl (Exn (py "KeyError") (py "'" ++ lang_code ++ py "'"))
  | Some model_dir =>
      let model_path := path_join (py "vosk_models") [model_dir] in
      if negb (path_exists model_path) then
        inl (Exn (py "ValueError")
               (py "Model directory not found: " ++ model_path))
      else if negb (path_exists
                      (path_join model_path [py "am"; py "final.mdl"])) then
        inl (Exn (py "ValueError") (py "Model files are incomplete"))
      else reraise (py "Model loading failed: ") (Model model_path)
  end.

(** [recognize_speech(processed_audio, model)] as a whole runs the external
    recognizer on a temporary file and is taken as a parameter. *)
Variable recognize_speech : audio → model → exn + pystr.

(** The four calls that open the [try] block of [analyze_pronunciation]. *)
Definition upstream (audio_path language : pystr) : exn + audio * pystr :=
  audio ← validate_audio audio_path;
  processed_audio ← convert_audio audio;
  model ← load_model language;
  recognized_text ← recognize_speech processed_audio model;
  inr (processed_audio, recognized_text).

Variable lower : pystr → pystr.
Variable phonemize : pystr → pystr → exn + pystr.

(** [analyze_pronunciation(audio_path, language)] from the path of the
    recording. *)
Definition analyze_pronunciation (audio_path language : pystr)
    (timestamp traceback : pystr) : list (pystr * value) :=
  Speech.analyze_pronunciation lower phonemize (upstream audio_path language)
    timestamp traceback language.

End frontend.
End Frontend.

(** ** Further invariants and auxiliary notions *)

Module Notions.
Import SequenceMatcher Speech Invariants Frontend.

Section match_defs.
Context {T : Type}.

(** The block denotes equal segments: [a[i:i+k] == b[j:j+k]], position by
    position. *)
Definition is_match (a b : list T) (x : Match) : Prop :=
  ∀ d, d < x.2 → ∃ v, a !! (x.1.1 + d) = Some v ∧ b !! (x.1.2 + d) = Some v.

(** A run of [k] equal elements ends at position [i] of [a] and [j] of
    [b]: what an entry [j ↦ k] of the row dictionary of row [i] stands
    for. *)
Definition ends_match (a b : list T) (i j k : nat) : Prop :=
  k ≤ S i ∧ k ≤ S j ∧
  ∀ d, d < k → ∃ v, a !! (i - d) = Some v ∧ b !! (j - d) = Some v.

(** Every position listed for an element in the index holds that element. *)
Definition b2j_sound `{Countable T} (b2j : gmap T (list nat)) (b : list T)
    : Prop :=
  ∀ x js j, b2j !! x = Some js → j ∈ js → b !! j = Some x.

(** State of the outer loop of [find_longest_match] before row [i]. *)
Definition rows_sound (a b : list T) (i : nat) (st : gmap nat nat * Match)
    : Prop :=
  (∀ j k, st.1 !! j = Some k → ∃ i', i = S i' ∧ ends_match a b i' j k) ∧
  is_match a b st.2.

(** An [equal] opcode spans equal segments. *)
Definition equal_sound (a b : list T) (o : opcode) : Prop :=
  op_tag o = equal →
  ∀ d, d < op_i2 o - op_i1 o →
       ∃ v, a !! (op_i1 o + d) = Some v ∧ b !! (op_j1 o + d) = Some v.

End match_defs.

(** [sum(triple[-1] for triple in blocks)] *)
Definition total_size (bl : list Match) : nat :=
  sum_list (map (λ triple : Match, triple.2) bl).

(** *** The word-level pass, position by position *)

(** The word [detect_mistakes] writes into [corrected_words] for a
    mistake: [mistake["correct"] if mistake["correct"] else "[silence]"]. *)
Definition correction (m : mistake) : pystr :=
  if decide (correct m = []) then py "[silence]" else correct m.

Section exact_defs.
Variables recognized_words reference_words : list pystr.

(** A mistake records the recognized word at its position, a correction
    taken from the reference words, and the corrected words carry that
    correction at the same position. *)
Definition mistake_ok (corrected_words : list pystr) (m : mistake) : Prop :=
  recognized_words !! position m = Some (word m) ∧
  (correct m = [] ∨ correct m ∈ reference_words) ∧
  corrected_words !! position m = Some (correction m).

(** After the opcodes up to position [n] of the recognized words. *)
Definition pass_exact (n : nat) (st : list mistake * list pystr) : Prop :=
  length st.2 = n ∧ length st.1 ≤ n ∧
  Forall (λ m, position m < n ∧ mistake_ok st.2 m) st.1 ∧
  StronglySorted lt (map position st.1) ∧
  (∀ k, k ∉ map position st.1 → k < n → st.2 !! k = recognized_words !! k) ∧
  Forall (λ w, w = py "[silence]" ∨ w ∈ reference_words) st.2.

End exact_defs.

(** The mistakes are told apart by their fields other than the type. *)
Definition same_fields (m m' : mistake) : Prop :=
  word m = word m' ∧ correct m = correct m' ∧ position m = position m'.

(** *** Feedback lines *)

(** The example line of a pronunciation issue. *)
Definition pronunciation_line (err : mistake) : pystr :=
  [8226%N] ++ py " '" ++ word err ++ py "' sounded like " ++ word err
    ++ py " instead of " ++ correct err.

(** The example line of an incorrect word. *)
Definition word_line (err : mistake) : pystr :=
  if decide (correct err = [])
  then [8226%N] ++ py " Unrecognized word: '" ++ word err ++ py "'"
  else [8226%N] ++ py " Used '" ++ word err ++ py "' instead of '"
         ++ correct err ++ py "'".

Definition tips_header : pystr := [10%N] ++ py "Tips for improvement:".

(** Whitespace only. *)
Definition blank (s : pystr) : Prop := Forall (λ c, isspace c = true) s.

(** A directory tree in which the recording and every model are present,
    a decoder that returns a recording of the given length, and models and
    conversions that always succeed. *)
Definition sample_audio (ms : Z) : audio := Audio ms 44100 2.

Definition any_path (path : pystr) : bool := true.

Definition slash_join (path : pystr) (parts : list pystr) : pystr :=
  join (py "/") (path :: parts).

Definition decoder (ms : Z) (path : pystr) : exn + audio :=
  inr (sample_audio ms).

Definition to_channels (a : audio) (n : Z) : exn + audio :=
  inr (Audio (duration_ms a) (frame_rate a) n).

Definition to_frame_rate (a : audio) (r : Z) : exn + audio :=
  inr (Audio (duration_ms a) r (channels a)).

Definition load_dir (path : pystr) : exn + pystr := inr path.

Definition hears (text : pystr) (a : audio) (m : pystr) : exn + pystr :=
  inr text.

End Notions.

(** ** Properties of the matcher *)

Module MatcherFacts.
Import SequenceMatcher Invariants.

(** *** The block of [find_longest_match] lies in its region *)

Section bounds.
Context {T : Type} `{Countable T}.
Implicit Types (a b : list T) (b2j : gmap T (list nat)).
Implicit Types (j2len newj2len : gmap nat nat) (best : Match).

Lemma row_ok_empty blo bhi c : row_ok blo bhi c ∅.
Proof. intros j k Hjk. by rewrite lookup_empty in Hjk. Qed.

Lemma prev_run_bound blo bhi c j2len j :
  row_ok blo bhi c j2len → blo ≤ j →
  match j with 0 => 0 | S j' => default 0 (j2len !! j') end ≤ c ∧
  match j with 0 => 0 | S j' => default 0 (j2len !! j') end ≤ j - blo.
Proof.
  intros Hrow Hj. destruct j as [|j']; [simpl; lia|].
  destruct (j2len !! j') as [k|] eqn:Hk; simpl; [|lia].
  apply Hrow in Hk. lia.
Qed.

Lemma scan_row_ok alo ahi blo bhi i j2len js newj2len best :
  alo ≤ i < ahi →
  row_ok blo bhi (i - alo) j2len →
  row_ok blo bhi (i + 1 - alo) newj2len →
  best_ok alo ahi blo bhi best →
  row_ok blo bhi (i + 1 - alo) (scan_row i blo bhi j2len js newj2len best).1 ∧
  best_ok alo ahi blo bhi (scan_row i blo bhi j2len js newj2len best).2.
Proof.
  intros Hi Hold. revert newj2len best.
  induction js as [|j js IH]; intros newj2len best Hnew Hbest; simpl; [done|].
  destruct (decide (j < blo)) as [|Hlo]; [by apply IH|].
  destruct (decide (bhi ≤ j)) as [|Hhi]; [done|].
  destruct (prev_run_bound blo bhi (i - alo) j2len j Hold) as [Hc Hd]; [lia|].
  set (p := match j with 0 => 0 | S j' => default 0 (j2len !! j') end) in *.
  assert (Hk : 1 ≤ p + 1 ≤ i + 1 - alo ∧ p + 1 ≤ j + 1 - blo) by lia.
  apply IH.
  - intros j0 k0. rewrite lookup_insert.
    case_decide as Hj0; [|by apply Hnew].
    intros [= <-]. subst j0. lia.
  - case_decide; [|done]. unfold best_ok; simpl. lia.
Qed.

Lemma scan_rows_from_ok a b2j alo ahi blo bhi n i st :
  alo ≤ i → i + n ≤ ahi →
  row_ok blo bhi (i - alo) st.1 →
  best_ok alo ahi blo bhi st.2 →
  best_ok alo ahi blo bhi
    (foldl (λ st i, scan_row i blo bhi st.1 (b2j_get b2j a i) ∅ st.2)
       st (seq i n)).2.
Proof.
  revert i st. induction n as [|n IH]; intros i st Hi Hn Hrow Hbest; [done|].
  simpl. 
  destruct (scan_row_ok alo ahi blo bhi i st.1 (b2j_get b2j a i) ∅ st.2)
    as [Hrow' Hbest']; [lia|done|apply row_ok_empty|done|].
  apply IH; [lia|lia| |done].
  by replace (S i - alo) with (i + 1 - alo) by lia.
Qed.

Lemma scan_rows_ok a b2j alo ahi blo bhi :
  alo ≤ ahi → blo ≤ bhi →
  best_ok alo ahi blo bhi (scan_rows a b2j alo ahi blo bhi).2.
Proof.
  intros Ha Hb. unfold scan_rows.
  apply scan_rows_from_ok; simpl; [lia|lia|apply row_ok_empty|].
  unfold best_ok; simpl; lia.
Qed.

Lemma extend_left_ok a b alo ahi blo bhi besti bestj bestsize :
  best_ok alo ahi blo bhi (besti, bestj, bestsize) →
  best_ok alo ahi blo bhi (extend_left a b alo blo besti bestj bestsize).
Proof.
  revert bestj bestsize.
  induction besti as [|i' IH]; intros bestj bestsize Hok; [done|].
  destruct bestj as [|j']; [done|]. simpl.
  destruct (bool_decide _ && _) eqn:Hc; [|done].
  apply andb_prop in Hc as [Hc _]. apply bool_decide_eq_true in Hc.
  apply IH. unfold best_ok in *; simpl in *. lia.
Qed.

Lemma extend_right_ok a b ahi bhi besti bestj bestsize n :
  besti + bestsize ≤ ahi → bestj + bestsize ≤ bhi →
  let k := extend_right a b ahi bhi besti bestj bestsize n in
  bestsize ≤ k ∧ besti + k ≤ ahi ∧ bestj + k ≤ bhi.
Proof.
  revert bestsize. induction n as [|n IH]; intros bestsize Hi Hj; simpl; [lia|].
  destruct (bool_decide _ && _) eqn:Hc; [|lia].
  apply andb_prop in Hc as [Hc _]. apply bool_decide_eq_true in Hc.
  specialize (IH (bestsize + 1)). simpl in IH. lia.
Qed.

(** The block returned by [find_longest_match] lies inside the region it
    was asked to search. *)
Lemma find_longest_match_ok a b b2j alo ahi blo bhi :
  alo ≤ ahi → blo ≤ bhi →
  best_ok alo ahi blo bhi (find_longest_match a b b2j alo ahi blo bhi).
Proof.
  intros Ha Hb. unfold find_longest_match.
  pose proof (scan_rows_ok a b2j alo ahi blo bhi Ha Hb) as H1.
  destruct (scan_rows a b2j alo ahi blo bhi).2 as [[bi bj] bs].
  apply (extend_left_ok a b) in H1.
  destruct (extend_left a b alo blo bi bj bs) as [[bi' bj'] bs'].
  destruct H1 as (Hi & Hj & Hik & Hjk); simpl in *.
  pose proof (extend_right_ok a b ahi bhi bi' bj' bs' (ahi - (bi' + bs')))
    as Hr.
  simpl in Hr. unfold best_ok; simpl. lia.
Qed.

End bounds.

(** *** The work list of [get_matching_blocks] *)

Lemma queue_measure_cons r queue :
  queue_measure (r :: queue) = 2 * (r.1.1.2 - r.1.1.1) + 1 + queue_measure queue.
Proof. reflexivity. Qed.

#[global] Instance apart_sym : Symmetric apart.
Proof. intros r s [Hrs|Hsr]; [by right|by left]. Qed.

#[global] Instance Match_le_trans : Transitive Match_le.
Proof. intros [[??]?] [[??]?] [[??]?]; unfold Match_le; simpl; lia. Qed.

#[global] Instance Match_le_total : Total Match_le.
Proof. intros [[??]?] [[??]?]; unfold Match_le; simpl; lia. Qed.

Lemma StronglySorted_sym_perm {A} (R : relation A) `{!Symmetric R} l1 l2 :
  l1 ≡ₚ l2 → StronglySorted R l1 → StronglySorted R l2.
Proof.
  induction 1 as [|x l1 l2 Hp IH|x y l|l1 l2 l3 _ IH1 _ IH2]; [done|..].
  - rewrite !StronglySorted_cons. intros [Hx Hl]. split; [|by apply IH].
    by rewrite <-Hp.
  - rewrite !StronglySorted_cons, !Forall_cons.
    intros [[Hyx Hy] [Hx Hl]]. repeat split; done.
  - auto.
Qed.

Lemma Forall_sublist_of {A} (P : A → Prop) (l1 l2 : list A) :
  sublist l1 l2 → Forall P l2 → Forall P l1.
Proof.
  rewrite !Forall_forall. intros Hsub HP x Hx.
  apply HP. by eapply elem_of_sublist.
Qed.

Lemma StronglySorted_sublist_of {A} (R : relation A) (l1 l2 : list A) :
  sublist l1 l2 → StronglySorted R l2 → StronglySorted R l1.
Proof.
  induction 1 as [|x l1 l2 Hsub IH|x l1 l2 Hsub IH]; [done|..].
  - rewrite !StronglySorted_cons. intros [Hx Hl]. split; [|by apply IH].
    by eapply Forall_sublist_of.
  - rewrite StronglySorted_cons. intros [_ Hl]. by apply IH.
Qed.

Lemma apart_within r s t : within r s → apart s t → apart r t.
Proof.
  destruct r as [[[??]?]?], s as [[[??]?]?], t as [[[??]?]?].
  unfold within, apart, before; simpl. lia.
Qed.

Lemma chain_app i j l1 l2 :
  chain i j (l1 ++ l2) ↔
  chain i j l1 ∧ chain (end_pos i j l1).1 (end_pos i j l1).2 l2.
Proof.
  revert i j. induction l1 as [|x l1 IH]; intros i j; simpl; [tauto|].
  rewrite IH. tauto.
Qed.

Lemma end_pos_app i j l1 l2 :
  end_pos i j (l1 ++ l2) = end_pos (end_pos i j l1).1 (end_pos i j l1).2 l2.
Proof.
  revert i j. induction l1 as [|x l1 IH]; intros i j; simpl; [done|].
  apply IH.
Qed.

Lemma chain_mono i j i' j' bl :
  i' ≤ i → j' ≤ j → chain i j bl → chain i' j' bl.
Proof.
  destruct bl as [|x bl]; simpl; [done|].
  intros Hi Hj (Hx & Hy & Hc). repeat split; [lia|lia|done].
Qed.

Section worklist.
Context {T : Type} `{Countable T}.
Variable autojunk : bool.
Implicit Types (a b : list T) (b2j : gmap T (list nat)).
Implicit Types (queue : list region) (acc bl : list Match).

Lemma loop_inv_init la lb : loop_inv la lb [(0, la, 0, lb)] [].
Proof.
  split; simpl.
  - constructor; [|done]. unfold inside; simpl; lia.
  - repeat constructor.
Qed.

Lemma loop_inv_step a b b2j la lb alo ahi blo bhi queue acc :
  loop_inv la lb ((alo, ahi, blo, bhi) :: queue) acc →
  let x := find_longest_match a b b2j alo ahi blo bhi in
  let q1 := if decide (alo < x.1.1 ∧ blo < x.1.2)
            then (alo, x.1.1, blo, x.1.2) :: queue else queue in
  let q2 := if decide (x.1.1 + x.2 < ahi ∧ x.1.2 + x.2 < bhi)
            then (x.1.1 + x.2, ahi, x.1.2 + x.2, bhi) :: q1 else q1 in
  loop_inv la lb queue acc ∧
  loop_inv la lb q2 (acc ++ [x]) ∧
  (x.2 ≠ 0 → queue_measure q2 < queue_measure ((alo, ahi, blo, bhi) :: queue)).
Proof.
  intros [Hin Hap]. simpl in Hin, Hap.
  apply Forall_cons in Hin as [HR Hin].
  apply StronglySorted_cons in Hap as [HRap Hap].
  assert (Hok : best_ok alo ahi blo bhi
                  (find_longest_match a b b2j alo ahi blo bhi)).
  { apply find_longest_match_ok; unfold inside in HR; simpl in HR; lia. }
  destruct (find_longest_match a b b2j alo ahi blo bhi) as [[i j] k].
  unfold best_ok in Hok; simpl in Hok. unfold inside in HR; simpl in HR.
  simpl. split; [done|].
  set (left := (alo, i, blo, j) : region).
  set (right := (i + k, ahi, j + k, bhi) : region).
  set (blk := rect_of (i, j, k)).
  set (R := (alo, ahi, blo, bhi) : region) in *.
  assert (Hw : Forall (λ s, within s R) [right; left; blk]).
  { repeat constructor; unfold within; simpl; lia. }
  assert (Hi3 : Forall (inside la lb) [right; left; blk]).
  { repeat constructor; unfold inside; simpl; lia. }
  assert (Hs3 : StronglySorted apart [right; left; blk]).
  { repeat constructor; unfold apart, before; simpl; lia. }
  assert (Hgen : ∀ subs, sublist subs [right; left] →
            loop_inv la lb (subs ++ queue) (acc ++ [(i, j, k)])).
  { intros subs Hsub.
    assert (Hperm : (subs ++ [blk]) ++ queue ++ map rect_of acc
              ≡ₚ (subs ++ queue) ++ map rect_of (acc ++ [(i, j, k)])).
    { rewrite map_app. simpl. fold blk. solve_Permutation. }
    assert (Hsub3 : sublist (subs ++ [blk]) [right; left; blk]).
    { by apply (sublist_app _ [right; left] [blk] [blk]). }
    split.
    - rewrite <-Hperm. apply Forall_app. split; [|done].
      by eapply Forall_sublist_of.
    - eapply (StronglySorted_sym_perm apart); [exact Hperm|].
      apply StronglySorted_app_2.
      + intros s t Hs Ht.
        apply (apart_within s R t).
        * rewrite Forall_forall in Hw. apply Hw. by eapply elem_of_sublist.
        * rewrite Forall_forall in HRap. by apply HRap.
      + clear -Hs3 Hsub3. by eapply StronglySorted_sublist_of.
      + done. }
  split.
  - repeat case_decide;
      [ apply (Hgen [right; left]) | apply (Hgen [right])
      | apply (Hgen [left]) | apply (Hgen []) ];
      repeat constructor.
  - intros Hk. unfold queue_measure. repeat case_decide; simpl; lia.
Qed.

Lemma mb_loop_inv a b b2j la lb fuel queue acc :
  loop_inv la lb queue acc →
  queue_measure queue ≤ fuel →
  ∃ bl, mb_loop a b b2j fuel queue acc = Some bl ∧ loop_inv la lb [] bl.
Proof.
  revert queue acc.
  induction fuel as [|fuel IH]; intros queue acc Hinv Hfuel.
  - destruct queue as [|[[[alo ahi] blo] bhi] queue]; [by exists acc|].
    exfalso. rewrite queue_measure_cons in Hfuel. lia.
  - destruct queue as [|[[[alo ahi] blo] bhi] queue]; [by exists acc|].
    pose proof (loop_inv_step a b b2j la lb alo ahi blo bhi queue acc Hinv)
      as (Hskip & Hpush & Hlt).
    simpl.
    destruct (find_longest_match a b b2j alo ahi blo bhi) as [[i j] k].
    simpl in Hpush, Hlt.
    destruct (decide (k = 0)) as [->|Hk].
    + apply IH; [done|].
      rewrite queue_measure_cons in Hfuel. simpl in Hfuel. lia.
    + apply IH; [done|]. specialize (Hlt Hk).
      apply Nat.lt_succ_r. eapply Nat.lt_le_trans; [exact Hlt|exact Hfuel].
Qed.

(** The work-list loop of [get_matching_blocks] ends within the
    [2 * len(a) + 1] iterations granted by [found_blocks]. *)
Lemma mb_loop_terminates a b :
  ∃ bl, mb_loop a b (chain_b autojunk b) (2 * length a + 1)
          [(0, length a, 0, length b)] [] = Some bl ∧
        found_blocks autojunk a b = bl ∧
        loop_inv (length a) (length b) [] bl.
Proof.
  destruct (mb_loop_inv a b (chain_b autojunk b) (length a) (length b)
              (2 * length a + 1) [(0, length a, 0, length b)] [])
    as (bl & Hbl & Hinv).
  - apply loop_inv_init.
  - unfold queue_measure; simpl; lia.
  - exists bl. unfold found_blocks. by rewrite Hbl.
Qed.

(** Sorting pairwise-apart blocks lexicographically lines them up. *)
Lemma sorted_apart_chain la lb bl i j :
  StronglySorted Match_le bl →
  StronglySorted apart (map rect_of bl) →
  Forall (inside la lb) (map rect_of bl) →
  Forall (λ x : Match, i ≤ x.1.1 ∧ j ≤ x.1.2) bl →
  i ≤ la → j ≤ lb →
  chain i j (bl ++ [(la, lb, 0)]).
Proof.
  revert i j.
  induction bl as [|x bl IH]; intros i j Hle Hap Hin Hge Hi Hj; simpl; [done|].
  apply StronglySorted_cons in Hle as [Hx_le Hle].
  apply StronglySorted_cons in Hap as [Hx_ap Hap].
  apply Forall_cons in Hin as [Hx_in Hin].
  apply Forall_cons in Hge as [[Hxi Hxj] Hge].
  split_and!; [done|done|].
  unfold inside in Hx_in; simpl in Hx_in.
  apply IH; [done|done|done| |lia|lia].
  rewrite Forall_forall in Hx_le. rewrite Forall_forall in Hx_ap.
  apply Forall_forall. intros y Hy.
  specialize (Hx_le y Hy).
  assert (Hapxy : apart (rect_of x) (rect_of y)).
  { apply Hx_ap. by apply list_elem_of_fmap_2. }
  clear -Hx_le Hapxy. destruct x as [[??]?], y as [[??]?].
  unfold Match_le, apart, before, rect_of in *; simpl in *. lia.
Qed.

Lemma chain_snoc_end i j l x :
  chain i j (l ++ [x]) ↔
  chain i j l ∧ (end_pos i j l).1 ≤ x.1.1 ∧ (end_pos i j l).2 ≤ x.1.2.
Proof. rewrite chain_app. simpl. tauto. Qed.

Lemma end_pos_snoc i j l x :
  end_pos i j (l ++ [x]) = (x.1.1 + x.2, x.1.2 + x.2).
Proof. by rewrite end_pos_app. Qed.

Lemma collapse_step_ok la lb st x rest :
  collapse_state_ok la lb st (x :: rest) →
  collapse_state_ok la lb (collapse_step st x) rest.
Proof.
  destruct st as [[[i1 j1] k1] out], x as [[i2 j2] k2].
  unfold collapse_state_ok, collapse_step; simpl.
  intros [Hout (Hi & Hj & Hrest)].
  apply chain_snoc_end in Hout as (Hout & Hei & Hej); simpl in *.
  destruct (decide (i1 + k1 = i2 ∧ j1 + k1 = j2)) as [[<- <-]|Hadj]; simpl.
  - split.
    + apply chain_snoc_end. simpl. done.
    + by rewrite <-!Nat.add_assoc in Hrest.
  - split; [|done].
    destruct (decide (k1 = 0)) as [->|Hk1].
    + apply chain_snoc_end; simpl. split_and!; [done|lia|lia].
    + apply chain_snoc_end; simpl. rewrite end_pos_snoc; simpl.
      split_and!; [|lia|lia].
      apply chain_snoc_end; simpl. done.
Qed.

Lemma collapse_fold_ok la lb bl st :
  collapse_state_ok la lb st bl →
  collapse_state_ok la lb (foldl collapse_step st bl) [].
Proof.
  revert st. induction bl as [|x bl IH]; intros st Hst; simpl; [done|].
  by apply IH, collapse_step_ok.
Qed.

Lemma collapse_chain la lb bl :
  chain 0 0 (bl ++ [(la, lb, 0)]) →
  chain 0 0 (collapse bl ++ [(la, lb, 0)]).
Proof.
  intros Hbl. unfold collapse.
  pose proof (collapse_fold_ok la lb bl ((0, 0, 0), [])) as Hfold.
  destruct (foldl collapse_step ((0, 0, 0), []) bl) as [[[i1 j1] k1] out].
  destruct Hfold as [Hout Hend].
  { split; simpl; [lia|done]. }
  simpl in Hout, Hend.
  apply chain_snoc_end in Hout as (Hout & Hei & Hej); simpl in *.
  destruct (decide (k1 = 0)) as [->|Hk1].
  - apply chain_snoc_end; simpl. split_and!; [done|lia|lia].
  - apply chain_snoc_end; simpl. rewrite end_pos_snoc; simpl.
    split_and!; [|lia|lia].
    apply chain_snoc_end; simpl. done.
Qed.

(** The matching blocks are in increasing, non-overlapping order in both
    sequences and end with the sentinel. *)
Lemma get_matching_blocks_chain a b :
  chain 0 0 (get_matching_blocks autojunk a b).
Proof.
  unfold get_matching_blocks. apply collapse_chain.
  destruct (mb_loop_terminates a b) as (bl & _ & -> & [Hin Hap]).
  simpl in Hin, Hap.
  assert (Hperm : merge_sort Match_le bl ≡ₚ bl) by apply merge_sort_Permutation.
  apply sorted_apart_chain.
  - apply StronglySorted_merge_sort; apply _.
  - eapply (StronglySorted_sym_perm apart); [|exact Hap].
    by rewrite Hperm.
  - by rewrite Hperm.
  - apply Forall_forall. intros; lia.
  - lia.
  - lia.
Qed.

End worklist.

(** *** Opcodes *)

Lemma opcode_step_ops i j answer x :
  opcode_step (i, j, answer) x =
  (x.1.1 + x.2, x.1.2 + x.2, answer ++ step_ops i j x).
Proof.
  destruct x as [[ai bj] size]. unfold opcode_step, step_ops; simpl.
  repeat case_decide; by rewrite <-?app_assoc, ?app_nil_r.
Qed.

Lemma foldl_opcode_step i j answer bl :
  foldl opcode_step (i, j, answer) bl =
  ((end_pos i j bl).1, (end_pos i j bl).2,
   answer ++ (foldl opcode_step (i, j, []) bl).2).
Proof.
  revert i j answer.
  induction bl as [|x bl IH]; intros i j answer; cbn [foldl end_pos].
  - by rewrite app_nil_r.
  - rewrite !opcode_step_ops, (IH _ _ (answer ++ _)), (IH _ _ ([] ++ _)).
    simpl. by rewrite app_assoc.
Qed.

Lemma ops_chain_app i j ops1 ops2 :
  ops_chain i j (ops1 ++ ops2) ↔
  ops_chain i j ops1 ∧ ops_chain (ops_end i j ops1).1 (ops_end i j ops1).2 ops2.
Proof.
  revert i j. induction ops1 as [|o ops1 IH]; intros i j; simpl; [tauto|].
  rewrite IH. tauto.
Qed.

Lemma ops_end_app i j ops1 ops2 :
  ops_end i j (ops1 ++ ops2) =
  ops_end (ops_end i j ops1).1 (ops_end i j ops1).2 ops2.
Proof.
  revert i j. induction ops1 as [|o ops1 IH]; intros i j; simpl; [done|].
  apply IH.
Qed.

Lemma step_ops_chain i j x :
  i ≤ x.1.1 → j ≤ x.1.2 →
  ops_chain i j (step_ops i j x) ∧
  ops_end i j (step_ops i j x) = (x.1.1 + x.2, x.1.2 + x.2).
Proof.
  destruct x as [[ai bj] size]; simpl. intros Hi Hj.
  unfold step_ops; simpl.
  repeat case_decide; simpl; unfold opcode_wf; simpl;
    (split; [split_and?; try done; lia|f_equal; lia]).
Qed.

Lemma ops_of_chain i j bl :
  chain i j bl →
  ops_chain i j (foldl opcode_step (i, j, []) bl).2 ∧
  ops_end i j (foldl opcode_step (i, j, []) bl).2 = end_pos i j bl.
Proof.
  revert i j. induction bl as [|x bl IH]; intros i j; [done|].
  cbn [foldl end_pos chain]. intros (Hi & Hj & Hbl).
  rewrite opcode_step_ops, foldl_opcode_step. simpl.
  destruct (step_ops_chain i j x Hi Hj) as [Hc He].
  destruct (IH _ _ Hbl) as [Hc' He'].
  rewrite ops_chain_app, ops_end_app, He. simpl. done.
Qed.

Lemma ops_chain_span_a i j ops :
  ops_chain i j ops →
  concat (map span_a ops) = seq i ((ops_end i j ops).1 - i) ∧
  i ≤ (ops_end i j ops).1.
Proof.
  revert i j. induction ops as [|o ops IH]; intros i j; simpl.
  - rewrite Nat.sub_diag. done.
  - intros (<- & <- & Hwf & Hops). destruct (IH _ _ Hops) as [-> Hle].
    assert (Ho : op_i1 o ≤ op_i2 o).
    { unfold opcode_wf in Hwf. destruct (op_tag o); lia. }
    split; [|lia]. unfold span_a.
    replace ((ops_end (op_i2 o) (op_j2 o) ops).1 - op_i1 o)
      with ((op_i2 o - op_i1 o) + ((ops_end (op_i2 o) (op_j2 o) ops).1 - op_i2 o))
      by lia.
    rewrite seq_app. do 2 f_equal. lia.
Qed.

Lemma ops_chain_span_b i j ops :
  ops_chain i j ops →
  concat (map span_b ops) = seq j ((ops_end i j ops).2 - j) ∧
  j ≤ (ops_end i j ops).2.
Proof.
  revert i j. induction ops as [|o ops IH]; intros i j; simpl.
  - rewrite Nat.sub_diag. done.
  - intros (<- & <- & Hwf & Hops). destruct (IH _ _ Hops) as [-> Hle].
    assert (Ho : op_j1 o ≤ op_j2 o).
    { unfold opcode_wf in Hwf. destruct (op_tag o); lia. }
    split; [|lia]. unfold span_b.
    replace ((ops_end (op_i2 o) (op_j2 o) ops).2 - op_j1 o)
      with ((op_j2 o - op_j1 o) + ((ops_end (op_i2 o) (op_j2 o) ops).2 - op_j2 o))
      by lia.
    rewrite seq_app. do 2 f_equal. lia.
Qed.

Lemma opcode_wf_span o :
  opcode_wf o →
  op_i1 o ≤ op_i2 o ∧ op_j1 o ≤ op_j2 o ∧
  op_i1 o + op_j1 o < op_i2 o + op_j2 o.
Proof. unfold opcode_wf. destruct (op_tag o); lia. Qed.

Lemma ops_chain_wf i j ops : ops_chain i j ops → Forall opcode_wf ops.
Proof.
  revert i j. induction ops as [|o ops IH]; intros i j; simpl; [done|].
  intros (_ & _ & Hwf & Hops). constructor; [done|]. by eapply IH.
Qed.

Lemma ops_chain_increasing i j ops :
  ops_chain i j ops →
  Forall (λ o, i ≤ op_i1 o ∧ j ≤ op_j1 o) ops ∧
  StronglySorted starts_increase ops.
Proof.
  revert i j. induction ops as [|o ops IH]; intros i j; simpl.
  - intros _. split; constructor.
  - intros (<- & <- & Hwf & Hops).
    apply opcode_wf_span in Hwf as (Hi & Hj & Hij).
    destruct (IH _ _ Hops) as [Hge Hsorted].
    split; constructor; try done.
    + eapply Forall_impl; [exact Hge|]. simpl. intros o' [? ?]. lia.
    + eapply Forall_impl; [exact Hge|]. simpl. intros o' [? ?].
      unfold starts_increase. lia.
Qed.

Lemma ops_chain_cover_a i j ops k :
  ops_chain i j ops →
  length (filter (λ o, op_i1 o ≤ k < op_i2 o) ops) =
  if decide (i ≤ k < (ops_end i j ops).1) then 1 else 0.
Proof.
  revert i j. induction ops as [|o ops IH]; intros i j; simpl.
  - intros _. rewrite decide_False by lia. done.
  - intros (<- & <- & Hwf & Hops).
    apply opcode_wf_span in Hwf as (Hi & Hj & Hij).
    destruct (ops_chain_span_a _ _ _ Hops) as [_ Hle].
    rewrite filter_cons. specialize (IH _ _ Hops).
    destruct (decide (op_i1 o ≤ k < op_i2 o)) as [Hk|Hk]; simpl; rewrite IH.
    + rewrite decide_False by lia. rewrite decide_True by lia. done.
    + repeat case_decide; try done; exfalso; lia.
Qed.

Lemma ops_chain_cover_b i j ops k :
  ops_chain i j ops →
  length (filter (λ o, op_j1 o ≤ k < op_j2 o) ops) =
  if decide (j ≤ k < (ops_end i j ops).2) then 1 else 0.
Proof.
  revert i j. induction ops as [|o ops IH]; intros i j; simpl.
  - intros _. rewrite decide_False by lia. done.
  - intros (<- & <- & Hwf & Hops).
    apply opcode_wf_span in Hwf as (Hi & Hj & Hij).
    destruct (ops_chain_span_b _ _ _ Hops) as [_ Hle].
    rewrite filter_cons. specialize (IH _ _ Hops).
    destruct (decide (op_j1 o ≤ k < op_j2 o)) as [Hk|Hk]; simpl; rewrite IH.
    + rewrite decide_False by lia. rewrite decide_True by lia. done.
    + repeat case_decide; try done; exfalso; lia.
Qed.

Section opcodes.
Context {T : Type} `{Countable T}.
Variable autojunk : bool.
Implicit Types (a b : list T).

Lemma end_pos_matching_blocks a b :
  end_pos 0 0 (get_matching_blocks autojunk a b) = (length a, length b).
Proof.
  unfold get_matching_blocks. rewrite end_pos_app. simpl. f_equal; lia.
Qed.

(** The opcodes of [get_opcodes] form a chain from [(0, 0)] to
    [(len(a), len(b))]. *)
Lemma get_opcodes_chain a b :
  ops_chain 0 0 (get_opcodes autojunk a b) ∧
  ops_end 0 0 (get_opcodes autojunk a b) = (length a, length b).
Proof.
  unfold get_opcodes.
  destruct (ops_of_chain 0 0 (get_matching_blocks autojunk a b)) as [Hc He].
  { apply get_matching_blocks_chain. }
  by rewrite He, end_pos_matching_blocks in *.
Qed.

End opcodes.

(** *** The index [b2j] *)

Lemma filter_ext_elem {A} (P Q : A → Prop) `{!∀ z, Decision (P z)}
    `{!∀ z, Decision (Q z)} (l : list A) :
  (∀ z, z ∈ l → P z ↔ Q z) → filter P l = filter Q l.
Proof.
  induction l as [|z l IH]; intros HPQ; [done|].
  rewrite !filter_cons.
  assert (Hz : P z ↔ Q z) by (apply HPQ; left).
  rewrite IH by (intros w Hw; apply HPQ; by right).
  repeat case_decide; tauto.
Qed.

Section index.
Context {T : Type} `{Countable T}.
Variable autojunk : bool.
Implicit Types (a b : list T) (x y : T).

Lemma positions_snoc x b y :
  positions x (b ++ [y]) =
  positions x b ++ (if decide (y = x) then [length b] else []).
Proof.
  unfold positions. rewrite length_app. simpl.
  rewrite seq_app, filter_app. simpl. f_equal.
  - apply filter_ext_elem. intros j Hj. apply elem_of_seq in Hj.
    by rewrite lookup_app_l by lia.
  - rewrite filter_cons, filter_nil.
    rewrite list_lookup_middle by done.
    repeat case_decide; congruence.
Qed.

Lemma elem_of_positions x b j : j ∈ positions x b ↔ b !! j = Some x.
Proof.
  unfold positions. rewrite list_elem_of_filter, elem_of_seq.
  split; [tauto|]. intros Hj. split; [done|].
  apply lookup_lt_Some in Hj. lia.
Qed.

Lemma raw_b2j_lookup b x :
  foldl setdefault_append ∅ (imap pair b) !! x =
  if decide (positions x b = []) then None else Some (positions x b).
Proof.
  induction b as [|y b IH] using rev_ind; [done|].
  rewrite imap_app, foldl_app. simpl. rewrite Nat.add_0_r.
  unfold setdefault_append at 1. simpl.
  rewrite positions_snoc, lookup_insert.
  destruct (decide (y = x)) as [->|Hne].
  - rewrite IH. destruct (decide (positions x b = [])) as [->|Hpos]; simpl.
    + done.
    + case_decide as Hnil; [|done]. by apply app_eq_nil in Hnil as [_ ?].
  - rewrite IH, app_nil_r. done.
Qed.

(** An entry of [b2j] lists exactly the positions of its key. *)
Lemma chain_b_lookup b x js :
  chain_b autojunk b !! x = Some js → js = positions x b.
Proof.
  unfold chain_b. intros Hjs.
  assert (Hraw : foldl setdefault_append ∅ (imap pair b) !! x = Some js).
  { destruct (autojunk && bool_decide (200 ≤ length b)); [|done].
    by apply map_lookup_filter_Some in Hjs as [Hjs _]. }
  rewrite raw_b2j_lookup in Hraw. case_decide; congruence.
Qed.

(** Without [autojunk], and below 200 elements with it, the popularity
    heuristic is off and the index is the plain one. *)
Lemma chain_b_plain b x :
  autojunk = false ∨ length b < 200 →
  chain_b autojunk b !! x =
  if decide (positions x b = []) then None else Some (positions x b).
Proof.
  intros Hoff. unfold chain_b.
  assert (Hflag : autojunk && bool_decide (200 ≤ length b) = false).
  { destruct Hoff as [-> | Hb]; [done|].
    rewrite bool_decide_eq_false_2 by lia. by destruct autojunk. }
  rewrite Hflag. apply raw_b2j_lookup.
Qed.

Lemma elem_of_b2j_get a b i j :
  j ∈ b2j_get (chain_b autojunk b) a i ↔
  ∃ x, a !! i = Some x ∧ b !! j = Some x ∧ is_Some (chain_b autojunk b !! x).
Proof.
  unfold b2j_get. destruct (a !! i) as [x|].
  - destruct (chain_b autojunk b !! x) as [js|] eqn:Hjs; simpl.
    + pose proof (chain_b_lookup _ _ _ Hjs) as ->.
      rewrite elem_of_positions. split.
      * intros Hj. exists x. by rewrite Hjs.
      * by intros (? & [= <-] & ? & _).
    + split; [by intros ?%elem_of_nil|].
      intros (z & [= <-] & _ & Hz). rewrite Hjs in Hz. by destruct Hz.
  - split; [by intros ?%elem_of_nil|]. by intros (z & ? & _).
Qed.

Lemma b2j_get_cases a b i :
  b2j_get (chain_b autojunk b) a i = [] ∨
  ∃ x, a !! i = Some x ∧ b2j_get (chain_b autojunk b) a i = positions x b.
Proof.
  unfold b2j_get. destruct (a !! i) as [x|]; [|by left].
  destruct (chain_b autojunk b !! x) as [js|] eqn:Hjs; simpl; [|by left].
  right. exists x. by apply chain_b_lookup in Hjs as ->.
Qed.

End index.

(** *** A sequence matched against itself *)

Lemma scan_row_foldl i bhi j2len js newj2len best :
  Forall (λ j, j < bhi) js →
  scan_row i 0 bhi j2len js newj2len best =
  foldl (row_step i j2len) (newj2len, best) js.
Proof.
  revert newj2len best.
  induction js as [|j js IH]; intros newj2len best Hjs; [done|].
  apply Forall_cons in Hjs as [Hj Hjs]. simpl.
  destruct (decide (j < 0)) as [|_]; [lia|].
  destruct (decide (bhi ≤ j)) as [|_]; [lia|].
  by rewrite IH.
Qed.

Lemma row_fold_map i j2len js st j :
  (foldl (row_step i j2len) st js).1 !! j =
  if decide (j ∈ js) then Some (prev_len j2len j + 1) else st.1 !! j.
Proof.
  revert st. induction js as [|j0 js IH]; intros st; cbn [foldl].
  - by rewrite decide_False by apply not_elem_of_nil.
  - rewrite IH. simpl. rewrite lookup_insert.
    destruct (decide (j ∈ js)) as [Hjs|Hjs].
    + rewrite decide_True by (by right). done.
    + destruct (decide (j0 = j)) as [->|Hne].
      * rewrite decide_True by left. done.
      * rewrite decide_False by (intros [?|?]%elem_of_cons; congruence).
        done.
Qed.

Lemma row_fold_best_same i j2len js st :
  Forall (λ j, prev_len j2len j + 1 ≤ st.2.2) js →
  (foldl (row_step i j2len) st js).2 = st.2.
Proof.
  revert st. induction js as [|j js IH]; intros st Hjs; [done|].
  apply Forall_cons in Hjs as [Hj Hjs]. simpl in Hj. cbn [foldl].
  assert (Hst : (row_step i j2len st j).2 = st.2).
  { unfold row_step; simpl. case_decide; [exfalso; lia|done]. }
  rewrite IH; rewrite Hst; done.
Qed.

Section diagonal.
Context {T : Type} `{Countable T}.
Variable autojunk : bool.
Variable s : list T.

Local Abbreviation run := (Invariants.run autojunk s).
Local Abbreviation diag_inv := (Invariants.diag_inv autojunk s).

Lemma same_sym i j :
  j ∈ b2j_get (chain_b autojunk s) s i ↔ i ∈ b2j_get (chain_b autojunk s) s j.
Proof.
  rewrite !elem_of_b2j_get.
  split; intros (x & Hi & Hj & Hx); by exists x.
Qed.

Lemma same_diag i j :
  j ∈ b2j_get (chain_b autojunk s) s i → i ∈ b2j_get (chain_b autojunk s) s i.
Proof.
  rewrite !elem_of_b2j_get. intros (x & Hi & Hj & Hx). by exists x.
Qed.

Lemma same_lt i j : j ∈ b2j_get (chain_b autojunk s) s i → j < length s.
Proof.
  rewrite elem_of_b2j_get. intros (x & _ & Hj & _).
  by apply lookup_lt_Some in Hj.
Qed.

Lemma run_0_r i : run i 0 = 0.
Proof. by destruct i. Qed.

Lemma run_sym i j : run i j = run j i.
Proof.
  revert j. induction i as [|i IH]; intros [|j]; simpl; try done.
  rewrite (IH j).
  destruct (decide (j ∈ _)) as [Hij|Hij], (decide (i ∈ _)) as [Hji|Hji];
    try done; by apply same_sym in Hij || apply same_sym in Hji.
Qed.

Lemma run_diag_max i j : run i j ≤ run i i.
Proof.
  revert j. induction i as [|i IH]; intros [|j]; simpl; try lia.
  destruct (decide (j ∈ _)) as [Hij|Hij]; [|lia].
  rewrite decide_True by (by eapply same_diag).
  specialize (IH j). lia.
Qed.

Lemma diag_row_map i j2len best :
  (∀ j, prev_len j2len j = run i j) →
  ∀ j, prev_len
         (foldl (row_step i j2len) (∅, best)
            (b2j_get (chain_b autojunk s) s i)).1 j =
       run (S i) j.
Proof.
  intros Hold [|j]; [done|]. simpl.
  rewrite row_fold_map. simpl. rewrite lookup_empty.
  destruct (decide (j ∈ _)); simpl; [|done]. by rewrite Hold.
Qed.

Lemma diag_row_best i j2len best :
  i < length s →
  diag_inv i (j2len, best) →
  let best' :=
    (foldl (row_step i j2len) (∅, best) (b2j_get (chain_b autojunk s) s i)).2 in
  best'.1.1 = best'.1.2 ∧ (∀ i' j, i' ≤ S i → run i' j ≤ best'.2).
Proof.
  intros Hi (Hold & Hdiag & Hmax). simpl in Hold, Hdiag, Hmax.
  destruct (b2j_get_cases autojunk s s i) as [Hnil|(x & Hx & Hpos)].
  - rewrite Hnil. simpl. split; [done|].
    intros i' j Hi'. destruct (decide (i' = S i)) as [->|]; [|apply Hmax; lia].
    destruct j as [|j]; simpl; [lia|]. rewrite Hnil.
    rewrite decide_False by apply not_elem_of_nil. lia.
  - assert (Hk : ∀ j, j ∈ b2j_get (chain_b autojunk s) s i →
              prev_len j2len j + 1 = run (S i) (S j)).
    { intros j Hj. simpl. rewrite decide_True by done. by rewrite Hold. }
    assert (Hii : i ∈ b2j_get (chain_b autojunk s) s i).
    { rewrite Hpos. by apply elem_of_positions. }
    assert (Hsplit : b2j_get (chain_b autojunk s) s i =
              filter (λ j, s !! j = Some x) (seq 0 i) ++ [i] ++
              filter (λ j, s !! j = Some x) (seq (S i) (length s - S i))).
    { rewrite Hpos. unfold positions.
      replace (length s) with (i + (1 + (length s - S i))) at 1 by lia.
      rewrite !seq_app, !filter_app. simpl.
      rewrite (filter_cons_True _ i []) by done.
      by rewrite filter_nil, Nat.add_1_r. }
    rewrite Hsplit, !foldl_app.
    set (js1 := filter _ (seq 0 i)) in *.
    set (js2 := filter _ (seq (S i) _)) in *.
    assert (H1 : (foldl (row_step i j2len) (∅, best) js1).2 = best).
    { apply row_fold_best_same. simpl. apply Forall_forall. intros j Hj.
      assert (Hjs : j ∈ b2j_get (chain_b autojunk s) s i).
      { rewrite Hsplit. apply elem_of_app. by left. }
      rewrite (Hk j Hjs), run_sym.
      apply Hmax. subst js1.
      apply list_elem_of_filter in Hj as [_ Hj]. apply elem_of_seq in Hj. lia. }
    set (st1 := foldl (row_step i j2len) (∅, best) js1) in *.
    set (st2 := foldl (row_step i j2len) st1 [i]).
    assert (H2 : st2.2.1.1 = st2.2.1.2 ∧ best.2 ≤ st2.2.2 ∧
                 run (S i) (S i) ≤ st2.2.2).
    { subst st2. cbn [foldl]. unfold row_step. cbn [fst snd].
      rewrite H1, (Hk i Hii). case_decide; cbn [fst snd]; [lia|].
      split_and!; [done|lia|lia]. }
    destruct H2 as (Hd2 & Hb2 & Hr2).
    assert (H3 : (foldl (row_step i j2len) st2 js2).2 = st2.2).
    { apply row_fold_best_same. apply Forall_forall. intros j Hj.
      assert (Hjs : j ∈ b2j_get (chain_b autojunk s) s i).
      { rewrite Hsplit. apply elem_of_app. right.
        apply elem_of_app. by right. }
      rewrite (Hk j Hjs).
      pose proof (run_diag_max (S i) (S j)). lia. }
    simpl. fold st2. rewrite H3. split; [done|].
    intros i' j Hi'. destruct (decide (i' = S i)) as [->|].
    + pose proof (run_diag_max (S i) j). lia.
    + specialize (Hmax i' j). lia.
Qed.

Lemma diag_rows n i st :
  i + n ≤ length s →
  diag_inv i st →
  diag_inv (i + n)
    (foldl (λ st i, scan_row i 0 (length s) st.1
                      (b2j_get (chain_b autojunk s) s i) ∅ st.2) st (seq i n)).
Proof.
  revert i st. induction n as [|n IH]; intros i st Hn Hinv; simpl.
  - by rewrite Nat.add_0_r.
  - replace (i + S n) with (S i + n) by lia. apply IH; [lia|].
    rewrite scan_row_foldl
      by (apply Forall_forall; intros j Hj; by eapply same_lt).
    destruct st as [j2len best].
    destruct (diag_row_best i j2len best) as [Hd Hm]; [lia|done|].
    destruct Hinv as (Hold & _ & _).
    split_and!; [|done|done]. by apply diag_row_map.
Qed.

Lemma scan_rows_diag :
  let best := (scan_rows s (chain_b autojunk s) 0 (length s) 0 (length s)).2 in
  best.1.1 = best.1.2 ∧ best.1.1 + best.2 ≤ length s.
Proof.
  simpl. split.
  - unfold scan_rows. rewrite Nat.sub_0_r.
    apply (diag_rows (length s) 0); [lia|].
    split_and!; simpl; [|done|].
    + intros [|j]; simpl; [done|]. by rewrite lookup_empty.
    + intros i' j Hi'. replace i' with 0 by lia. done.
  - pose proof (scan_rows_ok s (chain_b autojunk s) 0 (length s) 0 (length s))
      as Hok.
    unfold best_ok in Hok. lia.
Qed.

Lemma eq_at_self i : i < length s → eq_at s s i i = true.
Proof.
  intros Hi. unfold eq_at.
  destruct (lookup_lt_is_Some_2 s i Hi) as [x ->].
  by apply bool_decide_eq_true.
Qed.

Lemma extend_left_self p k :
  p ≤ length s → extend_left s s 0 0 p p k = (0, 0, k + p).
Proof.
  revert k. induction p as [|p IH]; intros k Hp; simpl.
  - by rewrite Nat.add_0_r.
  - rewrite eq_at_self by lia. simpl.
    rewrite IH by lia. f_equal. lia.
Qed.

Lemma extend_right_self k m :
  k + m = length s →
  extend_right s s (length s) (length s) 0 0 k m = length s.
Proof.
  revert k. induction m as [|m IH]; intros k Hk; simpl; [lia|].
  rewrite eq_at_self by lia.
  rewrite bool_decide_eq_true_2 by lia. simpl.
  apply IH. lia.
Qed.

(** Searching a sequence against itself finds the whole sequence, also
    when the popularity heuristic has emptied part of the index. *)
Lemma find_longest_match_self :
  find_longest_match s s (chain_b autojunk s) 0 (length s) 0 (length s) =
  (0, 0, length s).
Proof.
  unfold find_longest_match.
  pose proof scan_rows_diag as [Hd Hle]. simpl in Hd, Hle.
  destruct (scan_rows s (chain_b autojunk s) 0 (length s) 0 (length s)).2
    as [[bi bj] bs]. simpl in Hd, Hle. subst bj.
  rewrite extend_left_self by lia.
  rewrite extend_right_self by lia. done.
Qed.

End diagonal.

(** *** Ratios *)

Section ratios.
Context {T : Type} `{Countable T}.
Variable autojunk : bool.
Implicit Types (a b s : list T).

Lemma found_blocks_self s :
  s ≠ [] → found_blocks autojunk s s = [(0, 0, length s)].
Proof.
  intros Hs. unfold found_blocks.
  replace (2 * length s + 1) with (S (2 * length s)) by lia.
  cbn [mb_loop]. rewrite find_longest_match_self.
  assert (Hn : length s ≠ 0) by (by destruct s).
  rewrite decide_False by done.
  rewrite (decide_False (P := 0 < 0 ∧ 0 < 0)) by lia.
  rewrite (decide_False (P := 0 + length s < length s ∧ _)) by lia.
  by destruct (length s).
Qed.

Lemma get_matching_blocks_self s :
  s ≠ [] →
  get_matching_blocks autojunk s s = [(0, 0, length s); (length s, length s, 0)].
Proof.
  intros Hs. unfold get_matching_blocks. rewrite found_blocks_self by done.
  assert (Hn : length s ≠ 0) by (by destruct s).
  unfold collapse. simpl. by rewrite decide_False by done.
Qed.

Lemma get_opcodes_self s :
  s ≠ [] → get_opcodes autojunk s s = [Opcode equal 0 (length s) 0 (length s)].
Proof.
  intros Hs. unfold get_opcodes. rewrite get_matching_blocks_self by done.
  assert (Hn : length s ≠ 0) by (by destruct s).
  cbn [foldl]. rewrite !opcode_step_ops. unfold step_ops. simpl.
  repeat case_decide; try (exfalso; lia); done.
Qed.

Lemma calculate_ratio_all n : calculate_ratio n (n + n) == 1.
Proof.
  unfold calculate_ratio. case_decide; [done|].
  unfold Qeq; simpl. lia.
Qed.

Lemma calculate_ratio_none n : n ≠ 0 → calculate_ratio 0 n == 0.
Proof. intros Hn. unfold calculate_ratio. by rewrite decide_False by done. Qed.

Lemma ratio_self s : ratio autojunk s s == 1.
Proof.
  unfold ratio, matches. destruct (decide (s = [])) as [->|Hs]; [done|].
  rewrite get_matching_blocks_self by done. simpl.
  rewrite !Nat.add_0_r. apply calculate_ratio_all.
Qed.

(** No block is found when one of the two sequences is empty. *)
Lemma found_blocks_empty a b : a = [] ∨ b = [] → found_blocks autojunk a b = [].
Proof.
  intros Hab. unfold found_blocks.
  replace (2 * length a + 1) with (S (2 * length a)) by lia.
  cbn [mb_loop].
  pose proof (find_longest_match_ok a b (chain_b autojunk b) 0 (length a) 0
                (length b)) as Hok.
  destruct (find_longest_match a b (chain_b autojunk b) 0 (length a) 0
              (length b)) as [[i j] k].
  unfold best_ok in Hok; simpl in Hok.
  assert (Hk : k = 0).
  { destruct Hab as [-> | ->]; simpl in Hok; lia. }
  rewrite decide_True by done. by destruct (2 * length a).
Qed.

Lemma matches_empty a b : a = [] ∨ b = [] → matches autojunk a b = 0.
Proof.
  intros Hab. unfold matches, get_matching_blocks.
  by rewrite found_blocks_empty.
Qed.

Lemma ratio_empty_r a : a ≠ [] → ratio autojunk a [] == 0.
Proof.
  intros Ha. unfold ratio. rewrite matches_empty by (by right).
  apply calculate_ratio_none. destruct a; simpl; [done|lia].
Qed.

Lemma ratio_empty_l b : b ≠ [] → ratio autojunk [] b == 0.
Proof.
  intros Hb. unfold ratio. rewrite matches_empty by (by left).
  apply calculate_ratio_none. destruct b; simpl; [done|lia].
Qed.

End ratios.

(** *** Sequences of fewer than 200 elements *)

(** The popularity heuristic leaves the index of a sequence of fewer than
    200 elements as it is. *)
Lemma chain_b_short {T : Type} `{Countable T} (autojunk : bool) (b : list T) :
  length b < 200 → chain_b autojunk b = chain_b false b.
Proof.
  intros Hb. unfold chain_b.
  rewrite (bool_decide_eq_false_2 (200 ≤ length b)) by lia.
  by rewrite andb_false_r.
Qed.

Lemma ratio_short {T : Type} `{Countable T} (autojunk : bool) (a b : list T) :
  length b < 200 → ratio autojunk a b = ratio false a b.
Proof.
  intros Hb.
  unfold ratio, matches, get_matching_blocks, found_blocks.
  by rewrite (chain_b_short autojunk b Hb).
Qed.

End MatcherFacts.

(** ** Properties of the program *)

Module SpeechFacts.
Import SequenceMatcher Invariants MatcherFacts Speech.

(** *** Words *)

Lemma split_from_wordlike cur s :
  nospace cur → Forall wordlike (split_from cur s).
Proof.
  revert cur. induction s as [|c s IH]; intros cur Hcur; simpl.
  - case_decide; [done|]. by repeat constructor.
  - destruct (isspace c) eqn:Hc.
    + case_decide; [apply IH; constructor|].
      constructor; [done|]. apply IH; constructor.
    + apply IH. apply Forall_app. split; [done|]. by constructor.
Qed.

Lemma split_wordlike s : Forall wordlike (split s).
Proof. apply split_from_wordlike. constructor. Qed.

Lemma split_from_nospace cur w s :
  nospace w → split_from cur (w ++ s) = split_from (cur ++ w) s.
Proof.
  revert cur. induction w as [|c w IH]; intros cur Hw; simpl.
  - by rewrite app_nil_r.
  - apply Forall_cons in Hw as [-> Hw].
    rewrite IH by done. by rewrite <-app_assoc.
Qed.

Lemma split_single w : wordlike w → split w = [w].
Proof.
  intros [Hne Hw]. unfold split.
  rewrite <-(app_nil_r w) at 1. rewrite split_from_nospace by done.
  simpl. by rewrite decide_False.
Qed.

(** Joining words with single spaces and splitting again gives the words
    back. *)
Lemma split_join ws : Forall wordlike ws → split (join [32%N] ws) = ws.
Proof.
  induction ws as [|w ws IH]; intros Hws; [done|].
  apply Forall_cons in Hws as [Hw Hws].
  destruct ws as [|w' ws]; [by apply split_single|].
  change (join [32%N] (w :: w' :: ws))
    with (w ++ 32%N :: join [32%N] (w' :: ws)).
  destruct Hw as [Hne Hw]. unfold split.
  rewrite split_from_nospace by done. simpl.
  rewrite decide_False by done. f_equal. by apply IH.
Qed.

Lemma silence_wordlike : wordlike (py "[silence]").
Proof. split; [done|]. by repeat constructor. Qed.

(** *** The word-level pass *)

Section word_pass.
Variables recognized_words reference_words : list pystr.
Hypothesis recognized_wordlike : Forall wordlike recognized_words.
Hypothesis reference_wordlike : Forall wordlike reference_words.

Local Abbreviation pass_ok :=
  (Invariants.pass_ok recognized_words reference_words).

Lemma flag_incorrect_ok j1 n i st :
  i + n ≤ length recognized_words →
  pass_ok i st →
  pass_ok (i + n)
    (foldl (flag_incorrect recognized_words reference_words j1) st (seq i n)).
Proof.
  revert i st. induction n as [|n IH]; intros i st Hn Hst; simpl.
  - by rewrite Nat.add_0_r.
  - replace (i + S n) with (S i + n) by lia. apply IH; [lia|].
    destruct Hst as (Hlen & Hwords & Htypes & Hfrom).
    unfold flag_incorrect.
    destruct (lookup_lt_is_Some_2 recognized_words i) as [w ->]; [lia|].
    set (c := if decide (correct (Mistake w (default [] (reference_words !! j1))
                                    i incorrect_word) = [])
              then py "[silence]"
              else correct (Mistake w (default [] (reference_words !! j1))
                              i incorrect_word)).
    assert (Hc : wordlike c ∧ (c = py "[silence]" ∨ c ∈ reference_words)).
    { subst c. simpl.
      destruct (reference_words !! j1) as [r|] eqn:Hr; simpl.
      - assert (Hin : r ∈ reference_words) by (by eapply list_elem_of_lookup_2).
        assert (Hwr : wordlike r).
        { rewrite Forall_forall in reference_wordlike.
          by apply reference_wordlike. }
        rewrite decide_False by apply Hwr. by split; [|right].
      - split; [apply silence_wordlike|by left]. }
    destruct Hc as [Hcw Hcfrom].
    split_and!; simpl.
    + rewrite length_app. simpl. lia.
    + apply Forall_app. split; [done|]. by constructor.
    + apply Forall_app. split; [done|]. by constructor.
    + intros k w' Hk. apply lookup_app_Some in Hk as [Hk|[Hge Hk]].
      * by apply Hfrom.
      * apply list_lookup_singleton_Some in Hk as [_ <-].
        destruct Hcfrom; [by left|by right; left].
Qed.

Lemma flag_incorrect_range j1 i1 i2 st :
  i1 ≤ i2 ≤ length recognized_words →
  pass_ok i1 st →
  pass_ok i2
    (foldl (flag_incorrect recognized_words reference_words j1) st
       (seq i1 (i2 - i1))).
Proof.
  intros Hi Hst. replace i2 with (i1 + (i2 - i1)) at 1 by lia.
  apply flag_incorrect_ok; [lia|done].
Qed.

Lemma classify_opcodes_ok ops i j st :
  ops_chain i j ops →
  (ops_end i j ops).1 ≤ length recognized_words →
  pass_ok i st →
  ∃ st',
    foldl (classify_opcode recognized_words reference_words) (Some st) ops
      = Some st' ∧
    pass_ok (ops_end i j ops).1 st'.
Proof.
  revert i j st.
  induction ops as [|o ops IH]; intros i j st; cbn [foldl ops_chain ops_end].
  - intros _ _ Hst. by exists st.
  - intros (<- & <- & Hwf & Hops) Hend Hst.
    destruct (ops_chain_span_a _ _ _ Hops) as [_ Hle].
    assert (Hstep : ∃ st1,
              classify_opcode recognized_words reference_words (Some st) o
                = Some st1 ∧ pass_ok (op_i2 o) st1).
    { unfold classify_opcode. unfold opcode_wf in Hwf. simpl.
      destruct (op_tag o).
      - eexists. split; [done|]. apply flag_incorrect_range; [lia|done].
      - eexists. split; [done|]. apply flag_incorrect_range; [lia|done].
      - destruct Hwf as [<- _]. rewrite Nat.sub_diag. simpl. by exists st.
      - eexists. split; [done|].
        destruct Hst as (Hlen & Hwords & Htypes & Hfrom).
        split_and!; simpl; [| |done|].
        + rewrite length_app, length_take, length_drop. lia.
        + apply Forall_app. split; [done|].
          by apply Forall_take, Forall_drop.
        + intros k w Hk. apply lookup_app_Some in Hk as [Hk|[Hge Hk]].
          * by apply Hfrom.
          * right; right. apply lookup_take_Some in Hk as [Hk _].
            rewrite lookup_drop in Hk. rewrite <-Hk. f_equal. lia. }
    destruct Hstep as (st1 & -> & Hst1). by apply IH.
Qed.

(** The word-level pass never raises, emits one corrected word per
    recognized word and only [incorrect_word] mistakes. *)
Lemma word_mistakes_ok :
  ∃ st, word_mistakes recognized_words reference_words = Some st ∧
        pass_ok (length recognized_words) st.
Proof.
  unfold word_mistakes.
  destruct (get_opcodes_chain true recognized_words reference_words)
    as [Hc He].
  destruct (classify_opcodes_ok
              (get_opcodes recognized_words reference_words) 0 0 ([], []))
    as (st & Hst & Hok).
  - done.
  - by rewrite He.
  - split_and!; [done|done|done|]. intros k w Hk. by destruct k.
  - exists st. by rewrite He in Hok.
Qed.

(** *** The token each opcode contributes *)

Local Abbreviation token_ok :=
  (Invariants.token_ok recognized_words reference_words).

Lemma flag_incorrect_tokens j1 n i st :
  i + n ≤ length recognized_words →
  (foldl (flag_incorrect recognized_words reference_words j1) st (seq i n)).2
  = st.2 ++ replicate n (replacement reference_words j1).
Proof.
  revert i st. induction n as [|n IH]; intros i st Hn.
  - cbn [seq foldl replicate]. by rewrite app_nil_r.
  - cbn [seq foldl replicate]. rewrite IH by lia. unfold flag_incorrect.
    destruct (lookup_lt_is_Some_2 recognized_words i) as [w ->]; [lia|].
    cbn [fst snd correct]. rewrite <-app_assoc. f_equal. cbn [app]. f_equal.
    unfold replacement.
    destruct (reference_words !! j1) as [r|] eqn:Hr; cbn [default].
    + rewrite decide_False; [done|].
      rewrite Forall_forall in reference_wordlike.
      apply (reference_wordlike r). by eapply list_elem_of_lookup_2.
    + by rewrite decide_True.
Qed.

Lemma token_ok_app corrected_words more o :
  op_i2 o ≤ length corrected_words →
  token_ok corrected_words o → token_ok (corrected_words ++ more) o.
Proof.
  intros Hlen. unfold Invariants.token_ok.
  destruct (op_tag o); [| |done|].
  - intros Hk k Hlt. rewrite lookup_app_l by lia. by apply Hk.
  - intros Hk k Hlt. rewrite lookup_app_l by lia. by apply Hk.
  - intros Hk k Hlt. rewrite lookup_app_l by lia. by apply Hk.
Qed.

Lemma classify_opcode_tokens o st :
  opcode_wf o → op_i2 o ≤ length recognized_words →
  length st.2 = op_i1 o →
  ∃ st1,
    classify_opcode recognized_words reference_words (Some st) o = Some st1 ∧
    (∃ more, st1.2 = st.2 ++ more) ∧
    length st1.2 = op_i2 o ∧
    token_ok st1.2 o.
Proof.
  intros Hwf Hend Hlen.
  unfold classify_opcode, Invariants.token_ok. unfold opcode_wf in Hwf.
  cbn [mbind option_bind].
  assert (Hflag : op_i1 o < op_i2 o →
            ∃ st1,
              Some (foldl (flag_incorrect recognized_words reference_words
                             (op_j1 o)) st
                      (seq (op_i1 o) (op_i2 o - op_i1 o))) = Some st1 ∧
              (∃ more, st1.2 = st.2 ++ more) ∧
              length st1.2 = op_i2 o ∧
              ∀ k, op_i1 o ≤ k < op_i2 o →
                   st1.2 !! k
                   = Some (replacement reference_words (op_j1 o))).
  { intros Hlt. eexists. split; [done|].
    rewrite flag_incorrect_tokens by lia. split_and!.
    - by eexists.
    - rewrite length_app, length_replicate. lia.
    - intros k Hk. rewrite lookup_app_r by lia.
      apply lookup_replicate_2. lia. }
  destruct (op_tag o).
  - apply Hflag. lia.
  - apply Hflag. lia.
  - destruct Hwf as [Heq _]. rewrite <-Heq, Nat.sub_diag. cbn [seq foldl].
    exists st. split_and!; [done|exists []; by rewrite app_nil_r|done|done].
  - eexists. split; [done|]. cbn [fst snd]. split_and!.
    + by eexists.
    + rewrite length_app, length_take, length_drop. lia.
    + intros k Hk.
      destruct (lookup_lt_is_Some_2 recognized_words k) as [w Hw]; [lia|].
      exists w. split; [done|].
      rewrite lookup_app_r by lia. rewrite lookup_take_lt by lia.
      rewrite lookup_drop. rewrite <-Hw. f_equal. lia.
Qed.

Lemma classify_opcodes_tokens ops i j st :
  ops_chain i j ops →
  (ops_end i j ops).1 ≤ length recognized_words →
  length st.2 = i →
  ∃ st',
    foldl (classify_opcode recognized_words reference_words) (Some st) ops
      = Some st' ∧
    (∃ more, st'.2 = st.2 ++ more) ∧
    Forall (token_ok st'.2) ops.
Proof.
  revert i j st.
  induction ops as [|o ops IH]; intros i j st; cbn [foldl ops_chain ops_end].
  - intros _ _ _. exists st.
    split_and!; [done|exists []; by rewrite app_nil_r|done].
  - intros (<- & <- & Hwf & Hops) Hend Hlen.
    destruct (ops_chain_span_a _ _ _ Hops) as [_ Hle].
    destruct (classify_opcode_tokens o st) as (st1 & -> & [m1 Hm1] & Hl1 & Ho);
      [done|lia|done|].
    destruct (IH _ _ st1 Hops Hend Hl1) as (st' & Hst' & [m2 Hm2] & Hrest).
    exists st'. split_and!; [done| |].
    + exists (m1 ++ m2). by rewrite Hm2, Hm1, app_assoc.
    + constructor; [|done]. rewrite Hm2. apply token_ok_app; [lia|done].
Qed.

(** Every opcode contributes its tokens to the corrected words of the
    word-level pass. *)
Lemma word_mistakes_tokens :
  ∃ st, word_mistakes recognized_words reference_words = Some st ∧
        Forall (token_ok st.2)
          (get_opcodes recognized_words reference_words).
Proof.
  unfold word_mistakes.
  destruct (get_opcodes_chain true recognized_words reference_words)
    as [Hc He].
  destruct (classify_opcodes_tokens
              (get_opcodes recognized_words reference_words) 0 0 ([], []))
    as (st & Hst & _ & Hok).
  - done.
  - by rewrite He.
  - done.
  - by exists st.
Qed.

End word_pass.

(** *** Escalation *)

Lemma escalate_fields m :
  word (escalate m) = word m ∧ correct (escalate m) = correct m ∧
  position (escalate m) = position m.
Proof. unfold escalate. by case_decide. Qed.

Lemma escalate_type m :
  type (escalate m) =
  match type m with incorrect_word => pronunciation | t => t end.
Proof.
  unfold escalate. case_decide as Ht; [by rewrite Ht|]. by destruct (type m).
Qed.

Section passes.
Variable lower : pystr → pystr.
Variable phonemize : pystr → pystr → exn + pystr.

(** The pronunciation pass returns the mistakes unchanged or all of them
    passed through [escalate]. *)
Lemma pronunciation_pass_cases recognized_text reference_text lang_code ms :
  (pronunciation_pass phonemize recognized_text reference_text lang_code ms).1
    = ms ∨
  (pronunciation_pass phonemize recognized_text reference_text lang_code ms).1
    = map escalate ms.
Proof.
  unfold pronunciation_pass.
  destruct (supported lang_code); [|by left].
  destruct (phonemize recognized_text lang_code); [by left|].
  destruct (phonemize reference_text lang_code); [by left|].
  destruct (Qltb _ _); [by right|by left].
Qed.

Lemma pronunciation_pass_no_extra recognized_text reference_text lang_code ms :
  Forall (λ m, type m ≠ extra_word) ms →
  Forall (λ m, type m ≠ extra_word)
    (pronunciation_pass phonemize recognized_text reference_text lang_code
       ms).1.
Proof.
  intros Hms.
  destruct (pronunciation_pass_cases recognized_text reference_text
              lang_code ms) as [-> | ->]; [done|].
  apply Forall_fmap. eapply Forall_impl; [exact Hms|].
  intros m Hm. simpl in *. rewrite escalate_type. by destruct (type m).
Qed.

(** [detect_mistakes] always returns: the mistakes of the word-level pass
    after the pronunciation pass, and the corrected words joined with
    spaces. *)
Lemma detect_mistakes_ok recognized_text reference_text lang_code :
  ∃ st,
    word_mistakes (split (lower recognized_text))
      (split (lower reference_text)) = Some st ∧
    pass_ok (split (lower recognized_text)) (split (lower reference_text))
      (length (split (lower recognized_text))) st ∧
    detect_mistakes lower phonemize recognized_text reference_text lang_code
      = Some ((pronunciation_pass phonemize recognized_text reference_text
                 lang_code st.1).1,
              join (py " ") st.2).
Proof.
  destruct (word_mistakes_ok (split (lower recognized_text))
              (split (lower reference_text))) as (st & Hst & Hok);
    [apply split_wordlike..|].
  exists st. split_and!; [done|done|].
  unfold detect_mistakes. by rewrite Hst.
Qed.

End passes.

(** *** Reference selection *)

Lemma Qgtb_lt x y : Qgtb x y = true ↔ (y < x)%Q.
Proof.
  unfold Qgtb. rewrite negb_true_iff, <-not_true_iff_false, Qle_bool_iff.
  split; [apply Qnot_le_lt|apply Qlt_not_le].
Qed.

Lemma Qltb_lt x y : Qltb x y = true ↔ (x < y)%Q.
Proof. apply Qgtb_lt. Qed.

(** The [for] loop of [get_reference_text] returns the first phrase of the
    list that exceeds the threshold. *)
Lemma first_phrase_spec words phrases :
  match first_phrase words phrases with
  | Some p => ∃ l1 l2, phrases = l1 ++ p :: l2 ∧
                       Forall (λ q, ¬ exceeds words q) l1 ∧ exceeds words p
  | None => Forall (λ q, ¬ exceeds words q) phrases
  end.
Proof.
  induction phrases as [|q phrases IH]; simpl; [constructor|].
  destruct (Qgtb (ratio words (split q)) (7 # 10)) eqn:Hq.
  - exists [], phrases. split_and!; [done|constructor|by apply Qgtb_lt].
  - assert (Hnq : ¬ exceeds words q).
    { unfold exceeds. rewrite <-Qgtb_lt, Hq. done. }
    destruct (first_phrase words phrases) as [p|].
    + destruct IH as (l1 & l2 & -> & Hl1 & Hp).
      exists (q :: l1), l2. split_and!; [done|by constructor|done].
    + by constructor.
Qed.

Lemma dict_get_cases {V : Type} (d : list (pystr * V)) (k : pystr) (dflt : V) :
  (k, dict_get d k dflt) ∈ d ∨
  ((k ∉ map fst d) ∧ dict_get d k dflt = dflt).
Proof.
  induction d as [|[k' v] d IH]; simpl.
  - right. split; [apply not_elem_of_nil|done].
  - case_decide as Hk.
    + left. subst k'. left.
    + destruct IH as [IH|[IH1 IH2]]; [left; by right|].
      right. split; [|done]. intros [?|?]%elem_of_cons; simpl in *; congruence.
Qed.

(** No phrase of the phrase book is selected for an empty word list. *)
Lemma first_phrase_no_words :
  Forall (λ kv : pystr * list pystr, first_phrase [] kv.2 = None)
    COMMON_PHRASES.
Proof. repeat constructor; vm_compute; reflexivity. Qed.

(** *** Identical texts *)

Lemma word_mistakes_self (words : list pystr) :
  word_mistakes words words = Some ([], words).
Proof.
  unfold word_mistakes. destruct (decide (words = [])) as [->|Hw]; [done|].
  rewrite get_opcodes_self by done. simpl.
  by rewrite Nat.sub_0_r, firstn_all.
Qed.

(** *** Score *)

Lemma clamp_bounds (x : Q) : (0 <= Qmax 0 (Qmin 100 x) <= 100)%Q.
Proof.
  split; [apply Q.le_max_l|].
  apply Q.max_lub; [done|apply Q.le_min_l].
Qed.

Lemma clamp_100 (x : Q) : (x == 100) → (Qmax 0 (Qmin 100 x) == 100).
Proof.
  intros Hx.
  assert (Hmin : Qmin 100 x == 100).
  { apply Q.min_l. rewrite Hx. apply Qle_refl. }
  rewrite Q.max_r; [done|]. rewrite Hmin. done.
Qed.

End SpeechFacts.

(** ** The claims of the specification *)

Module Spec.
Import SequenceMatcher Invariants MatcherFacts Speech SpeechFacts.

(** *** Similarity engine *)

(** C8: [ratio(a, a) == 1.0] for every non-empty sequence [a] (written
    [x :: a]), [ratio(a, empty) == 0.0] for every non-empty [a], and
    [ratio(empty, empty) == 1.0]; for the matcher on the full index
    ([autojunk] off) and as the program runs it ([autojunk] on). *)
Theorem ratio_identities {T : Type} `{Countable T} (autojunk : bool) (x : T)
    (a : list T) :
  SequenceMatcher.ratio autojunk (x :: a) (x :: a) == 1 ∧
  SequenceMatcher.ratio autojunk (x :: a) [] == 0 ∧
  SequenceMatcher.ratio autojunk (@nil T) [] == 1.
Proof.
  split_and!.
  - apply ratio_self.
  - by apply ratio_empty_r.
  - apply ratio_self.
Qed.

(** C7, as stated, fails: aligning [["x", "y"]] with [["y"]] gives a [delete]
    opcode followed by an [equal] opcode that both start at [j1 = 0]. *)
Lemma align_starts_not_strict :
  SequenceMatcher.get_opcodes false [py "x"; py "y"] [py "y"]
    = [Opcode delete 0 1 0 0; Opcode equal 1 2 0 1] ∧
  get_opcodes [py "x"; py "y"] [py "y"]
    = [Opcode delete 0 1 0 0; Opcode equal 1 2 0 1] ∧
  ¬ starts_strictly_increase (get_opcodes [py "x"; py "y"] [py "y"]).
Proof.
  assert (Hops : get_opcodes [py "x"; py "y"] [py "y"]
                 = [Opcode delete 0 1 0 0; Opcode equal 1 2 0 1])
    by (vm_compute; reflexivity).
  split; [vm_compute; reflexivity|].
  split; [done|]. rewrite Hops. unfold starts_strictly_increase.
  intros Hs. apply StronglySorted_cons in Hs as [Hs _].
  apply Forall_cons in Hs as [[_ Hj] _]. simpl in Hj. lia.
Qed.

(** C7, amended: for every pair of sequences the opcodes of [align] are in
    non-decreasing order of [i1] and of [j1], each opcode starting strictly
    later than its predecessors in at least one of the two sequences, and
    their spans partition [[0, len(a))] and [[0, len(b))]: the spans
    concatenated in order are exactly the positions [0 .. len - 1], so every
    position is covered by exactly one opcode; for the matcher on the full
    index ([autojunk] off) and as the program runs it ([autojunk] on). *)
Theorem opcodes_partition {T : Type} `{Countable T} (autojunk : bool)
    (a b : list T) :
  let ops := SequenceMatcher.get_opcodes autojunk a b in
  StronglySorted starts_increase ops ∧
  concat (map span_a ops) = seq 0 (length a) ∧
  concat (map span_b ops) = seq 0 (length b) ∧
  (∀ k, length (filter (λ o, op_i1 o ≤ k < op_i2 o) ops)
        = if decide (k < length a) then 1 else 0) ∧
  (∀ k, length (filter (λ o, op_j1 o ≤ k < op_j2 o) ops)
        = if decide (k < length b) then 1 else 0).
Proof.
  intros ops. subst ops.
  destruct (get_opcodes_chain autojunk a b) as [Hc He].
  destruct (ops_chain_increasing _ _ _ Hc) as [_ Hsorted].
  destruct (ops_chain_span_a _ _ _ Hc) as [Ha _].
  destruct (ops_chain_span_b _ _ _ Hc) as [Hb _].
  rewrite He in Ha, Hb. simpl in Ha, Hb. rewrite Nat.sub_0_r in Ha, Hb.
  split_and!; try done.
  - intros k. rewrite (ops_chain_cover_a 0 0) by done. rewrite He. simpl.
    repeat case_decide; try done; exfalso; lia.
  - intros k. rewrite (ops_chain_cover_b 0 0) by done. rewrite He. simpl.
    repeat case_decide; try done; exfalso; lia.
Qed.

(** *** Mistake classifier *)

(** C3: for every pair of texts and every language code, classification
    returns a mistake list without any mistake of type [extra_word]: every
    [insert] opcode spans an empty range of recognized words, and the
    escalation only retypes [incorrect_word] mistakes. *)
Theorem no_extra_word_mistake (lower : pystr → pystr)
    (phonemize : pystr → pystr → exn + pystr)
    (recognized_text reference_text lang_code : pystr) :
  (∃ mistakes corrected_text,
     detect_mistakes lower phonemize recognized_text reference_text lang_code
       = Some (mistakes, corrected_text) ∧
     Forall (λ m, type m ≠ extra_word) mistakes) ∧
  Forall (λ o, op_i1 o = op_i2 o)
    (filter (λ o, op_tag o = insert)
       (get_opcodes (split (lower recognized_text))
          (split (lower reference_text)))) ∧
  (∀ m, type (escalate m)
        = match type m with incorrect_word => pronunciation | t => t end).
Proof.
  split_and!.
  - destruct (detect_mistakes_ok lower phonemize recognized_text
                reference_text lang_code) as (st & _ & Hok & ->).
    eexists _, _. split; [done|].
    apply pronunciation_pass_no_extra.
    destruct Hok as (_ & _ & Htypes & _).
    eapply Forall_impl; [exact Htypes|]. simpl. by intros m ->.
  - destruct (get_opcodes_chain true (split (lower recognized_text))
                (split (lower reference_text))) as [Hc _].
    apply ops_chain_wf in Hc.
    apply Forall_forall. intros o [Htag Ho]%list_elem_of_filter.
    rewrite Forall_forall in Hc. specialize (Hc o Ho).
    unfold opcode_wf in Hc. rewrite Htag in Hc. tauto.
  - apply escalate_type.
Qed.

(** C10: for every pair of texts and every language code, the corrected text
    returned by classification has exactly as many tokens as the lowercased
    recognized text has words.  It is the join, with single spaces, of the
    corrected words, and splitting it gives them back; every recognized
    word lies in the span of exactly one opcode; an [equal] opcode
    contributes each recognized word of its span itself, a [replace] or
    [delete] opcode contributes for each recognized word of its span the
    reference word at the start [j1] of its reference span, or
    ["[silence]"] when there is none, and an [insert] opcode spans no
    recognized word and contributes nothing. *)
Theorem corrected_text_token_count (lower : pystr → pystr)
    (phonemize : pystr → pystr → exn + pystr)
    (recognized_text reference_text lang_code : pystr) :
  ∃ mistakes corrected_words,
    detect_mistakes lower phonemize recognized_text reference_text lang_code
      = Some (mistakes, join (py " ") corrected_words) ∧
    split (join (py " ") corrected_words) = corrected_words ∧
    length (split (join (py " ") corrected_words))
      = length (split (lower recognized_text)) ∧
    (∀ k, k < length (split (lower recognized_text)) →
       length (filter (λ o, op_i1 o ≤ k < op_i2 o)
                 (get_opcodes (split (lower recognized_text))
                    (split (lower reference_text)))) = 1) ∧
    Forall (token_ok (split (lower recognized_text))
              (split (lower reference_text)) corrected_words)
      (get_opcodes (split (lower recognized_text))
         (split (lower reference_text))).
Proof.
  destruct (detect_mistakes_ok lower phonemize recognized_text
              reference_text lang_code) as (st & Hst & Hok & Hdet).
  destruct Hok as (Hlen & Hwords & _ & _).
  destruct (word_mistakes_tokens (split (lower recognized_text))
              (split (lower reference_text))) as (st' & Hst' & Htok);
    [apply split_wordlike|].
  rewrite Hst in Hst'. injection Hst' as <-.
  exists (pronunciation_pass phonemize recognized_text reference_text
            lang_code st.1).1, st.2.
  assert (Hsplit : split (join (py " ") st.2) = st.2) by (by apply split_join).
  split_and!; [done|done|by rewrite Hsplit| |done].
  intros k Hk.
  destruct (get_opcodes_chain true (split (lower recognized_text))
              (split (lower reference_text))) as [Hc He].
  rewrite (ops_chain_cover_a 0 0 _ k Hc), He. simpl.
  rewrite decide_True; [done|lia].
Qed.

(** C5, as stated, fails: the escalation is decided by the ratio the
    library computes, which for a reference sequence of 200 or more phoneme
    tokens is not the ratio of section 4.1.  For the two texts of 230 words
    below, phonemized to themselves, the ratio of section 4.1 is 21/230,
    below 0.85, since the longest common run, the 21 times ["x"], lies
    across the ten shared runs; yet all 30 mistakes stay [incorrect_word]:
    the library leaves ["x"], which fills more than 1% of the reference,
    out of its index, finds the ten shared runs and computes 20/23. *)
Lemma escalation_not_by_spec_ratio :
  echo_phonemizer shifted_recognized_text (py "en")
    = inr shifted_recognized_text ∧
  echo_phonemizer shifted_reference_text (py "en")
    = inr shifted_reference_text ∧
  length (split shifted_reference_text) = 230 ∧
  SequenceMatcher.ratio false (split shifted_recognized_text)
    (split shifted_reference_text) == 21 # 230 ∧
  (SequenceMatcher.ratio false (split shifted_recognized_text)
     (split shifted_reference_text) < 85 # 100)%Q ∧
  ratio (split shifted_recognized_text) (split shifted_reference_text)
    == 20 # 23 ∧
  ∃ mistakes corrected_text,
    detect_mistakes ascii_lower echo_phonemizer shifted_recognized_text
      shifted_reference_text (py "en") = Some (mistakes, corrected_text) ∧
    length mistakes = 30 ∧
    Forall (λ m, type m = incorrect_word) mistakes.
Proof.
  split_and!; try (vm_compute; reflexivity).
  eexists _, _. split_and!.
  - vm_compute. reflexivity.
  - vm_compute. reflexivity.
  - decide_closed.
Qed.

(** C5, amended: classification never raises; when either [phonemize] call
    fails, the failure is logged and every mistake keeps the type the
    word-level pass gave it; when both calls succeed (the language being one
    of the supported codes, for which alone the phonemizer is called) and
    the ratio of the phoneme sequences as the library computes it is below
    0.85, every mistake is passed through the escalation, which turns
    [incorrect_word] into [pronunciation], keeps [word], [correct] and
    [position], and leaves an [extra_word] mistake as it is; when that ratio
    is not below 0.85 the mistakes are left as they are.  The library's
    ratio is the ratio of section 4.1 whenever the reference has fewer than
    200 phoneme tokens, so that there a ratio of section 4.1 below 0.85
    escalates. *)
Theorem phonemizer_failure_absorbed (lower : pystr → pystr)
    (phonemize : pystr → pystr → exn + pystr)
    (recognized_text reference_text lang_code : pystr) :
  (∃ st,
     word_mistakes (split (lower recognized_text))
       (split (lower reference_text)) = Some st ∧
     detect_mistakes lower phonemize recognized_text reference_text lang_code
       = Some ((pronunciation_pass phonemize recognized_text reference_text
                  lang_code st.1).1,
               join (py " ") st.2)) ∧
  (∀ mistakes e,
     supported lang_code = true →
     phonemize recognized_text lang_code = inl e ∨
     ((∃ recognized_phonemes,
         phonemize recognized_text lang_code = inr recognized_phonemes) ∧
      phonemize reference_text lang_code = inl e) →
     pronunciation_pass phonemize recognized_text reference_text lang_code
       mistakes
     = (mistakes, [py "Phonemization failed: " ++ exn_message e])) ∧
  (∀ mistakes recognized_phonemes reference_phonemes,
     supported lang_code = true →
     phonemize recognized_text lang_code = inr recognized_phonemes →
     phonemize reference_text lang_code = inr reference_phonemes →
     (ratio (split recognized_phonemes) (split reference_phonemes)
        < 85 # 100)%Q →
     pronunciation_pass phonemize recognized_text reference_text lang_code
       mistakes = (map escalate mistakes, [])) ∧
  (∀ m,
     word (escalate m) = word m ∧ correct (escalate m) = correct m ∧
     position (escalate m) = position m ∧
     (type m = incorrect_word → type (escalate m) = pronunciation) ∧
     (type m = extra_word → escalate m = m)) ∧
  (∀ mistakes recognized_phonemes reference_phonemes,
     supported lang_code = true →
     phonemize recognized_text lang_code = inr recognized_phonemes →
     phonemize reference_text lang_code = inr reference_phonemes →
     ¬ (ratio (split recognized_phonemes) (split reference_phonemes)
          < 85 # 100)%Q →
     pronunciation_pass phonemize recognized_text reference_text lang_code
       mistakes = (mistakes, [])) ∧
  (∀ mistakes recognized_phonemes reference_phonemes,
     supported lang_code = true →
     phonemize recognized_text lang_code = inr recognized_phonemes →
     phonemize reference_text lang_code = inr reference_phonemes →
     length (split reference_phonemes) < 200 →
     (SequenceMatcher.ratio false (split recognized_phonemes)
        (split reference_phonemes) < 85 # 100)%Q →
     pronunciation_pass phonemize recognized_text reference_text lang_code
       mistakes = (map escalate mistakes, [])).
Proof.
  assert (Hbelow : ∀ mistakes recognized_phonemes reference_phonemes,
            supported lang_code = true →
            phonemize recognized_text lang_code = inr recognized_phonemes →
            phonemize reference_text lang_code = inr reference_phonemes →
            (ratio (split recognized_phonemes) (split reference_phonemes)
               < 85 # 100)%Q →
            pronunciation_pass phonemize recognized_text reference_text
              lang_code mistakes = (map escalate mistakes, [])).
  { intros mistakes p1 p2 Hlang Hp1 Hp2 Hratio. unfold pronunciation_pass.
    apply Qltb_lt in Hratio. by rewrite Hlang, Hp1, Hp2, Hratio. }
  split_and!.
  - destruct (detect_mistakes_ok lower phonemize recognized_text
                reference_text lang_code) as (st & Hst & _ & Hdet).
    by exists st.
  - intros mistakes e Hlang Hfail. unfold pronunciation_pass.
    rewrite Hlang. by destruct Hfail as [-> | [[p ->] ->]].
  - exact Hbelow.
  - intros m. destruct (escalate_fields m) as (Hw & Hc & Hp).
    split_and!; try done.
    + intros Ht. by rewrite escalate_type, Ht.
    + intros Ht. unfold escalate. rewrite decide_False; [done|].
      by rewrite Ht.
  - intros mistakes p1 p2 Hlang Hp1 Hp2 Hratio. unfold pronunciation_pass.
    rewrite Hlang, Hp1, Hp2.
    destruct (Qltb _ _) eqn:Hb; [|done].
    by apply Qltb_lt in Hb.
  - intros mistakes p1 p2 Hlang Hp1 Hp2 Hshort Hratio.
    apply (Hbelow mistakes p1 p2); [done..|].
    by rewrite (ratio_short true _ _ Hshort).
Qed.

(** A simulated phonemizer failure leaves an [incorrect_word] mistake as it
    is and logs the failure, and a phonemizer whose outputs have ratio 0.5
    escalates it while the [extra_word] mistake next to it is kept. *)
Lemma phonemizer_failure_absorbed_witness :
  pronunciation_pass failing_phonemizer (py "a b") (py "a c") (py "en")
    [Mistake (py "b") (py "c") 1 incorrect_word]
    = ([Mistake (py "b") (py "c") 1 incorrect_word],
       [py "Phonemization failed: espeak missing"]) ∧
  pronunciation_pass echo_phonemizer (py "a b") (py "a c") (py "en")
    [Mistake (py "b") (py "c") 1 incorrect_word;
     Mistake (py "d") [] 2 extra_word]
    = ([Mistake (py "b") (py "c") 1 pronunciation;
        Mistake (py "d") [] 2 extra_word], []).
Proof.
  split.
  - apply (proj1 (proj2 (phonemizer_failure_absorbed ascii_lower
             failing_phonemizer (py "a b") (py "a c") (py "en")))
             [Mistake (py "b") (py "c") 1 incorrect_word]
             (Exn (py "RuntimeError") (py "espeak missing"))).
    + reflexivity.
    + left. reflexivity.
  - rewrite (proj2 (proj2 (proj2 (proj2 (proj2
               (phonemizer_failure_absorbed ascii_lower
                  echo_phonemizer (py "a b") (py "a c") (py "en"))))))
               _ (py "a b") (py "a c")).
    + reflexivity.
    + reflexivity.
    + reflexivity.
    + reflexivity.
    + vm_compute. lia.
    + vm_compute. reflexivity.
Defined.

(** *** Reference selector *)

(** C6: [get_reference_text] returns the first phrase, in the order of the
    phrase list of the language (the English list when the code is not a
    key of the phrase book), whose word-level ratio against the lowercased,
    whitespace-tokenized recognized text exceeds 0.70; it returns the
    recognized text unchanged when no phrase does, which is the case when
    the recognized text has no words. *)
Theorem select_reference_first_match (lower : pystr → pystr)
    (recognized_text lang_code : pystr) :
  let words := split (lower recognized_text) in
  let phrases :=
    dict_get COMMON_PHRASES lang_code [py "hello"; py "how are you";
                                       py "my name is"] in
  ((lang_code, phrases) ∈ COMMON_PHRASES ∨
   ((lang_code ∉ map fst COMMON_PHRASES) ∧
    phrases = [py "hello"; py "how are you"; py "my name is"])) ∧
  ((∃ l1 phrase l2,
      phrases = l1 ++ phrase :: l2 ∧
      Forall (λ q, ¬ exceeds words q) l1 ∧ exceeds words phrase ∧
      get_reference_text lower recognized_text lang_code = phrase) ∨
   (Forall (λ q, ¬ exceeds words q) phrases ∧
    get_reference_text lower recognized_text lang_code = recognized_text)) ∧
  (words = [] →
   get_reference_text lower recognized_text lang_code = recognized_text).
Proof.
  intros words phrases.
  assert (Hget : get_reference_text lower recognized_text lang_code =
                 match first_phrase words phrases with
                 | Some phrase => phrase
                 | None => recognized_text
                 end) by reflexivity.
  pose proof (dict_get_cases COMMON_PHRASES lang_code
                [py "hello"; py "how are you"; py "my name is"]) as Hdict.
  fold phrases in Hdict.
  split_and!; [done| |].
  - pose proof (first_phrase_spec words phrases) as Hspec. rewrite Hget.
    destruct (first_phrase words phrases) as [p|].
    + destruct Hspec as (l1 & l2 & Hl & Hl1 & Hp).
      left. by exists l1, p, l2.
    + by right.
  - intros Hwords. rewrite Hget, Hwords.
    assert (Hnone : first_phrase [] phrases = None).
    { destruct Hdict as [Hin|[_ ->]].
      - pose proof first_phrase_no_words as Hall.
        rewrite Forall_forall in Hall. apply (Hall _ Hin).
      - vm_compute. reflexivity. }
    by rewrite Hnone.
Qed.

(** The empty transcript: no words, so the transcript itself is returned. *)
Lemma select_reference_first_match_witness :
  split (ascii_lower []) = [] ∧
  get_reference_text ascii_lower [] (py "en") = [].
Proof.
  split; [reflexivity|].
  apply (select_reference_first_match ascii_lower [] (py "en")).
  reflexivity.
Defined.

(** *** Scorer *)

(** C4, as stated, fails in two ways.  For an empty reference text next to
    an empty recognized text the code returns 0 where the formula gives 100.
    For the recognized text ["xxxxxy"] and the reference of 200 characters
    made of one ["y"] and 199 times ["x"], the code returns 100/103 where
    the formula gives 500/103: the ratio of section 4.1 finds the common run
    ["xxxxx"], while the library leaves ["x"], which fills more than 1% of
    the reference, out of its index and finds only ["y"]. *)
Lemma score_formula_fails :
  (calculate_score ascii_lower [] [] [] == 0 ∧
   spec_score ascii_lower [] [] [] == 100 ∧
   ¬ (calculate_score ascii_lower [] [] []
      == spec_score ascii_lower [] [] [])) ∧
  (length long_reference = 200 ∧
   calculate_score ascii_lower (py "xxxxxy") long_reference [] == 100 # 103 ∧
   spec_score ascii_lower (py "xxxxxy") long_reference [] == 500 # 103 ∧
   ¬ (calculate_score ascii_lower (py "xxxxxy") long_reference []
      == spec_score ascii_lower (py "xxxxxy") long_reference [])).
Proof.
  assert (H1 : calculate_score ascii_lower [] [] [] == 0) by reflexivity.
  assert (H2 : spec_score ascii_lower [] [] [] == 100)
    by (vm_compute; reflexivity).
  assert (H3 : calculate_score ascii_lower (py "xxxxxy") long_reference []
               == 100 # 103) by (vm_compute; reflexivity).
  assert (H4 : spec_score ascii_lower (py "xxxxxy") long_reference []
               == 500 # 103) by (vm_compute; reflexivity).
  split; split_and!; [done|done| |reflexivity|done|done|].
  - rewrite H1, H2. intros Heq. discriminate Heq.
  - rewrite H3, H4. intros Heq. discriminate Heq.
Qed.

(** C4, amended: for all inputs the score lies in [[0, 100]]; whenever the
    reference text is empty the score is 0, so [score(x, "", []) == 0] for
    every [x]; whenever the reference text is non-empty the score equals
    [clamp(base - min(penalty, 40), 0, 100)], where [penalty] sums the
    weights pronunciation 3, incorrect_word 2, extra_word 1 and [base] is
    100 times the character-level ratio of the two lowercased texts as the
    library computes it; that ratio is the ratio of section 4.1, and the
    score is the score of the specification, whenever the lowercased
    reference has fewer than 200 characters. *)
Theorem score_bounds_and_formula (lower : pystr → pystr)
    (recognized_text reference_text : pystr) (mistakes : list mistake) :
  (0 <= calculate_score lower recognized_text reference_text mistakes
     <= 100)%Q ∧
  (reference_text ≠ [] →
   calculate_score lower recognized_text reference_text mistakes
     == score_formula (SequenceMatcher.ratio true) lower recognized_text
          reference_text mistakes) ∧
  (reference_text ≠ [] → length (lower reference_text) < 200 →
   calculate_score lower recognized_text reference_text mistakes
     == spec_score lower recognized_text reference_text mistakes) ∧
  calculate_score lower recognized_text [] mistakes == 0 ∧
  calculate_score lower recognized_text [] [] == 0.
Proof.
  assert (Hformula : reference_text ≠ [] →
            calculate_score lower recognized_text reference_text mistakes
            == score_formula (SequenceMatcher.ratio true) lower
                 recognized_text reference_text mistakes).
  { intros Href. unfold calculate_score, score_formula, clamp.
    rewrite decide_False by done.
    assert (Hp : penalty mistakes
                 = sum_list (map (λ m, spec_weight (type m)) mistakes)).
    { reflexivity. }
    rewrite Hp, (Qmult_comm 100). reflexivity. }
  split; [|split; [done|split; [|split; reflexivity]]].
  - unfold calculate_score. case_decide; [done|]. apply clamp_bounds.
  - intros Href Hshort. rewrite (Hformula Href).
    unfold spec_score, score_formula.
    by rewrite (ratio_short true _ _ Hshort).
Qed.

(** A transcript equal to its own reference: the formula of the
    specification applies. *)
Lemma score_bounds_and_formula_witness :
  py "hello" ≠ [] ∧ length (ascii_lower (py "hello")) < 200 ∧
  calculate_score ascii_lower (py "hello") (py "hello") []
    == spec_score ascii_lower (py "hello") (py "hello") [].
Proof.
  split; [discriminate|]. split; [vm_compute; lia|].
  apply (proj1 (proj2 (proj2
           (score_bounds_and_formula ascii_lower (py "hello") (py "hello")
              [])))).
  - discriminate.
  - vm_compute. lia.
Defined.

(** *** Identical texts *)

(** C9, as stated, fails for two empty texts: they are identical, no mistake
    is found, and the score is 0, not 100. *)
Lemma identical_empty_texts_score_zero :
  detect_mistakes ascii_lower failing_phonemizer [] [] (py "en")
    = Some ([], []) ∧
  calculate_score ascii_lower [] [] [] == 0 ∧
  ¬ (calculate_score ascii_lower [] [] [] == 100).
Proof.
  split_and!; [reflexivity|reflexivity|].
  intros Heq. discriminate Heq.
Qed.

(** C9, amended: when the recognized and the reference text are identical,
    classification returns an empty mistake list; [generate_feedback] on the
    empty list returns the praise line followed by the first 2 entries of
    the tip list of the language (of the English list when the code is not a
    key of the tip table); and the score is 100 when the text is not
    empty, 0 when it is. *)
Theorem identical_texts (lower : pystr → pystr)
    (phonemize : pystr → pystr → exn + pystr) (text lang_code : pystr) :
  let tips :=
    dict_get LANGUAGE_TIPS lang_code
      [py "Stress syllables..."; py "Vowel sounds...";
       py "Final consonants..."] in
  detect_mistakes lower phonemize text text lang_code
    = Some ([], join (py " ") (split (lower text))) ∧
  generate_feedback [] lang_code = praise_line :: take 2 tips ∧
  ((lang_code, tips) ∈ LANGUAGE_TIPS ∨
   ((lang_code ∉ map fst LANGUAGE_TIPS) ∧
    generate_feedback [] lang_code
      = [praise_line; py "Stress syllables..."; py "Vowel sounds..."])) ∧
  (text ≠ [] → calculate_score lower text text [] == 100) ∧
  calculate_score lower [] [] [] == 0.
Proof.
  intros tips. split_and!; [| | | |reflexivity].
  - unfold detect_mistakes. rewrite word_mistakes_self. simpl.
    destruct (pronunciation_pass_cases phonemize text text lang_code [])
      as [-> | ->]; done.
  - reflexivity.
  - destruct (dict_get_cases LANGUAGE_TIPS lang_code
                [py "Stress syllables..."; py "Vowel sounds...";
                 py "Final consonants..."]) as [Hin|[Hout Hdflt]].
    + by left.
    + right. split; [done|].
      change (generate_feedback [] lang_code) with (praise_line :: take 2 tips).
      unfold tips. by rewrite Hdflt.
  - intros Htext. unfold calculate_score. rewrite decide_False by done.
    apply clamp_100. rewrite ratio_self. reflexivity.
Qed.

(** The transcript ["hello"] against itself scores 100. *)
Lemma identical_texts_witness :
  py "hello" ≠ [] ∧
  calculate_score ascii_lower (py "hello") (py "hello") [] == 100.
Proof.
  split; [discriminate|].
  apply (identical_texts ascii_lower failing_phonemizer (py "hello")
           (py "en")).
  discriminate.
Defined.

(** *** Orchestrator *)

(** C2, as stated, fails: for an empty recognized text the result has the
    two fields [error] and [debug] only, without [message], [type] or
    [timestamp]; and the result for a failure raised upstream has a
    [traceback] field next to the four named ones. *)
Lemma no_speech_result_lacks_fields :
  let result :=
    analyze_pronunciation ascii_lower failing_phonemizer
      (inr (Audio 1200 16000 1, [])) (py "2025-01-01T00:00:00") (py "")
      (py "en") in
  keys result = [py "error"; py "debug"] ∧
  (py "message" ∉ keys result) ∧ (py "type" ∉ keys result) ∧
  (py "timestamp" ∉ keys result) ∧
  keys (analyze_pronunciation ascii_lower echo_phonemizer
          (inl (Exn (py "ValueError") (py "Model files are incomplete")))
          (py "2025-01-01T00:00:00") (py "Traceback ...") (py "en"))
    = [py "error"; py "message"; py "type"; py "timestamp"; py "traceback"].
Proof. split_and!; [reflexivity|decide_closed..|reflexivity]. Qed.

(** C2, amended: a failure raised upstream gives a result with exactly the
    fields [error], [message], [type], [timestamp] and [traceback]; an empty
    recognized text gives the no-speech result with exactly the fields
    [error] and [debug]; every other run gives the success fields; so
    exactly one of the shapes is produced and a result with an [error]
    field carries no mistakes, feedback or score. *)
Theorem analysis_result_shapes (lower : pystr → pystr)
    (phonemize : pystr → pystr → exn + pystr)
    (upstream : exn + audio * pystr)
    (timestamp traceback language : pystr) :
  let result :=
    analyze_pronunciation lower phonemize upstream timestamp traceback
      language in
  match upstream with
  | inl e =>
      keys result = [py "error"; py "message"; py "type"; py "timestamp";
                     py "traceback"]
  | inr (processed_audio, recognized_text) =>
      if decide (recognized_text = []) then
        result =
          [(py "error", VStr (py "No speech detected"));
           (py "debug",
            VDict [(py "duration_ms", VInt (duration_ms processed_audio));
                   (py "sample_rate", VInt (frame_rate processed_audio));
                   (py "channels", VInt (channels processed_audio))])]
      else keys result = success_keys
  end ∧
  ((py "error" ∈ keys result ∧ (py "mistakes" ∉ keys result) ∧
    (py "feedback" ∉ keys result) ∧ (py "score" ∉ keys result)) ∨
   keys result = success_keys).
Proof.
  intros result. subst result.
  destruct upstream as [e|[processed_audio recognized_text]]; simpl.
  - split; [reflexivity|]. left. split_and!; decide_closed.
  - destruct (decide (recognized_text = [])) as [Hempty|Hspeech].
    + split; [reflexivity|]. left. split_and!; decide_closed.
    + destruct (detect_mistakes_ok lower phonemize recognized_text
                  (get_reference_text lower recognized_text language)
                  language) as (st & _ & _ & ->).
      split; [reflexivity|]. by right.
Qed.

(** *** Scenario A *)

(** C1: for the transcript ["hello how are you"] and language ["en"] the
    reference selected is ["how are you"], the phrase ["hello"] having ratio
    2/5 and ["how are you"] ratio 6/7; classification then returns a single
    mistake for the word ["hello"], with [correct = "how"] at position 0,
    whose type is [incorrect_word] or, after escalation, [pronunciation]:
    the word is not flagged as [extra_word]. *)
Theorem scenario_a_hello_not_extra_word (lower : pystr → pystr)
    (phonemize : pystr → pystr → exn + pystr) :
  lower (py "hello how are you") = py "hello how are you" →
  lower (py "how are you") = py "how are you" →
  ratio (split (py "hello how are you")) (split (py "hello")) == 2 # 5 ∧
  ratio (split (py "hello how are you")) (split (py "how are you")) == 6 # 7 ∧
  get_reference_text lower (py "hello how are you") (py "en")
    = py "how are you" ∧
  ∃ t,
    detect_mistakes lower phonemize (py "hello how are you")
      (py "how are you") (py "en")
      = Some ([Mistake (py "hello") (py "how") 0 t], py "how how are you") ∧
    (t = incorrect_word ∨ t = pronunciation) ∧ t ≠ extra_word.
Proof.
  intros Hrec Href.
  split_and!.
  - vm_compute. reflexivity.
  - vm_compute. reflexivity.
  - unfold get_reference_text. rewrite Hrec. vm_compute. reflexivity.
  - unfold detect_mistakes. rewrite Hrec, Href.
    assert (Hwords :
      word_mistakes (split (py "hello how are you")) (split (py "how are you"))
      = Some ([Mistake (py "hello") (py "how") 0 incorrect_word],
              [py "how"; py "how"; py "are"; py "you"]))
      by (vm_compute; reflexivity).
    rewrite Hwords. simpl.
    destruct (pronunciation_pass_cases phonemize (py "hello how are you")
                (py "how are you") (py "en")
                [Mistake (py "hello") (py "how") 0 incorrect_word])
      as [Hpass|Hpass]; simpl in Hpass; rewrite Hpass.
    + exists incorrect_word. split_and!; [reflexivity|by left|done].
    + exists pronunciation. split_and!; [reflexivity|by right|done].
Qed.

(** The scenario with the ASCII lowercase function and a phonemizer that
    fails. *)
Lemma scenario_a_hello_not_extra_word_witness :
  get_reference_text ascii_lower (py "hello how are you") (py "en")
    = py "how are you" ∧
  ∃ t,
    detect_mistakes ascii_lower failing_phonemizer
      (py "hello how are you") (py "how are you") (py "en")
      = Some ([Mistake (py "hello") (py "how") 0 t], py "how how are you") ∧
    (t = incorrect_word ∨ t = pronunciation) ∧ t ≠ extra_word.
Proof.
  apply (scenario_a_hello_not_extra_word ascii_lower failing_phonemizer);
    reflexivity.
Defined.

End Spec.

(** ** The matching blocks are real matches *)

Module BlockFacts.
Import SequenceMatcher Invariants Notions MatcherFacts.

Section soundness.
Context {T : Type} `{Countable T}.
Variable autojunk : bool.
Implicit Types (a b : list T) (b2j : gmap T (list nat)).
Implicit Types (j2len newj2len : gmap nat nat) (best : Match).

Lemma chain_b_sound b : b2j_sound (chain_b autojunk b) b.
Proof.
  intros x js j Hx Hj. apply (chain_b_lookup autojunk) in Hx as ->.
  by apply elem_of_positions in Hj.
Qed.

Lemma b2j_get_sound a b b2j i j :
  b2j_sound b2j b → j ∈ b2j_get b2j a i →
  ∃ v, a !! i = Some v ∧ b !! j = Some v.
Proof.
  intros Hs. unfold b2j_get. destruct (a !! i) as [x|]; [|by intros ?%elem_of_nil].
  destruct (b2j !! x) as [js|] eqn:Hx; simpl; [|by intros ?%elem_of_nil].
  intros Hj. exists x. split; [done|]. by eapply Hs.
Qed.

Lemma ends_match_one a b i j v :
  a !! i = Some v → b !! j = Some v → ends_match a b i j 1.
Proof.
  intros Ha Hb. split_and!; [lia|lia|].
  intros d Hd. assert (d = 0) as -> by lia. rewrite !Nat.sub_0_r. eauto.
Qed.

Lemma ends_match_succ a b i j k v :
  a !! S i = Some v → b !! S j = Some v →
  ends_match a b i j k → ends_match a b (S i) (S j) (k + 1).
Proof.
  intros Ha Hb (Hi & Hj & Hm). split_and!; [lia|lia|].
  intros [|d] Hd; [eauto|]. simpl. apply Hm. lia.
Qed.

Lemma ends_match_block a b i j k :
  ends_match a b i j k → is_match a b (i + 1 - k, j + 1 - k, k).
Proof.
  intros (Hi & Hj & Hm) d Hd; simpl in *.
  destruct (Hm (k - 1 - d)) as (v & Ha & Hb); [lia|].
  exists v. split.
  - by replace (i + 1 - k + d) with (i - (k - 1 - d)) by lia.
  - by replace (j + 1 - k + d) with (j - (k - 1 - d)) by lia.
Qed.

Lemma scan_row_sound a b i blo bhi j2len js newj2len best :
  (∀ j, j ∈ js → ∃ v, a !! i = Some v ∧ b !! j = Some v) →
  (∀ j k, j2len !! j = Some k → ∃ i', i = S i' ∧ ends_match a b i' j k) →
  (∀ j k, newj2len !! j = Some k → ends_match a b i j k) →
  is_match a b best →
  (∀ j k, (scan_row i blo bhi j2len js newj2len best).1 !! j = Some k →
          ends_match a b i j k) ∧
  is_match a b (scan_row i blo bhi j2len js newj2len best).2.
Proof.
  intros Hjs Hprev. revert newj2len best.
  induction js as [|j js IH]; intros newj2len best Hnew Hbest; simpl; [done|].
  assert (Hjs' : ∀ j', j' ∈ js → ∃ v, a !! i = Some v ∧ b !! j' = Some v).
  { intros j' Hj'. apply Hjs. by right. }
  destruct (decide (j < blo)); [by apply IH|].
  destruct (decide (bhi ≤ j)); [done|].
  destruct (Hjs j) as (v & Ha & Hb); [by left|].
  assert (Hk : ends_match a b i j
                 (match j with 0 => 0 | S j' => default 0 (j2len !! j') end + 1)).
  { destruct j as [|j']; [by eapply ends_match_one|].
    destruct (j2len !! j') as [k'|] eqn:Hj'; simpl; [|by eapply ends_match_one].
    destruct (Hprev _ _ Hj') as (i' & -> & Hm).
    by eapply ends_match_succ. }
  apply IH; [done| |].
  - intros j0 k0. destruct (decide (j0 = j)) as [->|Hne].
    + rewrite lookup_insert_eq. by intros [= <-].
    + rewrite lookup_insert_ne by done. apply Hnew.
  - case_decide; [|done]. by apply ends_match_block.
Qed.

Lemma scan_rows_from_sound a b b2j blo bhi n i st :
  b2j_sound b2j b →
  rows_sound a b i st →
  rows_sound a b (i + n)
    (foldl (λ st i, scan_row i blo bhi st.1 (b2j_get b2j a i) ∅ st.2)
       st (seq i n)).
Proof.
  intros Hs. revert i st.
  induction n as [|n IH]; intros i st Hst; simpl.
  - by rewrite Nat.add_0_r.
  - replace (i + S n) with (S i + n) by lia. apply IH.
    destruct Hst as [Hprev Hbest].
    destruct (scan_row_sound a b i blo bhi st.1 (b2j_get b2j a i) ∅ st.2)
      as [Hnew Hbest']; [|done| |done|].
    + intros j Hj. by eapply b2j_get_sound.
    + intros j k. by rewrite lookup_empty.
    + split; [|done]. intros j k Hj. exists i. split; [done|]. by apply Hnew.
Qed.

Lemma scan_rows_sound a b b2j alo ahi blo bhi :
  b2j_sound b2j b → is_match a b (scan_rows a b2j alo ahi blo bhi).2.
Proof.
  intros Hs. unfold scan_rows.
  apply (scan_rows_from_sound a b b2j blo bhi (ahi - alo) alo); [done|].
  split; simpl.
  - intros j k. by rewrite lookup_empty.
  - intros d Hd. simpl in Hd. lia.
Qed.

Lemma eq_at_true a b i j :
  eq_at a b i j = true → ∃ v, a !! i = Some v ∧ b !! j = Some v.
Proof.
  unfold eq_at. destruct (a !! i) as [x|], (b !! j) as [y|]; try done.
  intros ->%bool_decide_eq_true. eauto.
Qed.

Lemma extend_left_sound a b alo blo besti bestj bestsize :
  is_match a b (besti, bestj, bestsize) →
  is_match a b (extend_left a b alo blo besti bestj bestsize).
Proof.
  revert bestj bestsize.
  induction besti as [|i' IH]; intros bestj bestsize Hm; [done|].
  destruct bestj as [|j']; [done|]. simpl.
  destruct (bool_decide _ && _) eqn:Hc; [|done].
  apply andb_prop in Hc as [_ Hc]. apply eq_at_true in Hc as (v & Ha & Hb).
  apply IH. intros [|d] Hd; simpl in *.
  - rewrite !Nat.add_0_r. eauto.
  - rewrite <-!Nat.add_succ_comm. apply (Hm d). simpl. lia.
Qed.

Lemma extend_right_sound a b ahi bhi besti bestj bestsize n :
  is_match a b (besti, bestj, bestsize) →
  is_match a b
    (besti, bestj, extend_right a b ahi bhi besti bestj bestsize n).
Proof.
  revert bestsize. induction n as [|n IH]; intros bestsize Hm; simpl; [done|].
  destruct (bool_decide _ && _) eqn:Hc; [|done].
  apply andb_prop in Hc as [_ Hc]. apply eq_at_true in Hc as (v & Ha & Hb).
  apply IH. intros d Hd; simpl in *.
  destruct (decide (d = bestsize)) as [->|Hne]; [eauto|].
  apply (Hm d). simpl. lia.
Qed.

(** The block returned by [find_longest_match] is a real match. *)
Lemma find_longest_match_sound a b b2j alo ahi blo bhi :
  b2j_sound b2j b →
  is_match a b (find_longest_match a b b2j alo ahi blo bhi).
Proof.
  intros Hs. unfold find_longest_match.
  pose proof (scan_rows_sound a b b2j alo ahi blo bhi Hs) as H1.
  destruct (scan_rows a b2j alo ahi blo bhi).2 as [[bi bj] bs].
  apply (extend_left_sound a b alo blo) in H1.
  destruct (extend_left a b alo blo bi bj bs) as [[bi' bj'] bs'].
  by apply extend_right_sound.
Qed.

Lemma mb_loop_sound a b b2j fuel queue acc bl :
  b2j_sound b2j b →
  Forall (is_match a b) acc →
  mb_loop a b b2j fuel queue acc = Some bl →
  Forall (is_match a b) bl.
Proof.
  intros Hs. revert queue acc.
  induction fuel as [|fuel IH]; intros queue acc Hacc;
    destruct queue as [|[[[alo ahi] blo] bhi] queue]; simpl;
    try by intros [= <-].
  pose proof (find_longest_match_sound a b b2j alo ahi blo bhi Hs) as Hx.
  destruct (find_longest_match a b b2j alo ahi blo bhi) as [[i j] k].
  destruct (decide (k = 0)); [by apply IH|].
  apply IH. apply Forall_app. split; [done|]. by apply Forall_singleton.
Qed.

Lemma found_blocks_sound a b : Forall (is_match a b) (found_blocks autojunk a b).
Proof.
  unfold found_blocks.
  destruct (mb_loop _ _ _ _ _ _) as [bl|] eqn:Hbl; [|done].
  eapply mb_loop_sound; [apply chain_b_sound| |exact Hbl]. done.
Qed.

Lemma collapse_step_sound a b st x :
  is_match a b st.1 → Forall (is_match a b) st.2 → is_match a b x →
  is_match a b (collapse_step st x).1 ∧
  Forall (is_match a b) (collapse_step st x).2.
Proof.
  destruct st as [[[i1 j1] k1] out], x as [[i2 j2] k2].
  unfold collapse_step; simpl. intros H1 Hout H2.
  destruct (decide (i1 + k1 = i2 ∧ j1 + k1 = j2)) as [[<- <-]|Hadj]; simpl.
  - split; [|done]. intros d Hd; simpl in *.
    destruct (decide (d < k1)) as [Hlt|Hge]; [by apply (H1 d)|].
    destruct (H2 (d - k1)) as (v & Ha & Hb); [simpl; lia|]. simpl in *.
    exists v. split.
    + by replace (i1 + d) with (i1 + k1 + (d - k1)) by lia.
    + by replace (j1 + d) with (j1 + k1 + (d - k1)) by lia.
  - split; [done|]. case_decide; [done|].
    apply Forall_app. split; [done|]. by apply Forall_singleton.
Qed.

Lemma collapse_fold_sound a b bl st :
  is_match a b st.1 → Forall (is_match a b) st.2 → Forall (is_match a b) bl →
  is_match a b (foldl collapse_step st bl).1 ∧
  Forall (is_match a b) (foldl collapse_step st bl).2.
Proof.
  revert st. induction bl as [|x bl IH]; intros st H1 H2 Hbl; simpl; [done|].
  apply Forall_cons in Hbl as [Hx Hbl].
  destruct (collapse_step_sound a b st x) as [? ?]; [done..|].
  by apply IH.
Qed.

Lemma collapse_sound a b bl :
  Forall (is_match a b) bl → Forall (is_match a b) (collapse bl).
Proof.
  intros Hbl. unfold collapse.
  destruct (collapse_fold_sound a b bl ((0, 0, 0), [])) as [H1 H2];
    [by intros d Hd; simpl in Hd; lia|done|done|].
  destruct (foldl collapse_step _ bl) as [[[i1 j1] k1] out]; simpl in *.
  case_decide; [done|].
  apply Forall_app. split; [done|]. by apply Forall_singleton.
Qed.

(** Every matching block denotes equal segments of the two sequences. *)
Lemma get_matching_blocks_sound a b :
  Forall (is_match a b) (get_matching_blocks autojunk a b).
Proof.
  unfold get_matching_blocks. apply Forall_app. split.
  - apply collapse_sound.
    assert (Hperm : merge_sort Match_le (found_blocks autojunk a b)
                      ≡ₚ found_blocks autojunk a b)
      by apply merge_sort_Permutation.
    rewrite Hperm. apply found_blocks_sound.
  - apply Forall_singleton. intros d Hd; simpl in Hd; lia.
Qed.

End soundness.

Lemma pointwise_slices {T} (a b : list T) i j k :
  (∀ d, d < k → ∃ v, a !! (i + d) = Some v ∧ b !! (j + d) = Some v) →
  take k (drop i a) = take k (drop j b).
Proof.
  intros Hm. apply list_eq. intros d.
  destruct (decide (d < k)) as [Hlt|Hge].
  - rewrite !lookup_take_lt, !lookup_drop by done.
    by destruct (Hm d Hlt) as (v & -> & ->).
  - by rewrite !lookup_take_ge by lia.
Qed.

Section opcode_soundness.
Context {T : Type} `{Countable T}.
Variable autojunk : bool.
Implicit Types (a b : list T).

Lemma step_ops_sound a b i j x :
  is_match a b x → Forall (equal_sound a b) (step_ops i j x).
Proof.
  intros Hx. unfold step_ops. apply Forall_app. split.
  - repeat case_decide; repeat constructor; by intros [=].
  - case_decide; repeat constructor. intros _ d Hd; simpl in *.
    apply (Hx d). lia.
Qed.

Lemma opcodes_sound_from a b i j bl :
  Forall (is_match a b) bl →
  Forall (equal_sound a b) (foldl opcode_step (i, j, []) bl).2.
Proof.
  revert i j. induction bl as [|x bl IH]; intros i j Hbl; [done|].
  apply Forall_cons in Hbl as [Hx Hbl]. cbn [foldl].
  rewrite opcode_step_ops, foldl_opcode_step. simpl.
  apply Forall_app. split; [by apply step_ops_sound|by apply IH].
Qed.

(** Every [equal] opcode spans equal segments of the two sequences. *)
Lemma get_opcodes_sound a b :
  Forall (equal_sound a b) (get_opcodes autojunk a b).
Proof.
  unfold get_opcodes. apply opcodes_sound_from, get_matching_blocks_sound.
Qed.

End opcode_soundness.

(** *** The total size of the matching blocks *)

Lemma chain_total_size i j bl :
  chain i j bl →
  i + total_size bl ≤ (end_pos i j bl).1 ∧
  j + total_size bl ≤ (end_pos i j bl).2.
Proof.
  revert i j. induction bl as [|x bl IH]; intros i j; simpl.
  - unfold total_size; simpl. lia.
  - intros (Hi & Hj & Hc). specialize (IH _ _ Hc).
    unfold total_size in *; simpl. lia.
Qed.

(** When the blocks leave no gap, the two sequences agree position by
    position between the start and the end of the chain. *)
Lemma chain_tight {T} (a b : list T) i j bl :
  chain i j bl → Forall (is_match a b) bl →
  (end_pos i j bl).1 ≤ i + total_size bl →
  (end_pos i j bl).2 ≤ j + total_size bl →
  ∀ d, d < total_size bl →
       ∃ v, a !! (i + d) = Some v ∧ b !! (j + d) = Some v.
Proof.
  revert i j. induction bl as [|x bl IH]; intros i j; simpl.
  - unfold total_size; simpl. intros; lia.
  - intros (Hi & Hj & Hc) [Hx Hbl]%Forall_cons Hei Hej d Hd.
    pose proof (chain_total_size _ _ _ Hc) as [Hti Htj].
    unfold total_size in *; simpl in *.
    assert (x.1.1 = i) as Hxi by lia. assert (x.1.2 = j) as Hxj by lia.
    destruct (decide (d < x.2)) as [Hlt|Hge].
    + rewrite <-Hxi, <-Hxj. by apply Hx.
    + destruct (IH _ _ Hc Hbl) with (d := d - x.2) as (v & Ha & Hb);
        [lia..|].
      exists v. rewrite Hxi in Ha. rewrite Hxj in Hb. split.
      * by replace (i + d) with (i + x.2 + (d - x.2)) by lia.
      * by replace (j + d) with (j + x.2 + (d - x.2)) by lia.
Qed.

Section ratio_facts.
Context {T : Type} `{Countable T}.
Variable autojunk : bool.
Implicit Types (a b : list T).

Lemma matches_le a b :
  matches autojunk a b ≤ length a ∧ matches autojunk a b ≤ length b.
Proof.
  pose proof (chain_total_size 0 0 _ (get_matching_blocks_chain autojunk a b))
    as [Ha Hb].
  rewrite end_pos_matching_blocks in Ha, Hb. simpl in *.
  unfold matches, total_size in *. lia.
Qed.

Lemma matches_all_eq a b :
  matches autojunk a b = length a → matches autojunk a b = length b → a = b.
Proof.
  intros Ha Hb.
  pose proof (chain_tight a b 0 0 _ (get_matching_blocks_chain autojunk a b)
                (get_matching_blocks_sound autojunk a b)) as Ht.
  rewrite end_pos_matching_blocks in Ht. simpl in Ht.
  unfold matches, total_size in *.
  apply list_eq. intros d.
  destruct (decide (d < length a)) as [Hlt|Hge].
  - destruct (Ht ltac:(lia) ltac:(lia) d ltac:(lia)) as (v & -> & ->). done.
  - rewrite !lookup_ge_None_2 by lia. done.
Qed.

End ratio_facts.

Lemma calculate_ratio_range m l :
  2 * m ≤ l → (0 <= calculate_ratio m l <= 1)%Q.
Proof.
  intros Hm. unfold calculate_ratio. case_decide; [by split|].
  unfold Qle; simpl. lia.
Qed.

Lemma calculate_ratio_one m l :
  calculate_ratio m l == 1 ↔ l = 0 ∨ 2 * m = l.
Proof.
  unfold calculate_ratio. case_decide as Hl.
  - split; [by left|done].
  - unfold Qeq; simpl. lia.
Qed.

Section ratio_range.
Context {T : Type} `{Countable T}.
Variable autojunk : bool.
Implicit Types (a b : list T).

Lemma ratio_range a b : (0 <= ratio autojunk a b <= 1)%Q.
Proof.
  unfold ratio. apply calculate_ratio_range.
  pose proof (matches_le autojunk a b). lia.
Qed.

Lemma ratio_one a b : ratio autojunk a b == 1 ↔ a = b.
Proof.
  split; [|intros ->; apply ratio_self].
  unfold ratio. rewrite calculate_ratio_one.
  pose proof (matches_le autojunk a b) as [Ha Hb].
  intros [Hl|Hm].
  - destruct a, b; simpl in Hl; try done; lia.
  - apply (matches_all_eq autojunk); lia.
Qed.

End ratio_range.

End BlockFacts.

(** ** The word-level pass, position by position *)

Module PassFacts.
Import SequenceMatcher Invariants Notions MatcherFacts BlockFacts Speech.
Import SpeechFacts.

Lemma correction_cases (reference_words : list pystr) m :
  correct m = [] ∨ correct m ∈ reference_words →
  correction m = py "[silence]" ∨ correction m ∈ reference_words.
Proof.
  unfold correction. intros [Hc|Hc]; case_decide; auto. by left.
Qed.

Section exact.
Variables recognized_words reference_words : list pystr.

Local Abbreviation pass_exact :=
  (Notions.pass_exact recognized_words reference_words).
Local Abbreviation mistake_ok :=
  (Notions.mistake_ok recognized_words reference_words).

Lemma mistake_ok_app corrected more m :
  position m < length corrected →
  mistake_ok corrected m → mistake_ok (corrected ++ more) m.
Proof.
  intros Hlt (Hw & Hc & Hk). split_and!; [done|done|].
  by rewrite lookup_app_l.
Qed.

Lemma flag_incorrect_exact j1 n i st :
  i + n ≤ length recognized_words →
  pass_exact i st →
  pass_exact (i + n)
    (foldl (flag_incorrect recognized_words reference_words j1) st (seq i n)).
Proof.
  revert i st. induction n as [|n IH]; intros i st Hn Hst; simpl.
  - by rewrite Nat.add_0_r.
  - replace (i + S n) with (S i + n) by lia. apply IH; [lia|].
    destruct Hst as (Hlen & Hcount & Hms & Hsorted & Hkept & Hfrom).
    unfold flag_incorrect.
    destruct (lookup_lt_is_Some_2 recognized_words i) as [w Hw]; [lia|].
    rewrite Hw.
    set (m := Mistake w (default [] (reference_words !! j1)) i incorrect_word).
    change (if decide (correct m = []) then py "[silence]" else correct m)
      with (correction m).
    assert (Hc : correct m = [] ∨ correct m ∈ reference_words).
    { subst m; simpl. destruct (reference_words !! j1) as [r|] eqn:Hr; simpl.
      - right. by eapply list_elem_of_lookup_2.
      - by left. }
    split_and!; simpl.
    + rewrite length_app. simpl. lia.
    + rewrite length_app. simpl. lia.
    + apply Forall_app. split.
      * eapply Forall_impl; [exact Hms|]. simpl. intros m' [Hlt Hok].
        split; [lia|]. apply mistake_ok_app; [lia|done].
      * apply Forall_singleton. split; [simpl; lia|].
        split_and!; [done|done|]. change (position m) with i.
        rewrite lookup_app_r by lia.
        by replace (i - length st.2) with 0 by lia.
    + rewrite map_app. apply StronglySorted_app_2.
      * intros p q Hp Hq. apply list_elem_of_singleton in Hq as ->. simpl.
        apply list_elem_of_fmap in Hp as (m' & -> & Hm').
        rewrite Forall_forall in Hms. by apply Hms.
      * done.
      * repeat constructor.
    + intros k Hk Hlt. rewrite map_app in Hk. simpl in Hk.
      assert (k ≠ i) by (intros ->; apply Hk, elem_of_app; right; by left).
      rewrite lookup_app_l by lia. apply Hkept; [|lia].
      intros Hin. apply Hk, elem_of_app. by left.
    + apply Forall_app. split; [done|]. apply Forall_singleton.
      by apply correction_cases.
Qed.

Lemma flag_incorrect_exact_range j1 i1 i2 st :
  i1 ≤ i2 ≤ length recognized_words →
  pass_exact i1 st →
  pass_exact i2
    (foldl (flag_incorrect recognized_words reference_words j1) st
       (seq i1 (i2 - i1))).
Proof.
  intros Hi Hst. replace i2 with (i1 + (i2 - i1)) at 1 by lia.
  apply flag_incorrect_exact; [lia|done].
Qed.

Lemma keep_equal_exact o st :
  op_i1 o ≤ op_i2 o ≤ length recognized_words →
  equal_sound recognized_words reference_words o → op_tag o = equal →
  pass_exact (op_i1 o) st →
  pass_exact (op_i2 o)
    (st.1, st.2 ++ take (op_i2 o - op_i1 o) (drop (op_i1 o) recognized_words)).
Proof.
  intros Hi Heq Htag (Hlen & Hcount & Hms & Hsorted & Hkept & Hfrom).
  split_and!; simpl.
  - rewrite length_app, length_take, length_drop. lia.
  - lia.
  - eapply Forall_impl; [exact Hms|]. simpl. intros m' [Hlt Hok].
    split; [lia|]. apply mistake_ok_app; [lia|done].
  - done.
  - intros k Hk Hlt. destruct (decide (k < op_i1 o)) as [Hlo|Hhi].
    + rewrite lookup_app_l by lia. by apply Hkept.
    + rewrite lookup_app_r by lia. rewrite lookup_take_lt by lia.
      rewrite lookup_drop. f_equal. lia.
  - apply Forall_app. split; [done|].
    apply Forall_forall. intros w Hw.
    apply list_elem_of_lookup in Hw as [d Hd].
    apply lookup_take_Some in Hd as [Hd Hlt]. rewrite lookup_drop in Hd.
    destruct (Heq Htag d Hlt) as (v & Ha & Hb).
    right. rewrite Ha in Hd. injection Hd as <-.
    by eapply list_elem_of_lookup_2.
Qed.

Lemma classify_opcodes_exact ops i j st :
  ops_chain i j ops →
  Forall (equal_sound recognized_words reference_words) ops →
  (ops_end i j ops).1 ≤ length recognized_words →
  pass_exact i st →
  ∃ st',
    foldl (classify_opcode recognized_words reference_words) (Some st) ops
      = Some st' ∧
    pass_exact (ops_end i j ops).1 st'.
Proof.
  revert i j st.
  induction ops as [|o ops IH]; intros i j st; cbn [foldl ops_chain ops_end].
  - intros _ _ _ Hst. by exists st.
  - intros (<- & <- & Hwf & Hops) [Heq Hsound]%Forall_cons Hend Hst.
    destruct (ops_chain_span_a _ _ _ Hops) as [_ Hle].
    assert (Hstep : ∃ st1,
              classify_opcode recognized_words reference_words (Some st) o
                = Some st1 ∧ pass_exact (op_i2 o) st1).
    { unfold classify_opcode. unfold opcode_wf in Hwf. simpl.
      destruct (op_tag o) eqn:Htag.
      - eexists. split; [done|]. apply flag_incorrect_exact_range; [lia|done].
      - eexists. split; [done|]. apply flag_incorrect_exact_range; [lia|done].
      - destruct Hwf as [<- _]. rewrite Nat.sub_diag. simpl. by exists st.
      - eexists. split; [done|]. apply keep_equal_exact; [lia|done..]. }
    destruct Hstep as (st1 & -> & Hst1). by apply IH.
Qed.

Lemma word_mistakes_exact :
  ∃ st, word_mistakes recognized_words reference_words = Some st ∧
        pass_exact (length recognized_words) st.
Proof.
  unfold word_mistakes.
  destruct (get_opcodes_chain true recognized_words reference_words)
    as [Hc He].
  destruct (classify_opcodes_exact
              (get_opcodes recognized_words reference_words) 0 0 ([], []))
    as (st & Hst & Hok).
  - done.
  - apply get_opcodes_sound.
  - by rewrite He.
  - split_and!; simpl; [done|done|done|constructor| |done].
    intros k _ Hk. lia.
  - exists st. by rewrite He in Hok.
Qed.

End exact.

End PassFacts.

(** ** Mistakes, feedback and score *)

Module ProgramFacts.
Import SequenceMatcher Invariants Notions MatcherFacts BlockFacts Speech.
Import SpeechFacts PassFacts.

Lemma escalate_correction m : correction (escalate m) = correction m.
Proof.
  unfold correction. by destruct (escalate_fields m) as (_ & -> & _).
Qed.

Lemma map_escalate_position ms : map position (map escalate ms) = map position ms.
Proof.
  rewrite <-list_fmap_compose. apply list_fmap_ext. intros _ m _. simpl.
  apply escalate_fields.
Qed.

Section detect.
Variable lower : pystr → pystr.
Variable phonemize : pystr → pystr → exn + pystr.

(** What [detect_mistakes] returns, with the two invariants of the word
    pass. *)
Lemma detect_mistakes_exact recognized_text reference_text lang_code :
  ∃ st,
    pass_ok (split (lower recognized_text)) (split (lower reference_text))
      (length (split (lower recognized_text))) st ∧
    pass_exact (split (lower recognized_text)) (split (lower reference_text))
      (length (split (lower recognized_text))) st ∧
    detect_mistakes lower phonemize recognized_text reference_text lang_code
      = Some ((pronunciation_pass phonemize recognized_text reference_text
                 lang_code st.1).1,
              join (py " ") st.2).
Proof.
  destruct (detect_mistakes_ok lower phonemize recognized_text reference_text
              lang_code) as (st & Hst & Hok & Hdm).
  destruct (word_mistakes_exact (split (lower recognized_text))
              (split (lower reference_text))) as (st' & Hst' & Hex).
  rewrite Hst in Hst'. injection Hst' as <-. by exists st.
Qed.

(** A property of the mistakes that does not look at their type holds
    after the pronunciation pass when it held before. *)
Lemma pronunciation_pass_fields (P : mistake → Prop) recognized_text
    reference_text lang_code ms :
  (∀ m, P m → P (escalate m)) →
  Forall P ms →
  Forall P
    (pronunciation_pass phonemize recognized_text reference_text lang_code
       ms).1.
Proof.
  intros HP Hms.
  destruct (pronunciation_pass_cases phonemize recognized_text reference_text
              lang_code ms) as [-> | ->]; [done|].
  apply Forall_fmap. eapply Forall_impl; [exact Hms|]. done.
Qed.

Lemma pronunciation_pass_positions recognized_text reference_text lang_code
    ms :
  map position
    (pronunciation_pass phonemize recognized_text reference_text lang_code
       ms).1 = map position ms.
Proof.
  destruct (pronunciation_pass_cases phonemize recognized_text reference_text
              lang_code ms) as [-> | ->]; [done|].
  apply map_escalate_position.
Qed.

Lemma pronunciation_pass_length recognized_text reference_text lang_code ms :
  length
    (pronunciation_pass phonemize recognized_text reference_text lang_code
       ms).1 = length ms.
Proof.
  destruct (pronunciation_pass_cases phonemize recognized_text reference_text
              lang_code ms) as [-> | ->]; [done|].
  by rewrite length_map.
Qed.

Lemma pronunciation_pass_uniform recognized_text reference_text lang_code ms :
  Forall (λ m, type m = incorrect_word) ms →
  Forall (λ m, type m = incorrect_word)
    (pronunciation_pass phonemize recognized_text reference_text lang_code
       ms).1 ∨
  Forall (λ m, type m = pronunciation)
    (pronunciation_pass phonemize recognized_text reference_text lang_code
       ms).1.
Proof.
  intros Hms.
  destruct (pronunciation_pass_cases phonemize recognized_text reference_text
              lang_code ms) as [-> | ->]; [by left|].
  right. apply Forall_fmap. eapply Forall_impl; [exact Hms|].
  intros m Hm. simpl. by rewrite escalate_type, Hm.
Qed.

End detect.

(** *** Feedback *)

Lemma filter_all {A} (P : A → Prop) `{!∀ x, Decision (P x)} (l : list A) :
  Forall P l → filter P l = l.
Proof.
  induction 1 as [|x l Hx Hl IH]; [done|].
  rewrite filter_cons, decide_True by done. by rewrite IH.
Qed.

Lemma filter_none {A} (P : A → Prop) `{!∀ x, Decision (P x)} (l : list A) :
  Forall (λ x, ¬ P x) l → filter P l = [].
Proof.
  induction 1 as [|x l Hx Hl IH]; [done|].
  rewrite filter_cons, decide_False by done. done.
Qed.

Lemma tips_for_length lang_code : length (tips_for lang_code) = 3.
Proof.
  unfold tips_for, LANGUAGE_TIPS. cbn [dict_get].
  repeat case_decide; done.
Qed.

Lemma feedback_praise lang_code :
  generate_feedback [] lang_code = praise_line :: take 2 (tips_for lang_code).
Proof. done. Qed.

Lemma feedback_incorrect_words ms lang_code :
  ms ≠ [] → Forall (λ m, type m = incorrect_word) ms →
  generate_feedback ms lang_code =
  [py "Incorrect words (" ++ count_str ms ++ py "):"]
    ++ map word_line (take 3 ms) ++ [tips_header] ++ tips_for lang_code.
Proof.
  intros Hne Hms. unfold generate_feedback.
  rewrite decide_False by done.
  rewrite (filter_all (λ m, type m = incorrect_word)) by done.
  rewrite (filter_none (λ m, type m = pronunciation)),
    (filter_none (λ m, type m = extra_word));
    try (eapply Forall_impl; [exact Hms|]; simpl; intros m ->; done).
  rewrite decide_True by done. rewrite decide_False by done.
  rewrite decide_True by done. done.
Qed.

Lemma feedback_pronunciation ms lang_code :
  ms ≠ [] → Forall (λ m, type m = pronunciation) ms →
  generate_feedback ms lang_code =
  [py "Pronunciation issues (" ++ count_str ms ++ py "):"]
    ++ map pronunciation_line (take 3 ms) ++ [tips_header]
    ++ tips_for lang_code.
Proof.
  intros Hne Hms. unfold generate_feedback.
  rewrite decide_False by done.
  rewrite (filter_all (λ m, type m = pronunciation)) by done.
  rewrite (filter_none (λ m, type m = incorrect_word)),
    (filter_none (λ m, type m = extra_word));
    try (eapply Forall_impl; [exact Hms|]; simpl; intros m ->; done).
  rewrite decide_False by done. rewrite decide_True by done.
  rewrite decide_True by done. done.
Qed.

Lemma feedback_length ms lang_code :
  ms ≠ [] →
  5 ≤ length (generate_feedback ms lang_code) ≤ 13.
Proof.
  intros Hne. unfold generate_feedback. rewrite decide_False by done.
  set (ps := filter (λ m, type m = pronunciation) ms).
  set (ws := filter (λ m, type m = incorrect_word) ms).
  set (es := filter (λ m, type m = extra_word) ms).
  assert (Hsome : ps ≠ [] ∨ ws ≠ [] ∨ es ≠ []).
  { destruct ms as [|m ms]; [done|]. subst ps ws es.
    rewrite !filter_cons. destruct (type m); simpl; auto. }
  rewrite !length_app, tips_for_length. simpl.
  assert (Hp : ∀ (f : mistake → pystr) (l : list mistake),
            l ≠ [] → 1 ≤ length (map f (take 3 l)) ≤ 3).
  { intros f l Hl. rewrite length_map, length_take.
    destruct l; [done|]. rewrite length_cons. lia. }
  repeat case_decide; simpl; try tauto;
    repeat match goal with
      | |- context [length (map ?f (take 3 ?l))] =>
          let Hf := fresh in
          pose proof (Hp f l ltac:(done)) as Hf;
          generalize dependent (length (map f (take 3 l))); intros
      end; lia.
Qed.

(** *** Score *)

Lemma weight_range m : 1 ≤ weight m ≤ 3.
Proof. unfold weight. destruct (type m); lia. Qed.

Lemma penalty_cons m ms : penalty (m :: ms) = weight m + penalty ms.
Proof. done. Qed.

Lemma penalty_zero ms : penalty ms = 0 → ms = [].
Proof.
  destruct ms as [|m ms]; [done|]. rewrite penalty_cons.
  pose proof (weight_range m). lia.
Qed.

Lemma clamp_mono (b x y : Q) :
  (x <= y)%Q →
  (Qmax 0 (Qmin 100 (b - y)) <= Qmax 0 (Qmin 100 (b - x)))%Q.
Proof.
  intros Hxy.
  destruct (Q.max_spec 0 (Qmin 100 (b - y))) as [[? E1]|[? E1]],
    (Q.min_spec 100 (b - y)) as [[? E2]|[? E2]],
    (Q.max_spec 0 (Qmin 100 (b - x))) as [[? E3]|[? E3]],
    (Q.min_spec 100 (b - x)) as [[? E4]|[? E4]]; lra.
Qed.

Lemma clamp_lipschitz (b x y d : Q) :
  (y <= x + d)%Q → (0 <= d)%Q →
  (Qmax 0 (Qmin 100 (b - x)) - d <= Qmax 0 (Qmin 100 (b - y)))%Q.
Proof.
  intros Hxy Hd.
  destruct (Q.max_spec 0 (Qmin 100 (b - y))) as [[? E1]|[? E1]],
    (Q.min_spec 100 (b - y)) as [[? E2]|[? E2]],
    (Q.max_spec 0 (Qmin 100 (b - x))) as [[? E3]|[? E3]],
    (Q.min_spec 100 (b - x)) as [[? E4]|[? E4]]; lra.
Qed.

Lemma clamp_100_inv (b x : Q) :
  (b <= 100)%Q → (0 <= x)%Q →
  Qmax 0 (Qmin 100 (b - x)) == 100 → b == 100 ∧ x == 0.
Proof.
  intros Hb Hx.
  destruct (Q.max_spec 0 (Qmin 100 (b - x))) as [[? E1]|[? E1]],
    (Q.min_spec 100 (b - x)) as [[? E2]|[? E2]]; intros E; split; lra.
Qed.

Lemma clamp_upper (b x y : Q) :
  (b <= 100)%Q → (y <= x)%Q → (0 <= y)%Q →
  (Qmax 0 (Qmin 100 (b - x)) <= 100 - y)%Q ∨ (100 < y)%Q.
Proof.
  intros Hb Hxy Hy.
  destruct (Q.max_spec 0 (Qmin 100 (b - x))) as [[? E1]|[? E1]],
    (Q.min_spec 100 (b - x)) as [[? E2]|[? E2]];
    destruct (Qlt_le_dec 100 y); auto; left; lra.
Qed.

Lemma penalty_at_least ms :
  Forall (λ m, type m ≠ extra_word) ms → 2 * length ms ≤ penalty ms.
Proof.
  induction 1 as [|m ms Hm _ IH]; [done|].
  rewrite penalty_cons, length_cons. unfold weight.
  destruct (type m); [lia|done|lia].
Qed.

Lemma inject_nat_le (n m : nat) :
  n ≤ m → (inject_Z (Z.of_nat n) <= inject_Z (Z.of_nat m))%Q.
Proof. intros Hnm. rewrite <-Zle_Qle. lia. Qed.

Lemma inject_nat_add (n m : nat) :
  inject_Z (Z.of_nat (n + m)) == inject_Z (Z.of_nat n) + inject_Z (Z.of_nat m).
Proof. by rewrite Nat2Z.inj_add, inject_Z_plus. Qed.

End ProgramFacts.

(** ** The audio and recognition layer *)

Module FrontendFacts.
Import SequenceMatcher Invariants Notions Speech SpeechFacts Frontend.

(** *** [str.strip] *)

Lemma lstrip_decompose s : ∃ pre, s = pre ++ lstrip s ∧ blank pre.
Proof.
  induction s as [|c s (pre & Hs & Hpre)]; simpl.
  - exists []. split; [done|constructor].
  - destruct (isspace c) eqn:Hc.
    + exists (c :: pre). split; [simpl; by f_equal|by constructor].
    + exists []. split; [done|constructor].
Qed.

Lemma lstrip_head s c : head (lstrip s) = Some c → isspace c = false.
Proof.
  induction s as [|c' s IH]; simpl; [done|].
  destruct (isspace c') eqn:Hc; [done|]. simpl. by intros [= <-].
Qed.

Lemma lstrip_nil s : lstrip s = [] ↔ blank s.
Proof.
  induction s as [|c s IH]; simpl; [split; [constructor|done]|].
  destruct (isspace c) eqn:Hc.
  - rewrite IH. split; [by constructor|by intros [_ ?]%Forall_cons].
  - split; [done|]. intros [Hc' _]%Forall_cons. congruence.
Qed.

Lemma lstrip_last s : lstrip s ≠ [] → last (lstrip s) = last s.
Proof.
  destruct (lstrip_decompose s) as (pre & Hs & _). intros Hne.
  rewrite Hs at 2. rewrite last_app.
  destruct (last (lstrip s)) eqn:Hl; [done|]. by apply last_None in Hl.
Qed.

Lemma rstrip_decompose s : ∃ suf, s = rstrip s ++ suf ∧ blank suf.
Proof.
  destruct (lstrip_decompose (reverse s)) as (pre & Hs & Hpre).
  exists (reverse pre). split; [|by apply Forall_reverse].
  unfold rstrip. rewrite <-reverse_app, <-Hs. by rewrite reverse_involutive.
Qed.

Lemma blank_lstrip s : blank (lstrip s) → lstrip s = [].
Proof.
  intros Hb. destruct (lstrip s) as [|c r] eqn:Hl; [done|].
  pose proof (lstrip_head s c) as Hc. rewrite Hl in Hc.
  apply Forall_cons in Hb as [Hb _]. specialize (Hc eq_refl). congruence.
Qed.

Lemma strip_nil s : strip s = [] ↔ blank s.
Proof.
  unfold strip, rstrip. split.
  - intros Hs. apply (f_equal reverse) in Hs.
    rewrite reverse_involutive in Hs. change (reverse []) with (@nil N) in Hs.
    apply lstrip_nil, Forall_reverse, blank_lstrip in Hs.
    by apply lstrip_nil.
  - intros Hs. apply lstrip_nil in Hs. by rewrite Hs.
Qed.

(** The text returned by [strip] neither starts nor ends with
    whitespace. *)
Lemma strip_ends s c :
  head (strip s) = Some c ∨ last (strip s) = Some c → isspace c = false.
Proof.
  unfold strip, rstrip. rewrite head_reverse, last_reverse. intros [Hc|Hc].
  - destruct (decide (lstrip (reverse (lstrip s)) = [])) as [Hn|Hn].
    { by rewrite Hn in Hc. }
    rewrite lstrip_last, last_reverse in Hc by done.
    by eapply lstrip_head.
  - by eapply lstrip_head.
Qed.

(** *** Words of a stripped and of a joined text *)

Lemma split_from_blank cur suf :
  blank suf → split_from cur suf = split_from cur [].
Proof.
  intros Hsuf. revert cur.
  induction Hsuf as [|c suf Hc _ IH]; intros cur; simpl; [done|].
  rewrite Hc. case_decide; by rewrite IH.
Qed.

Lemma split_from_app_blank cur s suf :
  blank suf → split_from cur (s ++ suf) = split_from cur s.
Proof.
  intros Hsuf. revert cur. induction s as [|c s IH]; intros cur; simpl.
  - by apply split_from_blank.
  - destruct (isspace c); [|apply IH]. case_decide; by rewrite IH.
Qed.

Lemma split_blank_app pre s : blank pre → split (pre ++ s) = split s.
Proof.
  unfold split. induction 1 as [|c pre Hc _ IH]; simpl; [done|].
  by rewrite Hc.
Qed.

Lemma split_lstrip s : split (lstrip s) = split s.
Proof.
  destruct (lstrip_decompose s) as (pre & Hs & Hpre).
  rewrite <-(split_blank_app pre (lstrip s) Hpre). by rewrite <-Hs.
Qed.

Lemma split_rstrip s : split (rstrip s) = split s.
Proof.
  destruct (rstrip_decompose s) as (suf & Hs & Hsuf). unfold split.
  rewrite <-(split_from_app_blank [] (rstrip s) suf Hsuf). by rewrite <-Hs.
Qed.

Lemma split_strip s : split (strip s) = split s.
Proof. unfold strip. by rewrite split_rstrip, split_lstrip. Qed.

Lemma split_from_app_space cur u c v :
  isspace c = true →
  split_from cur (u ++ c :: v) = split_from cur u ++ split v.
Proof.
  intros Hc. revert cur. induction u as [|c' u IH]; intros cur; simpl.
  - rewrite Hc. by case_decide.
  - destruct (isspace c'); [|apply IH]. case_decide; by rewrite IH.
Qed.

Lemma split_from_nil cur s : split_from cur s = [] → cur = [] ∧ blank s.
Proof.
  revert cur. induction s as [|c s IH]; intros cur; simpl.
  - case_decide; [|done]. intros _. split; [done|constructor].
  - destruct (isspace c) eqn:Hc.
    + case_decide; [|done]. intros [_ Hs]%IH. split; [done|by constructor].
    + intros [Hcur _]%IH. by destruct cur.
Qed.

Lemma split_nil_blank s : split s = [] ↔ blank s.
Proof.
  split; [by intros [_ ?]%split_from_nil|].
  intros Hs. unfold split. by rewrite split_from_blank.
Qed.

Lemma split_app_space u c v :
  isspace c = true → split (u ++ c :: v) = split u ++ split v.
Proof. apply split_from_app_space. Qed.

(** The words of a text joined with single spaces are the words of its
    parts. *)
Lemma split_join_parts ws : split (join (py " ") ws) = concat (map split ws).
Proof.
  induction ws as [|w ws IH]; [done|].
  destruct ws as [|w' ws].
  - simpl. by rewrite app_nil_r.
  - change (join (py " ") (w :: w' :: ws))
      with (w ++ 32%N :: join (py " ") (w' :: ws)).
    rewrite split_app_space by done. rewrite IH. done.
Qed.

Lemma collected_words partials final :
  concat (map split (collected partials final)) =
  concat (map (λ r, split (default [] r)) partials)
    ++ split (default [] final).
Proof.
  unfold collected. rewrite map_app, concat_app. f_equal.
  - by rewrite <-list_fmap_compose.
  - case_decide as Hf; simpl; [by rewrite Hf|by rewrite app_nil_r].
Qed.

Lemma recognized_text_words partials final :
  split (recognized_text_of partials final) =
  concat (map (λ r, split (default [] r)) partials)
    ++ split (default [] final).
Proof.
  unfold recognized_text_of.
  by rewrite split_strip, split_join_parts, collected_words.
Qed.

Lemma strip_nil_split s : strip s = [] ↔ split s = [].
Proof. by rewrite strip_nil, split_nil_blank. Qed.

(** *** The calls that may raise *)

Section calls.
Variable path_exists : pystr → bool.
Variable path_join : pystr → list pystr → pystr.
Variable from_file : pystr → exn + audio.
Variable set_channels : audio → Z → exn + audio.
Variable set_frame_rate : audio → Z → exn + audio.
Context {model : Type}.
Variable Model : pystr → exn + model.

Lemma reraise_inl {A} prefix (r : exn + A) e :
  reraise prefix r = inl e →
  exn_type e = py "ValueError" ∧
  ∃ e', r = inl e' ∧ exn_message e = prefix ++ exn_message e'.
Proof. destruct r as [e'|x]; [|done]. intros [= <-]. eauto. Qed.

Lemma reraise_inr {A} prefix (r : exn + A) x :
  reraise prefix r = inr x ↔ r = inr x.
Proof. destruct r; simpl; split; congruence. Qed.

Lemma too_short_message :
  py "Audio validation failed: "
    ++ (py "Audio too short (minimum " ++ py (pretty MIN_AUDIO_LENGTH_MS)
          ++ py "ms required)") =
  py "Audio validation failed: Audio too short (minimum 500ms required)".
Proof. by vm_compute. Qed.

Lemma validate_audio_inr audio_path audio :
  validate_audio path_exists from_file audio_path = inr audio ↔
  path_exists audio_path = true ∧ from_file audio_path = inr audio ∧
  (MIN_AUDIO_LENGTH_MS <= duration_ms audio)%Z.
Proof.
  unfold validate_audio.
  destruct (path_exists audio_path); simpl; [|by split; [|intros (? & _)]].
  rewrite reraise_inr.
  destruct (from_file audio_path) as [e|au]; simpl.
  - split; [done|by intros (_ & ? & _)].
  - destruct (Z.ltb_spec (duration_ms au) MIN_AUDIO_LENGTH_MS).
    + split; [done|]. intros (_ & [= ->] & ?). lia.
    + split; [by intros [= ->]|]. by intros (_ & [= ->] & _).
Qed.

Lemma validate_audio_short audio_path audio :
  path_exists audio_path = true →
  from_file audio_path = inr audio →
  (duration_ms audio < MIN_AUDIO_LENGTH_MS)%Z →
  validate_audio path_exists from_file audio_path
  = inl (Exn (py "ValueError")
           (py "Audio validation failed: Audio too short (minimum 500ms required)")).
Proof.
  intros Hex Hfile Hshort. unfold validate_audio. rewrite Hex, Hfile.
  cbn [negb mbind raise_bind].
  rewrite (proj2 (Z.ltb_lt _ _)) by done.
  cbn [reraise exn_message]. by rewrite too_short_message.
Qed.

Lemma supported_language_item language :
  is_Some (dict_item SUPPORTED_LANGUAGES
             (if dict_in SUPPORTED_LANGUAGES language then language
              else py "en")).
Proof.
  unfold dict_in. case_bool_decide as Hin; [|by eexists].
  unfold SUPPORTED_LANGUAGES in *. cbn [map fst] in Hin. cbn [dict_item].
  repeat (case_decide; [by eexists|]).
  exfalso. repeat (apply elem_of_cons in Hin as [Hin|Hin]; [done|]).
  by apply elem_of_nil in Hin.
Qed.

Lemma dict_item_elem_of {V} (d : list (pystr * V)) k v :
  dict_item d k = Some v → v ∈ map snd d.
Proof.
  induction d as [|[k' v'] d IH]; simpl; [done|].
  case_decide; [intros [= <-]; by left|]. intros ?%IH. by right.
Qed.

End calls.

End FrontendFacts.

(** ** Further properties of the program *)

Module Behaviour.
Import SequenceMatcher Invariants Notions MatcherFacts BlockFacts Speech.
Import SpeechFacts PassFacts ProgramFacts Frontend FrontendFacts.

(** *** The matcher *)

(** X1: Matching blocks and [equal] opcodes are real matches: the segment
    of the first sequence a block or an [equal] opcode spans is, element by
    element, the segment of the second sequence it spans.  In
    [detect_mistakes] the words kept under [equal] are therefore words of
    the reference. *)
Theorem equal_spans_are_equal {T : Type} `{Countable T} (autojunk : bool)
    (a b : list T) :
  Forall (λ x : Match, take x.2 (drop x.1.1 a) = take x.2 (drop x.1.2 b))
    (get_matching_blocks autojunk a b) ∧
  Forall (λ o, op_tag o = equal →
               take (op_i2 o - op_i1 o) (drop (op_i1 o) a)
               = take (op_j2 o - op_j1 o) (drop (op_j1 o) b))
    (SequenceMatcher.get_opcodes autojunk a b).
Proof.
  split.
  - eapply Forall_impl; [apply get_matching_blocks_sound|].
    intros x Hx. by apply pointwise_slices.
  - destruct (get_opcodes_chain autojunk a b) as [Hc _].
    apply ops_chain_wf in Hc.
    pose proof (get_opcodes_sound autojunk a b) as Hs.
    rewrite Forall_forall in Hc. rewrite Forall_forall in Hs.
    apply Forall_forall. intros o Ho Htag.
    specialize (Hc o Ho). unfold opcode_wf in Hc. rewrite Htag in Hc.
    destruct Hc as (_ & _ & <-).
    apply pointwise_slices. by apply Hs.
Qed.

(** X2: The similarity ratio of any two sequences lies between 0 and 1. *)
Theorem ratio_in_unit_interval {T : Type} `{Countable T} (autojunk : bool)
    (a b : list T) :
  (0 <= SequenceMatcher.ratio autojunk a b <= 1)%Q.
Proof. apply ratio_range. Qed.

(** X3: The similarity ratio is 1 exactly for equal sequences. *)
Theorem ratio_one_iff_equal {T : Type} `{Countable T} (autojunk : bool)
    (a b : list T) :
  SequenceMatcher.ratio autojunk a b == 1 ↔ a = b.
Proof. apply ratio_one. Qed.

(** *** [detect_mistakes] *)

(** X4: [detect_mistakes] returns, and every mistake it reports names the
    recognized word at its position, with a correction that is empty or a
    word of the reference; the positions increase strictly, so no word is
    reported twice and there are no more mistakes than recognized words. *)
Theorem mistakes_locate_recognized_words (lower : pystr → pystr)
    (phonemize : pystr → pystr → exn + pystr)
    (recognized_text reference_text lang_code : pystr) :
  ∃ mistakes corrected_text,
    detect_mistakes lower phonemize recognized_text reference_text lang_code
      = Some (mistakes, corrected_text) ∧
    Forall (λ m, split (lower recognized_text) !! position m = Some (word m) ∧
                 (correct m = [] ∨ correct m ∈ split (lower reference_text)))
      mistakes ∧
    StronglySorted lt (map position mistakes) ∧
    length mistakes ≤ length (split (lower recognized_text)).
Proof.
  destruct (detect_mistakes_exact lower phonemize recognized_text
              reference_text lang_code)
    as (st & _ & (Hlen & Hcount & Hms & Hsorted & _ & _) & Hdm).
  eexists _, _. split; [exact Hdm|]. split_and!.
  - apply pronunciation_pass_fields.
    + intros m. by destruct (escalate_fields m) as (-> & -> & ->).
    + eapply Forall_impl; [exact Hms|]. simpl.
      by intros m (_ & Hw & Hc & _).
  - by rewrite pronunciation_pass_positions.
  - by rewrite pronunciation_pass_length.
Qed.

(** X5: The mistakes [detect_mistakes] returns all have the same type:
    either every one is an [incorrect_word] or every one is a
    [pronunciation] mistake. *)
Theorem mistakes_share_one_type (lower : pystr → pystr)
    (phonemize : pystr → pystr → exn + pystr)
    (recognized_text reference_text lang_code : pystr) :
  ∃ mistakes corrected_text,
    detect_mistakes lower phonemize recognized_text reference_text lang_code
      = Some (mistakes, corrected_text) ∧
    (Forall (λ m, type m = incorrect_word) mistakes ∨
     Forall (λ m, type m = pronunciation) mistakes).
Proof.
  destruct (detect_mistakes_exact lower phonemize recognized_text
              reference_text lang_code)
    as (st & (_ & _ & Htypes & _) & _ & Hdm).
  eexists _, _. split; [exact Hdm|]. by apply pronunciation_pass_uniform.
Qed.

(** X6: The corrected text is the recognized words with the correction of
    each mistake written at the position of the mistake ([[silence]] for an
    empty correction) and every other word left as it was recognized. *)
Theorem corrected_text_applies_corrections (lower : pystr → pystr)
    (phonemize : pystr → pystr → exn + pystr)
    (recognized_text reference_text lang_code : pystr) :
  ∃ mistakes corrected_text,
    detect_mistakes lower phonemize recognized_text reference_text lang_code
      = Some (mistakes, corrected_text) ∧
    Forall (λ m, split corrected_text !! position m = Some (correction m))
      mistakes ∧
    ∀ k, k ∉ map position mistakes →
         split corrected_text !! k = split (lower recognized_text) !! k.
Proof.
  destruct (detect_mistakes_exact lower phonemize recognized_text
              reference_text lang_code)
    as (st & (_ & Hwords & _) & (Hlen & _ & Hms & _ & Hkept & _) & Hdm).
  eexists _, _. split; [exact Hdm|].
  rewrite split_join by done. split.
  - apply pronunciation_pass_fields.
    + intros m. rewrite escalate_correction.
      by destruct (escalate_fields m) as (_ & _ & ->).
    + eapply Forall_impl; [exact Hms|]. simpl.
      by intros m (_ & _ & _ & Hk).
  - rewrite pronunciation_pass_positions. intros k Hk.
    destruct (decide (k < length (split (lower recognized_text))))
      as [Hlt|Hge]; [by apply Hkept|].
    rewrite !lookup_ge_None_2 by lia. done.
Qed.

(** X7: Every word of the corrected text is a word of the reference or
    the marker [[silence]]. *)
Theorem corrected_words_from_reference (lower : pystr → pystr)
    (phonemize : pystr → pystr → exn + pystr)
    (recognized_text reference_text lang_code : pystr) :
  ∃ mistakes corrected_text,
    detect_mistakes lower phonemize recognized_text reference_text lang_code
      = Some (mistakes, corrected_text) ∧
    Forall (λ w, w = py "[silence]" ∨ w ∈ split (lower reference_text))
      (split corrected_text).
Proof.
  destruct (detect_mistakes_exact lower phonemize recognized_text
              reference_text lang_code)
    as (st & (_ & Hwords & _) & (_ & _ & _ & _ & _ & Hfrom) & Hdm).
  eexists _, _. split; [exact Hdm|]. by rewrite split_join.
Qed.

(** *** [generate_feedback] *)

(** X8: The feedback built from the mistakes of [detect_mistakes] has one
    of three shapes: the praise with two tips when there is no mistake;
    otherwise one heading, [Incorrect words] or [Pronunciation issues], with
    the count of all the mistakes, an example line for each of the first
    three, and the tips heading with the full tip list.  The line
    [Extra words detected] never occurs. *)
Theorem analysis_feedback_shapes (lower : pystr → pystr)
    (phonemize : pystr → pystr → exn + pystr)
    (recognized_text reference_text lang_code : pystr) :
  ∃ mistakes corrected_text,
    detect_mistakes lower phonemize recognized_text reference_text lang_code
      = Some (mistakes, corrected_text) ∧
    ((mistakes = [] ∧
      generate_feedback mistakes lang_code
        = praise_line :: take 2 (tips_for lang_code)) ∨
     generate_feedback mistakes lang_code
       = [py "Incorrect words (" ++ count_str mistakes ++ py "):"]
           ++ map word_line (take 3 mistakes)
           ++ [tips_header] ++ tips_for lang_code ∨
     generate_feedback mistakes lang_code
       = [py "Pronunciation issues (" ++ count_str mistakes ++ py "):"]
           ++ map pronunciation_line (take 3 mistakes)
           ++ [tips_header] ++ tips_for lang_code).
Proof.
  destruct (detect_mistakes_exact lower phonemize recognized_text
              reference_text lang_code)
    as (st & (_ & _ & Htypes & _) & _ & Hdm).
  eexists _, _. split; [exact Hdm|].
  set (ms := (pronunciation_pass phonemize recognized_text reference_text
                lang_code st.1).1).
  destruct (decide (ms = [])) as [Hnil|Hne].
  - left. by rewrite Hnil.
  - right.
    destruct (pronunciation_pass_uniform phonemize recognized_text
                reference_text lang_code st.1 Htypes) as [Hw|Hp].
    + left. by apply feedback_incorrect_words.
    + right. by apply feedback_pronunciation.
Qed.

(** X9: The feedback is short whatever the number of mistakes: three
    lines when there is none, and between 5 and 13 lines otherwise. *)
Theorem feedback_line_count (mistakes : list mistake) (lang_code : pystr) :
  if decide (mistakes = [])
  then length (generate_feedback mistakes lang_code) = 3
  else 5 ≤ length (generate_feedback mistakes lang_code) ≤ 13.
Proof.
  case_decide as Hms.
  - rewrite Hms, feedback_praise. simpl. rewrite length_take, tips_for_length.
    done.
  - by apply feedback_length.
Qed.

(** *** [calculate_score] *)

(** X10: One more mistake never raises the score and lowers it by at most
    3 points; all the mistakes together cost at most 40 points. *)
Theorem mistakes_lower_the_score (lower : pystr → pystr)
    (recognized_text reference_text : pystr) (m : mistake)
    (mistakes : list mistake) :
  (calculate_score lower recognized_text reference_text (m :: mistakes)
   <= calculate_score lower recognized_text reference_text mistakes)%Q ∧
  (calculate_score lower recognized_text reference_text mistakes - 3
   <= calculate_score lower recognized_text reference_text (m :: mistakes))%Q ∧
  (calculate_score lower recognized_text reference_text [] - 40
   <= calculate_score lower recognized_text reference_text mistakes)%Q.
Proof.
  unfold calculate_score. case_decide; [by split_and!|].
  pose proof (weight_range m) as Hw. split_and!.
  - apply clamp_mono, inject_nat_le. rewrite penalty_cons. lia.
  - apply clamp_lipschitz; [|done].
    change 3%Q with (inject_Z (Z.of_nat 3)). rewrite <-inject_nat_add.
    apply inject_nat_le. rewrite penalty_cons. lia.
  - apply clamp_lipschitz; [|done].
    change 40%Q with (inject_Z (Z.of_nat 40)). rewrite <-inject_nat_add.
    apply inject_nat_le. lia.
Qed.

(** X11: The penalty is capped: two mistake lists whose weights both add
    up to 40 or more give the same score. *)
Theorem penalty_cap (lower : pystr → pystr)
    (recognized_text reference_text : pystr) (ms ms' : list mistake) :
  40 ≤ penalty ms → 40 ≤ penalty ms' →
  calculate_score lower recognized_text reference_text ms
  = calculate_score lower recognized_text reference_text ms'.
Proof.
  intros Hms Hms'. unfold calculate_score.
  by rewrite !Nat.min_r by done.
Qed.

Lemma penalty_cap_witness :
  40 ≤ penalty (replicate 14 (Mistake (py "helo") (py "hello") 0 pronunciation)) ∧
  40 ≤ penalty (replicate 20 (Mistake (py "helo") (py "hello") 0 incorrect_word)) ∧
  calculate_score ascii_lower (py "helo") (py "hello")
    (replicate 14 (Mistake (py "helo") (py "hello") 0 pronunciation))
  = calculate_score ascii_lower (py "helo") (py "hello")
      (replicate 20 (Mistake (py "helo") (py "hello") 0 incorrect_word)).
Proof.
  split; [vm_compute; lia|]. split; [vm_compute; lia|].
  apply (penalty_cap ascii_lower (py "helo") (py "hello")); vm_compute; lia.
Defined.

(** X12: With a non-empty reference the score is 100 exactly when the
    lowercased texts are equal and there is no mistake. *)
Theorem perfect_score_iff (lower : pystr → pystr)
    (recognized_text reference_text : pystr) (mistakes : list mistake) :
  reference_text ≠ [] →
  calculate_score lower recognized_text reference_text mistakes == 100 ↔
  lower recognized_text = lower reference_text ∧ mistakes = [].
Proof.
  intros Href. unfold calculate_score. rewrite decide_False by done.
  pose proof (ratio_range true (lower recognized_text) (lower reference_text))
    as Hr.
  split.
  - intros E. apply clamp_100_inv in E as [Eb Ex].
    + split.
      * apply (ratio_one true). lra.
      * apply penalty_zero. unfold Qeq in Ex. simpl in Ex. lia.
    + lra.
    + change 0%Q with (inject_Z (Z.of_nat 0)). apply inject_nat_le. lia.
  - intros [-> ->]. apply clamp_100. rewrite ratio_self. reflexivity.
Qed.

Lemma perfect_score_iff_witness :
  py "hello" ≠ [] ∧
  (calculate_score ascii_lower (py "Hello") (py "hello") [] == 100 ↔
   ascii_lower (py "Hello") = ascii_lower (py "hello") ∧ [] = @nil mistake).
Proof.
  split; [discriminate|].
  apply (perfect_score_iff ascii_lower (py "Hello") (py "hello") []).
  discriminate.
Defined.

(** X13: the score of an analysis reflects its mistakes: with [n] mistakes
    reported by [detect_mistakes] the score is at most
    [100 - min(2 * n, 40)]. *)
Theorem score_reflects_mistakes (lower : pystr → pystr)
    (phonemize : pystr → pystr → exn + pystr)
    (recognized_text reference_text lang_code : pystr) :
  ∃ mistakes corrected_text,
    detect_mistakes lower phonemize recognized_text reference_text lang_code
      = Some (mistakes, corrected_text) ∧
    (calculate_score lower recognized_text reference_text mistakes
     <= 100 - inject_Z (Z.of_nat (min (2 * length mistakes) 40)))%Q.
Proof.
  destruct (detect_mistakes_exact lower phonemize recognized_text
              reference_text lang_code)
    as (st & (_ & _ & Htypes & _) & _ & Hdm).
  eexists _, _. split; [exact Hdm|].
  set (ms := (pronunciation_pass phonemize recognized_text reference_text
                lang_code st.1).1).
  assert (Hpen : 2 * length ms ≤ penalty ms).
  { apply penalty_at_least.
    apply pronunciation_pass_no_extra.
    eapply Forall_impl; [exact Htypes|]. simpl. by intros m ->. }
  assert (H40 : (inject_Z (Z.of_nat (min (2 * length ms) 40)) <= 40)%Q).
  { change 40%Q with (inject_Z (Z.of_nat 40)). apply inject_nat_le. lia. }
  assert (H0 : (0 <= inject_Z (Z.of_nat (min (2 * length ms) 40)))%Q).
  { change 0%Q with (inject_Z (Z.of_nat 0)). apply inject_nat_le. lia. }
  unfold calculate_score. case_decide; [lra|].
  pose proof (ratio_range true (lower recognized_text) (lower reference_text))
    as Hr.
  destruct (clamp_upper
              (ratio (lower recognized_text) (lower reference_text) * 100)
              (inject_Z (Z.of_nat (min (penalty ms) 40)))
              (inject_Z (Z.of_nat (min (2 * length ms) 40))))
    as [Hle|Hgt]; [lra|apply inject_nat_le; lia|done|done|lra].
Qed.

(** *** [get_reference_text] and [analyze_pronunciation] *)

(** X14: A transcript whose lowercased words are the words of a phrase of
    the language's list is graded against that phrase, whatever its case
    and spacing. *)
Theorem canonical_phrase_selected (lower : pystr → pystr)
    (recognized_text lang_code phrase : pystr) (phrases : list pystr) :
  (lang_code, phrases) ∈ COMMON_PHRASES → phrase ∈ phrases →
  split (lower recognized_text) = split phrase →
  get_reference_text lower recognized_text lang_code = phrase.
Proof.
  intros Hlang Hphrase Hwords. unfold get_reference_text. rewrite Hwords.
  unfold COMMON_PHRASES in Hlang.
  repeat (apply elem_of_cons in Hlang as [Hlang|Hlang];
          [injection Hlang as -> ->;
           repeat (apply elem_of_cons in Hphrase as [->|Hphrase];
                   [by vm_compute|]);
           by apply elem_of_nil in Hphrase|]).
  by apply elem_of_nil in Hlang.
Qed.

Lemma canonical_phrase_selected_witness :
  get_reference_text ascii_lower (py "  How ARE  you ") (py "en")
  = py "how are you".
Proof.
  apply (canonical_phrase_selected ascii_lower (py "  How ARE  you ")
           (py "en") (py "how are you")
           [py "hello"; py "how are you"; py "my name is"]).
  - unfold COMMON_PHRASES. do 4 right. left.
  - right. left.
  - reflexivity.
Defined.

(** X15: Whenever the reference chosen for a transcript is the transcript
    itself, as it is when no phrase of the list is similar enough, the
    analysis reports no mistake, the praise, and the score 100. *)
Theorem self_reference_graded_perfect (lower : pystr → pystr)
    (phonemize : pystr → pystr → exn + pystr) (processed_audio : audio)
    (recognized_text timestamp traceback language : pystr) :
  recognized_text ≠ [] →
  get_reference_text lower recognized_text language = recognized_text →
  ∃ score, score == 100 ∧
    Speech.analyze_pronunciation lower phonemize
      (inr (processed_audio, recognized_text)) timestamp traceback language
    = [(py "original_text", VStr recognized_text);
       (py "reference_text", VStr recognized_text);
       (py "corrected_text",
        VStr (join (py " ") (split (lower recognized_text))));
       (py "mistakes", VList []);
       (py "feedback",
        VList (map VStr (praise_line :: take 2 (tips_for language))));
       (py "score", VNum score);
       (py "language", VStr language)].
Proof.
  intros Htext Href.
  exists (calculate_score lower recognized_text recognized_text []). split.
  - unfold calculate_score. rewrite decide_False by done.
    apply clamp_100. rewrite ratio_self. reflexivity.
  - unfold Speech.analyze_pronunciation. rewrite decide_False by done.
    rewrite Href.
    assert (Hdm : detect_mistakes lower phonemize recognized_text
                    recognized_text language
                  = Some ([], join (py " ") (split (lower recognized_text)))).
    { unfold detect_mistakes. rewrite word_mistakes_self. simpl.
      destruct (pronunciation_pass_cases phonemize recognized_text
                  recognized_text language []) as [-> | ->]; done. }
    rewrite Hdm. done.
Qed.

Lemma self_reference_graded_perfect_witness :
  ∃ score, score == 100 ∧
    Speech.analyze_pronunciation ascii_lower echo_phonemizer
      (inr (sample_audio 1200, py "good morning")) (py "t") (py "tb")
      (py "en")
    = [(py "original_text", VStr (py "good morning"));
       (py "reference_text", VStr (py "good morning"));
       (py "corrected_text",
        VStr (join (py " ") (split (ascii_lower (py "good morning")))));
       (py "mistakes", VList []);
       (py "feedback",
        VList (map VStr (praise_line :: take 2 (tips_for (py "en")))));
       (py "score", VNum score);
       (py "language", VStr (py "en"))].
Proof.
  apply (self_reference_graded_perfect ascii_lower echo_phonemizer
           (sample_audio 1200) (py "good morning") (py "t") (py "tb")
           (py "en")).
  - discriminate.
  - by vm_compute.
Defined.

(** *** The audio and recognition layer *)

(** X16: [validate_audio] returns the decoded recording only when the
    file exists and the recording lasts at least 500 ms.  A missing file is
    a [FileNotFoundError] naming the path; every other failure, the short
    recording included, is a [ValueError] whose message starts with
    [Audio validation failed: ]. *)
Theorem validate_audio_outcome (path_exists : pystr → bool)
    (from_file : pystr → exn + audio) (audio_path : pystr) :
  match validate_audio path_exists from_file audio_path with
  | inr audio =>
      path_exists audio_path = true ∧ from_file audio_path = inr audio ∧
      (500 <= duration_ms audio)%Z
  | inl e =>
      if path_exists audio_path
      then exn_type e = py "ValueError" ∧
           ∃ reason,
             exn_message e = py "Audio validation failed: " ++ reason
      else e = Exn (py "FileNotFoundError")
                 (py "Audio file not found: " ++ audio_path)
  end.
Proof.
  destruct (validate_audio path_exists from_file audio_path) as [e|au] eqn:Hv.
  - unfold validate_audio in Hv.
    destruct (path_exists audio_path); simpl in Hv; [|by injection Hv as <-].
    apply reraise_inl in Hv as (Ht & e' & _ & Hm). eauto.
  - by apply validate_audio_inr in Hv.
Qed.

(** X17: [load_model] treats a language outside [SUPPORTED_LANGUAGES] as
    English, never fails on the dictionary lookup, and raises nothing but
    [ValueError]; the model it returns was loaded from the directory of a
    supported language under [vosk_models] that holds [am/final.mdl]. *)
Theorem load_model_outcome {model : Type} (path_exists : pystr → bool)
    (path_join : pystr → list pystr → pystr) (Model : pystr → exn + model)
    (language : pystr) :
  load_model path_exists path_join Model language
  = load_model path_exists path_join Model
      (if dict_in SUPPORTED_LANGUAGES language then language else py "en") ∧
  match load_model path_exists path_join Model language with
  | inl e => exn_type e = py "ValueError"
  | inr m =>
      ∃ model_dir, model_dir ∈ map snd SUPPORTED_LANGUAGES ∧
        let model_path := path_join (py "vosk_models") [model_dir] in
        path_exists model_path = true ∧
        path_exists (path_join model_path [py "am"; py "final.mdl"]) = true ∧
        Model model_path = inr m
  end.
Proof.
  split.
  - unfold load_model. destruct (dict_in SUPPORTED_LANGUAGES language) eqn:Hin.
    + by rewrite Hin.
    + done.
  - unfold load_model.
    destruct (supported_language_item language) as [model_dir Hdir].
    rewrite Hdir. apply dict_item_elem_of in Hdir.
    destruct (path_exists (path_join (py "vosk_models") [model_dir])) eqn:H1;
      simpl; [|done].
    destruct (path_exists (path_join _ [py "am"; py "final.mdl"])) eqn:H2;
      simpl; [|done].
    destruct (Model _) as [e|m] eqn:Hm; simpl; [done|].
    exists model_dir. simpl. by rewrite H1, H2.
Qed.

(** X18: The words of the text [recognize_speech] returns are the words
    of the partial results followed by those of the final result, in order;
    the text is empty exactly when there is no such word, and it neither
    starts nor ends with whitespace. *)
Theorem recognized_text_words_in_order (partials : list (option pystr))
    (final : option pystr) :
  let recognized_text := recognized_text_of partials final in
  let words :=
    concat (map (λ r, split (default [] r)) partials)
      ++ split (default [] final) in
  split recognized_text = words ∧
  (recognized_text = [] ↔ words = []) ∧
  ∀ c, head recognized_text = Some c ∨ last recognized_text = Some c →
       isspace c = false.
Proof.
  intros recognized_text words. split_and!.
  - apply recognized_text_words.
  - unfold recognized_text, recognized_text_of. rewrite strip_nil_split.
    by rewrite split_join_parts, collected_words.
  - intros c. apply strip_ends.
Qed.

Section pipeline.
Variable path_exists : pystr → bool.
Variable path_join : pystr → list pystr → pystr.
Variable from_file : pystr → exn + audio.
Variable set_channels : audio → Z → exn + audio.
Variable set_frame_rate : audio → Z → exn + audio.
Context {model : Type}.
Variable Model : pystr → exn + model.
Variable recognize_speech : audio → model → exn + pystr.
Variable lower : pystr → pystr.
Variable phonemize : pystr → pystr → exn + pystr.

Local Abbreviation analyze :=
  (Frontend.analyze_pronunciation path_exists path_join from_file
     set_channels set_frame_rate Model recognize_speech lower phonemize).

(** X19: A recording shorter than 500 ms ends the analysis with the
    error result of a [ValueError] whose message is
    [Audio validation failed: Audio too short (minimum 500ms required)],
    whatever the language and the state of the models. *)
Theorem short_recording_rejected (audio_path language timestamp traceback
    : pystr) (audio : Speech.audio) :
  path_exists audio_path = true →
  from_file audio_path = inr audio →
  (duration_ms audio < 500)%Z →
  analyze audio_path language timestamp traceback
  = error_info
      (Exn (py "ValueError")
         (py "Audio validation failed: Audio too short (minimum 500ms required)"))
      timestamp traceback.
Proof.
  intros Hex Hfile Hshort.
  unfold Frontend.analyze_pronunciation, upstream.
  by rewrite (validate_audio_short path_exists from_file audio_path audio).
Qed.

(** X20: A missing recording ends the analysis with the error result of
    a [FileNotFoundError] that names the path; nothing is decoded and no
    model is loaded. *)
Theorem missing_recording_reported (audio_path language timestamp traceback
    : pystr) :
  path_exists audio_path = false →
  analyze audio_path language timestamp traceback
  = error_info
      (Exn (py "FileNotFoundError")
         (py "Audio file not found: " ++ audio_path))
      timestamp traceback.
Proof.
  intros Hex.
  unfold Frontend.analyze_pronunciation, upstream, validate_audio.
  by rewrite Hex.
Qed.

(** X21: A graded result certifies its inputs: when the analysis returns
    the seven fields of a success, the recording exists, decodes to at
    least 500 ms, its conversion and the loading of the model succeeded, and
    the recognizer returned a non-empty text, which is the
    [original_text]. *)
Theorem graded_result_certifies_inputs (audio_path language timestamp
    traceback : pystr) :
  keys (analyze audio_path language timestamp traceback) = success_keys →
  ∃ audio processed_audio m recognized_text,
    path_exists audio_path = true ∧
    from_file audio_path = inr audio ∧
    (500 <= duration_ms audio)%Z ∧
    convert_audio set_channels set_frame_rate audio = inr processed_audio ∧
    load_model path_exists path_join Model language = inr m ∧
    recognize_speech processed_audio m = inr recognized_text ∧
    recognized_text ≠ [] ∧
    dict_get (analyze audio_path language timestamp traceback)
      (py "original_text") (VStr []) = VStr recognized_text.
Proof.
  assert (Herr : ∀ e, keys (error_info e timestamp traceback) ≠ success_keys).
  { intros e Hk. apply (f_equal head) in Hk. by vm_compute in Hk. }
  unfold Frontend.analyze_pronunciation, upstream.
  destruct (validate_audio path_exists from_file audio_path) as [e|au] eqn:Hv;
    simpl; [by intros ?%Herr|].
  apply validate_audio_inr in Hv as (Hex & Hfile & Hlong).
  destruct (convert_audio set_channels set_frame_rate au) as [e|pa] eqn:Hc;
    simpl; [by intros ?%Herr|].
  destruct (load_model path_exists path_join Model language) as [e|m] eqn:Hm;
    simpl; [by intros ?%Herr|].
  destruct (recognize_speech pa m) as [e|text] eqn:Hr;
    simpl; [by intros ?%Herr|].
  destruct (decide (text = [])) as [->|Htext].
  { intros Hk. apply (f_equal head) in Hk. by vm_compute in Hk. }
  intros Hk. exists au, pa, m, text. split_and!; try done.
  destruct (detect_mistakes _ _ _ _ _) as [[ms ct]|].
  - cbn [dict_get]. by rewrite decide_True by done.
  - by apply Herr in Hk.
Qed.

End pipeline.

Lemma short_recording_rejected_witness :
  Frontend.analyze_pronunciation any_path slash_join (decoder 300)
    to_channels to_frame_rate load_dir (hears (py "hello")) ascii_lower
    echo_phonemizer (py "a.wav") (py "en") (py "t") (py "tb")
  = error_info
      (Exn (py "ValueError")
         (py "Audio validation failed: Audio too short (minimum 500ms required)"))
      (py "t") (py "tb").
Proof.
  apply (short_recording_rejected any_path slash_join (decoder 300)
           to_channels to_frame_rate load_dir (hears (py "hello"))
           ascii_lower echo_phonemizer (py "a.wav") (py "en") (py "t")
           (py "tb") (sample_audio 300)).
  - reflexivity.
  - reflexivity.
  - reflexivity.
Defined.

Lemma missing_recording_reported_witness :
  Frontend.analyze_pronunciation (λ _, false) slash_join (decoder 1200)
    to_channels to_frame_rate load_dir (hears (py "hello")) ascii_lower
    echo_phonemizer (py "a.wav") (py "en") (py "t") (py "tb")
  = error_info
      (Exn (py "FileNotFoundError")
         (py "Audio file not found: " ++ py "a.wav"))
      (py "t") (py "tb").
Proof.
  apply (missing_recording_reported (λ _, false) slash_join (decoder 1200)
           to_channels to_frame_rate load_dir (hears (py "hello"))
           ascii_lower echo_phonemizer (py "a.wav") (py "en") (py "t")
           (py "tb")).
  reflexivity.
Defined.

Lemma graded_result_certifies_inputs_witness :
  ∃ audio processed_audio m recognized_text,
    any_path (py "a.wav") = true ∧
    decoder 1200 (py "a.wav") = inr audio ∧
    (500 <= duration_ms audio)%Z ∧
    convert_audio to_channels to_frame_rate audio = inr processed_audio ∧
    load_model any_path slash_join load_dir (py "en") = inr m ∧
    hears (py "hello") processed_audio m = inr recognized_text ∧
    recognized_text ≠ [] ∧
    dict_get
      (Frontend.analyze_pronunciation any_path slash_join (decoder 1200)
         to_channels to_frame_rate load_dir (hears (py "hello")) ascii_lower
         echo_phonemizer (py "a.wav") (py "en") (py "t") (py "tb"))
      (py "original_text") (VStr []) = VStr recognized_text.
Proof.
  apply (graded_result_certifies_inputs any_path slash_join (decoder 1200)
           to_channels to_frame_rate load_dir (hears (py "hello"))
           ascii_lower echo_phonemizer (py "a.wav") (py "en") (py "t")
           (py "tb")).
  by vm_compute.
Defined.

End Behaviour.
